(** * PS-PPO learning engine of [ps_ppo/ps_ppo_flatland.py]

    A shallow embedding of the experience buffer ([Memory]), of the policy
    construction, acting, evaluation and checkpoints ([PsPPOPolicy]), of
    the advantage estimator and update loop ([PsPPO]), and of the
    functions around them in the same file: the normalisation of tree
    observations, the two reward-shaping comprehensions and the deadlock
    detection.

    Python exceptions are the [Raise] results of an error monad; objects
    that the code mutates are passed in and returned.

    Tensor entries are modelled as real numbers: sums, products and
    differences are exact.  The one place where the source leaves the reals,
    the division by [N - 1] inside [torch.std], is modelled with an explicit
    not-a-number result.  Tensors are rectangular: the rows of a stacked
    tensor have one common length.  The value estimates keep the one piece
    of shape that the estimator depends on: whether they come as a
    one-dimensional tensor or as the critic's column.

    The forward pass of the networks and the optimizer step are an
    interface ([Torch]); what is proved of [update] holds for every
    implementation of it. *)

From Stdlib Require Import Reals Lra ZArith.
From stdpp Require Import base option list strings gmap pretty.

(** ** Exceptions *)

Inductive error : Type :=
  | AssertionError
  | IndexError
  | RuntimeError
  | ValueError
  | Exception (msg : string).

Inductive result (A : Type) : Type :=
  | Ok (a : A)
  | Raise (e : error).
Arguments Ok {A} a.
Arguments Raise {A} e.

#[global] Instance result_ret : MRet result := fun A a => Ok a.
#[global] Instance result_bind : MBind result := fun A B f m =>
  match m with
  | Ok a => f a
  | Raise e => Raise e
  end.

(** [xs[i]] for a non-negative index: out of range raises [IndexError]. *)
Definition getitem {A} (xs : list A) (i : nat) : result A :=
  match xs !! i with
  | Some x => Ok x
  | None => Raise IndexError
  end.

(** [xs[-1]]. *)
Definition getlast {A} (xs : list A) : result A :=
  match last xs with
  | Some x => Ok x
  | None => Raise IndexError
  end.

(** [xs[i:j]] for non-negative [i], [j]: Python clamps both ends. *)
Definition slice {A} (xs : list A) (i j : nat) : list A :=
  take (j - i) (drop i xs).

(** [xs[:-1]]. *)
Definition but_last {A} (xs : list A) : list A :=
  take (length xs - 1) xs.

(** [xs[-1:]]. *)
Definition last_slice {A} (xs : list A) : list A :=
  drop (length xs - 1) xs.

(** Elementwise combination of two tensors along their first axis, with
    the broadcasting of an operand of length one; any other mismatch is the
    [RuntimeError] torch raises. *)
Definition broadcast {A B C} (f : A → B → C) (a : list A) (b : list B)
    : result (list C) :=
  if decide (length a = length b) then Ok (zip_with f a b)
  else match a, b with
       | _, [y] => Ok ((λ x, f x y) <$> a)
       | [x], _ => Ok (f x <$> b)
       | _, _ => Raise RuntimeError
       end.

(** [range(0, stop, step)]: a zero step is a [ValueError], a negative one
    gives the empty range, and a positive one gives
    [(stop + step - 1) // step] multiples of [step]. *)
Definition range_step (stop : nat) (step : Z) : result (list nat) :=
  if decide (step = 0)%Z then Raise ValueError
  else if decide (step < 0)%Z then Ok []
  else let s := Z.to_nat step in
       Ok ((λ i, i * s) <$> seq 0 ((stop + s - 1) / s)).

(** [m] steps of a fallible state transformer, one per list element. *)
Fixpoint for_each {A S} (body : A → S → result S) (xs : list A) (s : S)
    : result S :=
  match xs with
  | [] => Ok s
  | x :: rest => s' ← body x s; for_each body rest s'
  end.

(** ** Tensors *)

(** A scalar produced by a reduction: a real number, or the not-a-number
    that [0 / 0] yields. *)
Inductive scalar : Type :=
  | Num (x : R)
  | NaN.

(** The value estimates handed to the advantage estimator: a
    one-dimensional tensor of shape [(n,)], or the critic's output of shape
    [(n, 1)].  [len] and integer indexing see the first axis in both. *)
Record values : Type := Values {
  column : bool;
  entries : list R
}.

(** The result of the advantage estimator: shape [(n,)] or [(n, m)]. *)
Inductive tensor (A : Type) : Type :=
  | Vec (xs : list A)
  | Mat (rows : list (list A)).
Arguments Vec {A} xs.
Arguments Mat {A} rows.

Definition all_entries {A} (x : tensor A) : list A :=
  match x with
  | Vec xs => xs
  | Mat rows => concat rows
  end.

Definition tensor_map {A B} (f : A → B) (x : tensor A) : tensor B :=
  match x with
  | Vec xs => Vec (fmap (M:=list) f xs)
  | Mat rows => Mat (fmap (M:=list) (fmap (M:=list) f) rows)
  end.

(** Whether two axes of lengths [n] and [m] broadcast together. *)
Definition broadcastable (n m : nat) : bool :=
  bool_decide (n = m) || bool_decide (n = 1) || bool_decide (m = 1).

(** All results of a list, or the first exception. *)
Fixpoint collect {A} (xs : list (result A)) : result (list A) :=
  match xs with
  | [] => Ok []
  | x :: rest => a ← x; as' ← collect rest; Ok (a :: as')
  end.

Definition sum_list (xs : list R) : R := foldr Rplus 0%R xs.

(** ** Training parameters *)

Module train_params.
Record t : Type := Make {
  activation : string;
  critic_mlp_depth : Z;
  critic_mlp_width : Z;
  actor_mlp_depth : Z;
  actor_mlp_width : Z;
  last_critic_layer_scaling : R;
  last_actor_layer_scaling : R;
  shared : bool;
  learning_rate : R;
  adam_eps : R;
  discount_factor : R;
  epochs : Z;
  batch_size : Z;
  eps_clip : R;
  max_grad_norm : option R;
  lmbda : R;
  value_loss_coefficient : R;
  entropy_coefficient : R;
  advantage_estimator : string;
  load_model_path : option string
}.
End train_params.

(** ** The experience buffer: class [Memory] *)

Module Memory.

(** One list per agent in each of the six fields.  A state is the flat
    observation vector, a mask is one boolean per action. *)
Record t : Type := Make {
  num_agents : nat;
  actions : list (list nat);
  states : list (list (list R));
  logs_of_action_prob : list (list R);
  masks : list (list (list bool));
  rewards : list (list R);
  dones : list (list bool)
}.

Definition __init__ (num_agents : nat) : t :=
  {| num_agents := num_agents;
     actions := replicate num_agents [];
     states := replicate num_agents [];
     logs_of_action_prob := replicate num_agents [];
     masks := replicate num_agents [];
     rewards := replicate num_agents [];
     dones := replicate num_agents [] |}.

Definition clear_memory (self : t) : t := __init__ (num_agents self).

(** [field[agent] = field[agent][-1:]]; the agent handle is a
    non-negative index. *)
Definition keep_last {A} (field : list (list A)) (agent : nat)
    : result (list (list A)) :=
  xs ← getitem field agent;
  Ok (<[agent := last_slice xs]> field).

Definition clear_memory_except_last (self : t) (agent : nat) : result t :=
  actions' ← keep_last (actions self) agent;
  states' ← keep_last (states self) agent;
  logs' ← keep_last (logs_of_action_prob self) agent;
  masks' ← keep_last (masks self) agent;
  rewards' ← keep_last (rewards self) agent;
  dones' ← keep_last (dones self) agent;
  Ok {| num_agents := num_agents self;
        actions := actions';
        states := states';
        logs_of_action_prob := logs';
        masks := masks';
        rewards := rewards';
        dones := dones' |}.

(** [x = field[agent].pop()] *)
Definition pop {A} (field : list (list A)) (agent : nat)
    : result (A * list (list A)) :=
  xs ← getitem field agent;
  x ← getlast xs;
  Ok (x, <[agent := but_last xs]> field).

End Memory.

(** ** The numerical kernels left abstract

    The forward pass of an [nn.Sequential], the outcome of the random
    orthogonal initialisation, the construction of Adam from a learning
    rate and an epsilon, and the loss of one mini-batch followed by one
    [zero_grad / backward / clip_grad_norm_ / step] round on the parameters
    (given the clipping range, the two loss coefficients and the gradient
    bound; it may raise on tensors whose shapes do not fit) are taken as an
    interface.  The critic's last layer has one
    output, so its forward pass yields one number per row. *)

Inductive layer : Type :=
  | Linear (in_features out_features : Z)
  | ReLU
  | Tanh.

(** An [OrderedDict] of named layers, in insertion order. *)
Definition ordered_dict : Type := list (string * layer).

(** A [state_dict]: parameter name to (flattened) tensor. *)
Definition state_dict : Type := gmap string (list R).

(** What the loss of one mini-batch is computed from: the inputs that were
    re-evaluated under the current parameters, the results of that
    evaluation, and the detached constants. *)
Record minibatch : Type := Minibatch {
  mb_states : list (list R);
  mb_actions : list nat;
  mb_masks : list (list bool);
  mb_log_of_action_prob : list R;
  mb_state_estimated_value : values;
  mb_dist_entropy : list R;
  mb_probs_ratio : list R;
  mb_advantage : tensor scalar;
  mb_rewards : list R
}.

Class Torch : Type := {
  optimizer_state : Type;
  logits_of : ordered_dict → state_dict → list R → list R;
  value_of : ordered_dict → state_dict → list R → R;
  orthogonal_init : ordered_dict → ordered_dict → R → R → state_dict;
  adam : R → R → state_dict → optimizer_state;
  backward_step : R → R → R → option R → ordered_dict → ordered_dict →
                  state_dict → optimizer_state → minibatch →
                  result (state_dict * optimizer_state * scalar)
}.

(** ** The policy: class [PsPPOPolicy] *)

Module PsPPOPolicy.
Local Open Scope string_scope.

Record t : Type := Make {
  state_size : Z;
  action_size : Z;
  activation : string;
  critic_network : ordered_dict;
  actor_network : ordered_dict;
  parameters : state_dict
}.

(** [network[key] = value]: an existing key keeps its position. *)
Fixpoint setitem (key : string) (value : layer) (network : ordered_dict)
    : ordered_dict :=
  match network with
  | [] => [(key, value)]
  | (k, v) :: rest =>
      if decide (k = key) then (k, value) :: rest
      else (k, v) :: setitem key value rest
  end.

(** [network.popitem()] on a non-empty dictionary drops the last entry. *)
Definition popitem (network : ordered_dict) : ordered_dict :=
  but_last network.

Definition _get_activation (activation : string) : result layer :=
  if decide (activation = "ReLU") then Ok ReLU
  else if decide (activation = "Tanh") then Ok Tanh
  else Raise (Exception
    "The specified activation function don't exists or is not available").

(** The body of [for layer in range(1, nn_depth)]. *)
Definition add_layer (activation nn_type : string) (nn_depth nn_width
    output_size : Z) (layer : nat) (network : ordered_dict)
    : result ordered_dict :=
  let layer_name := nn_type +:+ "_layer_" +:+ pretty layer in
  if decide (Z.of_nat layer = nn_depth - 1)%Z then
    Ok (setitem layer_name (Linear nn_width output_size) network)
  else
    let network := setitem layer_name (Linear nn_width nn_width) network in
    act ← _get_activation activation;
    Ok (setitem (layer_name +:+ "_activation(" +:+ activation +:+ ")")
          act network).

Definition _build_network (state_size action_size : Z) (activation : string)
    (is_actor : bool) (nn_depth nn_width : Z) : result ordered_dict :=
  if decide (nn_depth ≤ 0)%Z then
    Raise (Exception "Networks' depths must be greater than 0")
  else
    let output_size := if is_actor then action_size else 1%Z in
    let nn_type := if is_actor then "actor" else "critic" in
    let network :=
      setitem (nn_type +:+ "_input")
        (Linear state_size
           (if decide (nn_depth > 1)%Z then nn_width else output_size)) [] in
    network ←
      (if decide (nn_depth > 1)%Z then
         act ← _get_activation activation;
         Ok (setitem (nn_type +:+ "_input_activation(" +:+ activation +:+ ")")
               act network)
       else Ok network);
    for_each (add_layer activation nn_type nn_depth nn_width output_size)
      (seq 1 (Z.to_nat (nn_depth - 1))) network.

(** What [os.path.exists] and [torch.load] find under a path: a pickled
    state dict, or something [torch.load] cannot make one of. *)
Inductive file : Type :=
  | Checkpoint (sd : state_dict)
  | Other.

Definition filesystem : Type := gmap string file.

(** Strict [load_state_dict]: the names and the sizes of the tensors have
    to agree, the values are copied. *)
Definition load_state_dict (self : t) (sd : state_dict) : result t :=
  if decide (length <$> sd = length <$> parameters self) then
    Ok {| state_size := state_size self;
          action_size := action_size self;
          activation := activation self;
          critic_network := critic_network self;
          actor_network := actor_network self;
          parameters := sd |}
  else Raise RuntimeError.

Definition state_dict_of (self : t) : state_dict := parameters self.

(** [load] threads the standard output it prints to.  A file that is not
    a checkpoint makes [torch.load] raise. *)
Definition load (fs : filesystem) (self : t) (path : string)
    (stdout : list string) : result (t * list string) :=
  match fs !! path with
  | Some (Checkpoint sd) =>
      self' ← load_state_dict self sd; Ok (self', stdout)
  | Some Other => Raise RuntimeError
  | None =>
      Ok (self, (stdout ++ ["Loading file failed. File not found."])%list)
  end.

Definition __init__ `{Torch} (fs : filesystem) (state_size action_size : Z)
    (tp : train_params.t) (stdout : list string) : result (t * list string) :=
  let activation := train_params.activation tp in
  critic_layers ←
    _build_network state_size action_size activation false
      (train_params.critic_mlp_depth tp) (train_params.critic_mlp_width tp);
  actor_layers ←
    (if negb (train_params.shared tp) then
       _build_network state_size action_size activation true
         (train_params.actor_mlp_depth tp) (train_params.actor_mlp_width tp)
     else if decide (train_params.critic_mlp_depth tp ≤ 1)%Z then
       Raise (Exception "Shared networks must have depth greater than 1")
     else
       Ok (setitem "actor_output_layer"
             (Linear (train_params.critic_mlp_width tp) action_size)
             (popitem critic_layers)));
  let self :=
    {| state_size := state_size;
       action_size := action_size;
       activation := activation;
       critic_network := critic_layers;
       actor_network := actor_layers;
       parameters :=
         orthogonal_init critic_layers actor_layers
           (train_params.last_critic_layer_scaling tp)
           (train_params.last_actor_layer_scaling tp) |} in
  match train_params.load_model_path tp with
  | Some path => load fs self path stdout
  | None => Ok (self, stdout)
  end.

(** [torch.where(action_mask, action_logits, torch.tensor(-1e+8))] on one
    row. *)
Definition mask_logits (action_mask : list bool) (action_logits : list R)
    : result (list R) :=
  broadcast (λ (m : bool) (l : R), if m then l else (-1e8)%R)
    action_mask action_logits.

Definition softmax (logits : list R) : list R :=
  let z := sum_list (exp <$> logits) in (λ l, exp l / z)%R <$> logits.

(** [Categorical(probs)] normalises its argument once more. *)
Definition Categorical (probs : list R) : list R :=
  let z := sum_list probs in (λ p, p / z)%R <$> probs.

Definition log_prob (distribution : list R) (action : nat) : result R :=
  match distribution !! action with
  | Some p => Ok (ln p)
  | None => Raise ValueError
  end.

Definition entropy (distribution : list R) : R :=
  (- sum_list ((λ p, p * ln p) <$> distribution))%R.

(** [evaluate]: the log-probabilities and entropies of all rows but the
    last, and the critic's value of every row (a column tensor). *)
Definition evaluate `{Torch} (self : t) (state : list (list R))
    (action : list nat) (action_mask : list (list bool))
    : result (list R * values * list R) :=
  let action_logits :=
    logits_of (actor_network self) (parameters self) <$> but_last state in
  rows ← broadcast mask_logits (but_last action_mask) action_logits;
  action_logits ← collect rows;
  let action_distribution := (λ l, Categorical (softmax l)) <$> action_logits in
  logs ← broadcast log_prob action_distribution (but_last action);
  logs ← collect logs;
  Ok (logs,
      Values true (value_of (critic_network self) (parameters self) <$> state),
      entropy <$> action_distribution).

(** [save]: [torch.save(self.state_dict(), path)].  Whether a path can be
    written (its directory exists, the file may be opened) is a matter of
    the file system; [torch.save] raises for a path that cannot. *)
Definition save (writable : string → bool) (fs : filesystem) (self : t)
    (path : string) : result filesystem :=
  if writable path then Ok (<[path := Checkpoint (state_dict_of self)]> fs)
  else Raise RuntimeError.

(** [int(x)] of a float: truncation toward zero. *)
Definition int (x : R) : Z :=
  if Rle_dec 0 x then Int_part x else (- Int_part (- x))%Z.

(** The position that [xs[i]] stands for when [i] is any integer: a
    negative index counts from the end. *)
Definition position {A} (xs : list A) (i : Z) : result nat :=
  if decide (0 ≤ i)%Z then
    if decide (i < Z.of_nat (length xs))%Z then Ok (Z.to_nat i)
    else Raise IndexError
  else if decide (- Z.of_nat (length xs) ≤ i)%Z
       then Ok (Z.to_nat (Z.of_nat (length xs) + i))
       else Raise IndexError.

(** [field[agent_id].append(x)] *)
Definition append {A} (field : list (list A)) (agent_id : Z) (x : A)
    : result (list (list A)) :=
  i ← position field agent_id;
  xs ← getitem field i;
  Ok (<[i := (xs ++ [x])%list]> field).

(** [act] on one state, a row that ends with the agent handle.  [sample]
    is the index that [action_distribution.sample()] draws.  The memory is
    changed in place, one list after the other, so the memory is returned
    next to the result, also when an exception ends the call half-way.
    The subscript [memory.logs_of_action_prob[agent_id]] is evaluated
    before the argument of [append]. *)
Definition act `{Torch} (self : t) (state : list R)
    (memory : option Memory.t) (action_mask : list bool)
    (action : option nat) (sample : nat) : option Memory.t * result nat :=
  match
    (agent_id ← getlast state;
     action_logits ←
       mask_logits action_mask
         (logits_of (actor_network self) (parameters self) state);
     Ok (int agent_id, Categorical (softmax action_logits)))
  with
  | Raise e => (memory, Raise e)
  | Ok (agent_id, action_distribution) =>
      let action := default sample action in
      match memory with
      | None => (None, Ok action)
      | Some m =>
          match append (Memory.states m) agent_id state with
          | Raise e => (Some m, Raise e)
          | Ok states =>
              let m :=
                Memory.Make (Memory.num_agents m) (Memory.actions m) states
                  (Memory.logs_of_action_prob m) (Memory.masks m)
                  (Memory.rewards m) (Memory.dones m) in
              match append (Memory.actions m) agent_id action with
              | Raise e => (Some m, Raise e)
              | Ok actions =>
                  let m :=
                    Memory.Make (Memory.num_agents m) actions
                      (Memory.states m) (Memory.logs_of_action_prob m)
                      (Memory.masks m) (Memory.rewards m) (Memory.dones m) in
                  match
                    (_ ← position (Memory.logs_of_action_prob m) agent_id;
                     log ← log_prob action_distribution action;
                     append (Memory.logs_of_action_prob m) agent_id log)
                  with
                  | Raise e => (Some m, Raise e)
                  | Ok logs =>
                      let m :=
                        Memory.Make (Memory.num_agents m) (Memory.actions m)
                          (Memory.states m) logs (Memory.masks m)
                          (Memory.rewards m) (Memory.dones m) in
                      match append (Memory.masks m) agent_id action_mask with
                      | Raise e => (Some m, Raise e)
                      | Ok masks =>
                          (Some
                             (Memory.Make (Memory.num_agents m)
                                (Memory.actions m) (Memory.states m)
                                (Memory.logs_of_action_prob m) masks
                                (Memory.rewards m) (Memory.dones m)),
                           Ok action)
                      end
                  end
              end
          end
      end
  end.

End PsPPOPolicy.

(** ** The trainer: class [PsPPO] *)

Module PsPPO.
Local Open Scope R_scope.

Record t `{Torch} : Type := Make {
  shared : bool;
  learning_rate : R;
  discount_factor : R;
  epochs : Z;
  batch_size : Z;
  eps_clip : R;
  max_grad_norm : option R;
  lmbda : R;
  value_loss_coefficient : R;
  entropy_coefficient : R;
  loss : scalar;
  gae : bool;
  policy : PsPPOPolicy.t;
  optimizer : optimizer_state;
  policy_old : PsPPOPolicy.t
}.

Definition __init__ `{Torch} (fs : PsPPOPolicy.filesystem)
    (state_size action_size : Z) (tp : train_params.t)
    (stdout : list string) : result (t * list string) :=
  gae ←
    (if decide (train_params.advantage_estimator tp = "gae"%string)
     then Ok true
     else if decide (train_params.advantage_estimator tp = "n-steps"%string)
     then Ok false
     else Raise (Exception "Advantage estimator not available"));
  '(policy, stdout) ←
    PsPPOPolicy.__init__ fs state_size action_size tp stdout;
  let optimizer :=
    adam (train_params.learning_rate tp) (train_params.adam_eps tp)
      (PsPPOPolicy.parameters policy) in
  '(policy_old, stdout) ←
    PsPPOPolicy.__init__ fs state_size action_size tp stdout;
  policy_old ←
    PsPPOPolicy.load_state_dict policy_old (PsPPOPolicy.state_dict_of policy);
  Ok ({| shared := train_params.shared tp;
         learning_rate := train_params.learning_rate tp;
         discount_factor := train_params.discount_factor tp;
         epochs := train_params.epochs tp;
         batch_size := train_params.batch_size tp;
         eps_clip := train_params.eps_clip tp;
         max_grad_norm := train_params.max_grad_norm tp;
         lmbda := train_params.lmbda tp;
         value_loss_coefficient := train_params.value_loss_coefficient tp;
         entropy_coefficient := train_params.entropy_coefficient tp;
         loss := Num 0;
         gae := gae;
         policy := policy;
         optimizer := optimizer;
         policy_old := policy_old |}, stdout).

(** [1 - torch.tensor(dones, dtype=torch.int)] *)
Definition not_done (d : bool) : R := 1 - (if d then 1 else 0).

(** The loop [for t in reversed(range(k))] of the GAE branch; [k] is the
    number of iterations left, so the index visited next is [k - 1]. *)
Fixpoint gae_loop (gamma lam : R) (rewards not_dones values : list R)
    (k : nat) (gaes : list R) (future_gae : R) : result (list R) :=
  match k with
  | O => Ok gaes
  | S t =>
      r ← getitem rewards t;
      v1 ← getitem values (S t);
      nd ← getitem not_dones t;
      v0 ← getitem values t;
      let delta := r + gamma * v1 * nd - v0 in
      let g := delta + gamma * lam * nd * future_gae in
      gae_loop gamma lam rewards not_dones values t (<[t := g]> gaes) g
  end.

(** The loop of the n-step branch. *)
Fixpoint nstep_loop (gamma : R) (rewards not_dones : list R)
    (k : nat) (returns : list R) (future_ret : R) : result (list R) :=
  match k with
  | O => Ok returns
  | S t =>
      r ← getitem rewards t;
      nd ← getitem not_dones t;
      let g := r + gamma * future_ret * nd in
      nstep_loop gamma rewards not_dones t (<[t := g]> returns) g
  end.

(** [returns - state_estimated_value[:-1]]: against a one-dimensional
    tensor the difference is elementwise; against a column of shape
    [(m, 1)] the row of returns is broadcast to shape [(m, T)]. *)
Definition sub_values (returns : list R) (v : values) : result (tensor R) :=
  let baseline := but_last (entries v) in
  if column v then
    Ok (Mat ((λ vi, (λ g, g - vi) <$> returns) <$> baseline))
  else
    d ← broadcast Rminus returns baseline; Ok (Vec d).

Definition _get_advs `{Torch} (self : t) (rewards : list R)
    (dones : list bool) (state_estimated_value : values)
    : result (tensor R) :=
  let not_dones := not_done <$> dones in
  if gae self then
    if decide (length rewards + 1 = length (entries state_estimated_value))%nat
    then
      gaes ← gae_loop (discount_factor self) (lmbda self) rewards not_dones
                (entries state_estimated_value)
                (length rewards) (replicate (length rewards) 0) 0;
      Ok (Vec gaes)
    else Raise AssertionError
  else
    future_ret ← getlast (entries state_estimated_value);
    returns ← nstep_loop (discount_factor self) rewards not_dones
                 (length rewards) (replicate (length rewards) 0) future_ret;
    sub_values returns state_estimated_value.

(** [torch.mean]: the empty mean is [0 / 0]. *)
Definition torch_mean (xs : list R) : scalar :=
  match xs with
  | [] => NaN
  | _ => Num (sum_list xs / INR (length xs))
  end.

(** [torch.std] with Bessel's correction: the squared deviations are
    divided by [N - 1], which is [0 / 0] for a single entry. *)
Definition torch_std (xs : list R) : scalar :=
  if decide (length xs ≤ 1)%nat then NaN
  else
    let m := sum_list xs / INR (length xs) in
    Num (sqrt (sum_list ((λ x, (x - m) * (x - m)) <$> xs)
               / INR (length xs - 1))).

(** [(a - mean) / (std + 1e-10)]; a not-a-number operand propagates. *)
Definition standardize_entry (mean std : scalar) (a : R) : scalar :=
  match mean, std with
  | Num m, Num s => Num ((a - m) / (s + 1e-10))
  | _, _ => NaN
  end.

Definition standardize (advantage : tensor R) : tensor scalar :=
  tensor_map
    (standardize_entry (torch_mean (all_entries advantage))
                       (torch_std (all_entries advantage)))
    advantage.

(** [torch.stack] of a Python list: the empty list is a [RuntimeError]. *)
Definition stack {A} (xs : list A) : result (list A) :=
  match xs with
  | [] => Raise RuntimeError
  | _ => Ok xs
  end.

(** What the optimization loop of one [update] call reads and never
    writes: the stacked references, the detached bootstrap transition, and
    the agent's rewards and done-flags as the pops left them. *)
Record window : Type := Window {
  old_states : list (list R);
  old_actions : list nat;
  old_masks : list (list bool);
  old_logs_of_action_prob : list R;
  last_state : list R;
  last_action : nat;
  last_mask : list bool;
  window_rewards : list R;
  window_dones : list bool
}.

(** The three tensors handed to [policy_evaluate] for the mini-batch that
    starts at [batch_start]. *)
Definition eval_inputs (w : window) (batch_size batch_start : nat)
    : list (list R) * list nat * list (list bool) :=
  let batch_end := (batch_start + batch_size)%nat in
  if decide (length (old_states w) ≤ batch_end)%nat then
    (slice (old_states w) batch_start batch_end ++ [last_state w],
     slice (old_actions w) batch_start batch_end ++ [last_action w],
     slice (old_masks w) batch_start batch_end ++ [last_mask w])
  else
    (slice (old_states w) batch_start (batch_end + 1),
     slice (old_actions w) batch_start (batch_end + 1),
     slice (old_masks w) batch_start (batch_end + 1)).

(** The first two arguments of [get_advantages] for that mini-batch. *)
Definition estimator_inputs (w : window) (batch_size batch_start : nat)
    : list R * list bool :=
  let batch_end := (batch_start + batch_size)%nat in
  (slice (window_rewards w) batch_start batch_end,
   slice (window_dones w) batch_start batch_end).

(** The body of the inner loop. *)
Definition minibatch_step `{Torch} (w : window) (batch_start : nat)
    (self : t) : result t :=
  let size := Z.to_nat (batch_size self) in
  let batch_end := (batch_start + size)%nat in
  let '(states, actions, masks) := eval_inputs w size batch_start in
  '(log_of_action_prob, state_estimated_value, dist_entropy) ←
    PsPPOPolicy.evaluate (policy self) states actions masks;
  probs_ratio ←
    broadcast (λ new old, exp (new - old)) log_of_action_prob
      (slice (old_logs_of_action_prob w) batch_start batch_end);
  let '(rewards, dones) := estimator_inputs w size batch_start in
  advantage ← _get_advs self rewards dones state_estimated_value;
  let advantage := standardize advantage in
  '(parameters, optimizer, loss) ←
    backward_step (eps_clip self) (value_loss_coefficient self)
      (entropy_coefficient self) (max_grad_norm self)
      (PsPPOPolicy.critic_network (policy self))
      (PsPPOPolicy.actor_network (policy self))
      (PsPPOPolicy.parameters (policy self)) (optimizer self)
      {| mb_states := states;
         mb_actions := actions;
         mb_masks := masks;
         mb_log_of_action_prob := log_of_action_prob;
         mb_state_estimated_value := state_estimated_value;
         mb_dist_entropy := dist_entropy;
         mb_probs_ratio := probs_ratio;
         mb_advantage := advantage;
         mb_rewards := rewards |};
  Ok {| shared := shared self;
        learning_rate := learning_rate self;
        discount_factor := discount_factor self;
        epochs := epochs self;
        batch_size := batch_size self;
        eps_clip := eps_clip self;
        max_grad_norm := max_grad_norm self;
        lmbda := lmbda self;
        value_loss_coefficient := value_loss_coefficient self;
        entropy_coefficient := entropy_coefficient self;
        loss := loss;
        gae := gae self;
        policy :=
          {| PsPPOPolicy.state_size := PsPPOPolicy.state_size (policy self);
             PsPPOPolicy.action_size := PsPPOPolicy.action_size (policy self);
             PsPPOPolicy.activation := PsPPOPolicy.activation (policy self);
             PsPPOPolicy.critic_network :=
               PsPPOPolicy.critic_network (policy self);
             PsPPOPolicy.actor_network :=
               PsPPOPolicy.actor_network (policy self);
             PsPPOPolicy.parameters := parameters |};
        optimizer := optimizer;
        policy_old := policy_old self |}.

(** The trainer together with its history: the trainer as it stood after
    every optimizer step so far.  The history is a ghost of the model, kept
    to state what holds during the loop. *)
Definition logged `{Torch} : Type := (t * list t)%type.

Definition logged_step `{Torch} (w : window) (batch_start : nat)
    (s : logged) : result logged :=
  self' ← minibatch_step w batch_start s.1;
  Ok (self', s.2 ++ [self']).

(** The body of [for _ in range(epochs)]: the range of batch starts is
    evaluated anew in every epoch. *)
Definition epoch `{Torch} (w : window) (_ : nat) (s : logged)
    : result logged :=
  starts ← range_step (length (old_states w)) (batch_size s.1);
  for_each (logged_step w) starts s.

(** The statements of [update] that precede the loop: the six pops, and
    the stacking of what is left into the frozen references. *)
Definition detach (memory : Memory.t) (a : nat)
    : result (Memory.t * window) :=
  '(_, rewards) ← Memory.pop (Memory.rewards memory) a;
  '(_, dones) ← Memory.pop (Memory.dones memory) a;
  '(last_state, states) ← Memory.pop (Memory.states memory) a;
  '(last_action, actions) ← Memory.pop (Memory.actions memory) a;
  '(last_mask, masks) ← Memory.pop (Memory.masks memory) a;
  '(_, logs) ← Memory.pop (Memory.logs_of_action_prob memory) a;
  let memory :=
    {| Memory.num_agents := Memory.num_agents memory;
       Memory.actions := actions;
       Memory.states := states;
       Memory.logs_of_action_prob := logs;
       Memory.masks := masks;
       Memory.rewards := rewards;
       Memory.dones := dones |} in
  old_states ← getitem states a ≫= stack;
  old_actions ← getitem actions a ≫= stack;
  old_masks ← getitem masks a ≫= stack;
  old_logs_of_action_prob ← getitem logs a ≫= stack;
  rewards_a ← getitem rewards a;
  dones_a ← getitem dones a;
  Ok (memory,
      {| old_states := old_states;
         old_actions := old_actions;
         old_masks := old_masks;
         old_logs_of_action_prob := old_logs_of_action_prob;
         last_state := last_state;
         last_action := last_action;
         last_mask := last_mask;
         window_rewards := rewards_a;
         window_dones := dones_a |}).

(** [self.policy_old.load_state_dict(self.policy.state_dict())]: the values
    are copied into the old policy's own tensors, the two policies share
    none. *)
Definition sync_old `{Torch} (self : t) : result t :=
  policy_old ←
    PsPPOPolicy.load_state_dict (policy_old self)
      (PsPPOPolicy.state_dict_of (policy self));
  Ok {| shared := shared self;
        learning_rate := learning_rate self;
        discount_factor := discount_factor self;
        epochs := epochs self;
        batch_size := batch_size self;
        eps_clip := eps_clip self;
        max_grad_norm := max_grad_norm self;
        lmbda := lmbda self;
        value_loss_coefficient := value_loss_coefficient self;
        entropy_coefficient := entropy_coefficient self;
        loss := loss self;
        gae := gae self;
        policy := policy self;
        optimizer := optimizer self;
        policy_old := policy_old |}.

(** [update]: returns the trainer, the memory (the six pops stay), and the
    history of the optimization loop. *)
Definition update `{Torch} (self : t) (memory : Memory.t) (a : nat)
    : result (t * Memory.t * list t) :=
  '(memory, w) ← detach memory a;
  '(self, history) ←
    for_each (epoch w) (seq 0 (Z.to_nat (epochs self))) (self, []);
  self ← sync_old self;
  Ok (self, memory, history).

(** *** [update] with what the plain result leaves out

    [update] changes the memory in place and calls the advantage estimator
    inside its loop.  The definitions below run the same statements and
    return, next to the result, the memory as the call leaves it (also when
    it ends in an exception) and the calls of [get_advantages] in the order
    they were made. *)

(** One call of [get_advantages]: the trainer and the batch start it was
    made at, the rows that were evaluated for it, its three arguments, and
    what it returned. *)
Record invocation `{Torch} : Type := Invocation {
  inv_trainer : t;
  inv_batch_start : nat;
  inv_states : list (list R);
  inv_rewards : list R;
  inv_dones : list bool;
  inv_values : values;
  inv_result : result (tensor R)
}.

(** The body of the inner loop, with the call it makes. *)
Definition traced_minibatch_step `{Torch} (w : window) (batch_start : nat)
    (self : t) : list invocation * result t :=
  let size := Z.to_nat (batch_size self) in
  let batch_end := (batch_start + size)%nat in
  let '(states, actions, masks) := eval_inputs w size batch_start in
  match PsPPOPolicy.evaluate (policy self) states actions masks with
  | Raise e => ([], Raise e)
  | Ok (log_of_action_prob, state_estimated_value, dist_entropy) =>
      match
        broadcast (λ new old, exp (new - old)) log_of_action_prob
          (slice (old_logs_of_action_prob w) batch_start batch_end)
      with
      | Raise e => ([], Raise e)
      | Ok probs_ratio =>
          let '(rewards, dones) := estimator_inputs w size batch_start in
          let returned :=
            _get_advs self rewards dones state_estimated_value in
          ([{| inv_trainer := self;
               inv_batch_start := batch_start;
               inv_states := states;
               inv_rewards := rewards;
               inv_dones := dones;
               inv_values := state_estimated_value;
               inv_result := returned |}],
           advantage ← returned;
           let advantage := standardize advantage in
           '(parameters, optimizer, loss) ←
             backward_step (eps_clip self) (value_loss_coefficient self)
               (entropy_coefficient self) (max_grad_norm self)
               (PsPPOPolicy.critic_network (policy self))
               (PsPPOPolicy.actor_network (policy self))
               (PsPPOPolicy.parameters (policy self)) (optimizer self)
               {| mb_states := states;
                  mb_actions := actions;
                  mb_masks := masks;
                  mb_log_of_action_prob := log_of_action_prob;
                  mb_state_estimated_value := state_estimated_value;
                  mb_dist_entropy := dist_entropy;
                  mb_probs_ratio := probs_ratio;
                  mb_advantage := advantage;
                  mb_rewards := rewards |};
           Ok {| shared := shared self;
                 learning_rate := learning_rate self;
                 discount_factor := discount_factor self;
                 epochs := epochs self;
                 batch_size := batch_size self;
                 eps_clip := eps_clip self;
                 max_grad_norm := max_grad_norm self;
                 lmbda := lmbda self;
                 value_loss_coefficient := value_loss_coefficient self;
                 entropy_coefficient := entropy_coefficient self;
                 loss := loss;
                 gae := gae self;
                 policy :=
                   {| PsPPOPolicy.state_size :=
                        PsPPOPolicy.state_size (policy self);
                      PsPPOPolicy.action_size :=
                        PsPPOPolicy.action_size (policy self);
                      PsPPOPolicy.activation :=
                        PsPPOPolicy.activation (policy self);
                      PsPPOPolicy.critic_network :=
                        PsPPOPolicy.critic_network (policy self);
                      PsPPOPolicy.actor_network :=
                        PsPPOPolicy.actor_network (policy self);
                      PsPPOPolicy.parameters := parameters |};
                 optimizer := optimizer;
                 policy_old := policy_old self |})
      end
  end.

(** A loop whose body makes calls: the calls of the rounds that were run,
    in order, up to and including the round that raised. *)
Fixpoint traced_for_each `{Torch} {A S}
    (body : A → S → list invocation * result S) (xs : list A) (s : S)
    : list invocation * result S :=
  match xs with
  | [] => ([], Ok s)
  | x :: rest =>
      match body x s with
      | (calls, Ok s') =>
          let later := traced_for_each body rest s' in
          ((calls ++ later.1)%list, later.2)
      | (calls, Raise e) => (calls, Raise e)
      end
  end.

Definition traced_logged_step `{Torch} (w : window) (batch_start : nat)
    (s : logged) : list invocation * result logged :=
  let step := traced_minibatch_step w batch_start s.1 in
  (step.1, self' ← step.2; Ok (self', (s.2 ++ [self'])%list)).

Definition traced_epoch `{Torch} (w : window) (_ : nat) (s : logged)
    : list invocation * result logged :=
  match range_step (length (old_states w)) (batch_size s.1) with
  | Ok starts => traced_for_each (traced_logged_step w) starts s
  | Raise e => ([], Raise e)
  end.

(** The six pops one after the other, and then the stacking, which
    changes nothing.  A pop that raises leaves the memory with the pops
    made before it. *)
Definition detach_in_place (memory : Memory.t) (a : nat)
    : Memory.t * result window :=
  let n := Memory.num_agents memory in
  let actions0 := Memory.actions memory in
  let states0 := Memory.states memory in
  let logs0 := Memory.logs_of_action_prob memory in
  let masks0 := Memory.masks memory in
  let dones0 := Memory.dones memory in
  match Memory.pop (Memory.rewards memory) a with
  | Raise e => (memory, Raise e)
  | Ok (_, rewards) =>
  match Memory.pop dones0 a with
  | Raise e =>
      (Memory.Make n actions0 states0 logs0 masks0 rewards dones0, Raise e)
  | Ok (_, dones) =>
  match Memory.pop states0 a with
  | Raise e =>
      (Memory.Make n actions0 states0 logs0 masks0 rewards dones, Raise e)
  | Ok (last_state, states) =>
  match Memory.pop actions0 a with
  | Raise e =>
      (Memory.Make n actions0 states logs0 masks0 rewards dones, Raise e)
  | Ok (last_action, actions) =>
  match Memory.pop masks0 a with
  | Raise e =>
      (Memory.Make n actions states logs0 masks0 rewards dones, Raise e)
  | Ok (last_mask, masks) =>
  match Memory.pop logs0 a with
  | Raise e =>
      (Memory.Make n actions states logs0 masks rewards dones, Raise e)
  | Ok (_, logs) =>
      (Memory.Make n actions states logs masks rewards dones,
       old_states ← getitem states a ≫= stack;
       old_actions ← getitem actions a ≫= stack;
       old_masks ← getitem masks a ≫= stack;
       old_logs_of_action_prob ← getitem logs a ≫= stack;
       rewards_a ← getitem rewards a;
       dones_a ← getitem dones a;
       Ok {| old_states := old_states;
             old_actions := old_actions;
             old_masks := old_masks;
             old_logs_of_action_prob := old_logs_of_action_prob;
             last_state := last_state;
             last_action := last_action;
             last_mask := last_mask;
             window_rewards := rewards_a;
             window_dones := dones_a |})
  end end end end end end.

(** [update]: the memory as the call leaves it, the calls of the
    estimator, and the trainer with the history of the loop, or the
    exception. *)
Definition traced_update `{Torch} (self : t) (memory : Memory.t) (a : nat)
    : Memory.t * list invocation * result (t * list t) :=
  match detach_in_place memory a with
  | (memory, Raise e) => (memory, [], Raise e)
  | (memory, Ok w) =>
      let loop :=
        traced_for_each (traced_epoch w) (seq 0 (Z.to_nat (epochs self)))
          (self, []) in
      (memory, loop.1,
       '(self, history) ← loop.2;
       self ← sync_old self;
       Ok (self, history))
  end.

End PsPPO.
(** ** The recursions of the two estimators, as relations on sequences *)

(** [A_t = delta_t + gamma * lambda * (1 - done_t) * A_{t+1}] read off a
    sequence [adv], with [A_T = 0] appended behind its last entry. *)
Definition gae_recursion_at (gamma lam : R) (rewards not_dones values
    adv : list R) (t : nat) : Prop :=
  let delta :=
    (nth t rewards 0 + gamma * nth (S t) values 0 * nth t not_dones 0
     - nth t values 0)%R in
  nth t adv 0%R
  = (delta + gamma * lam * nth t not_dones 0 * nth (S t) (adv ++ [0]) 0)%R.

(** [G_t = r_t + gamma * G_{t+1} * (1 - done_t)] read off a sequence
    [returns], with the seed [G_T] appended behind its last entry. *)
Definition nstep_recursion_at (gamma : R) (rewards not_dones
    returns : list R) (seed : R) (t : nat) : Prop :=
  nth t returns 0%R
  = (nth t rewards 0
     + gamma * nth (S t) (returns ++ [seed]) 0 * nth t not_dones 0)%R.

(** A toy instance of the numerical kernels: two actions with equal
    logits, a critic that returns the first feature of the state, a single
    parameter tensor, and an optimizer step that adds one to every
    parameter and counts the steps. *)
Definition toy_torch : Torch :=
  {| optimizer_state := nat;
     logits_of := λ _ _ _, [0; 0]%R;
     value_of := λ _ _ row, hd 0%R row;
     orthogonal_init := λ _ _ _ _, {[ "w"%string := [0%R] ]};
     adam := λ _ _ _, 0;
     backward_step := λ _ _ _ _ _ _ theta steps _,
       Ok (fmap (M:=list) (Rplus 1) <$> theta, S steps, Num 0) |}.

(** A trainer over the toy kernels with the discount and trace-decay of
    the default configuration. *)
Definition toy_policy : PsPPOPolicy.t :=
  {| PsPPOPolicy.state_size := 2;
     PsPPOPolicy.action_size := 2;
     PsPPOPolicy.activation := "Tanh";
     PsPPOPolicy.critic_network := [("critic_input"%string, Linear 2 1)];
     PsPPOPolicy.actor_network := [("actor_input"%string, Linear 2 2)];
     PsPPOPolicy.parameters := {[ "w"%string := [0%R] ]} |}.

Definition toy_trainer (gae : bool) (lam : R) (epochs batch_size : Z)
    : @PsPPO.t toy_torch :=
  @PsPPO.Make toy_torch
    false 0.001%R 0.99%R epochs batch_size 0.2%R (Some 0.5%R) lam
    0.5%R 0.01%R (Num 0) gae toy_policy O toy_policy.

(** What holds of the trainer and its history all along the loop that
    started from [self0]. *)
Definition loop_invariant `{Torch} (self0 : PsPPO.t) (s : PsPPO.logged)
    : Prop :=
  PsPPO.policy_old s.1 = PsPPO.policy_old self0 ∧
  PsPPO.batch_size s.1 = PsPPO.batch_size self0 ∧
  Forall (λ during, PsPPO.policy_old during = PsPPO.policy_old self0) s.2 ∧
  last (self0 :: s.2) = Some s.1.

(** ** Concrete inputs

    Small instances on which the definitions above are run. *)

Definition memory_two_agents : Memory.t :=
  {| Memory.num_agents := 2;
     Memory.actions := [[0; 1; 1]; [0]];
     Memory.states := [[[0.5; 0]; [0.25; 0]; [1; 0]]; [[0; 1]]]%R;
     Memory.logs_of_action_prob := [[-1; -2; -3]; [-4]]%R;
     Memory.masks :=
       [[[true; true]; [true; false]; [false; true]]; [[true; true]]];
     Memory.rewards := [[1; 0; -1]; [2]]%R;
     Memory.dones := [[false; false; true]; [false]] |}.

(** One agent with five stored transitions: with mini-batches of two an
    epoch has a mini-batch that ends inside the window and a last one. *)
Definition memory_five_steps : Memory.t :=
  {| Memory.num_agents := 1;
     Memory.actions := [[0; 1; 1; 0; 1]];
     Memory.states := [[[0.5; 0]; [0.25; 0]; [1; 0]; [0; 1]; [0; 0.5]]]%R;
     Memory.logs_of_action_prob := [[-1; -2; -3; -1; -2]]%R;
     Memory.masks :=
       [[[true; true]; [true; true]; [false; true]; [true; true];
         [true; true]]];
     Memory.rewards := [[1; 0; -1; 0.5; 2]]%R;
     Memory.dones := [[false; false; false; false; true]] |}.

(** Configurations that differ in the activation name, the sharing flag,
    the two depths and the checkpoint path. *)
Definition toy_params (activation : string) (shared : bool)
    (critic_depth actor_depth : Z) (path : option string) : train_params.t :=
  {| train_params.activation := activation;
     train_params.critic_mlp_depth := critic_depth;
     train_params.critic_mlp_width := 8;
     train_params.actor_mlp_depth := actor_depth;
     train_params.actor_mlp_width := 8;
     train_params.last_critic_layer_scaling := 0.1%R;
     train_params.last_actor_layer_scaling := 0.01%R;
     train_params.shared := shared;
     train_params.learning_rate := 0.001%R;
     train_params.adam_eps := 1e-5%R;
     train_params.discount_factor := 0.99%R;
     train_params.epochs := 2;
     train_params.batch_size := 64;
     train_params.eps_clip := 0.2%R;
     train_params.max_grad_norm := Some 0.5%R;
     train_params.lmbda := 0.95%R;
     train_params.value_loss_coefficient := 0.5%R;
     train_params.entropy_coefficient := 0.01%R;
     train_params.advantage_estimator := "gae";
     train_params.load_model_path := path |}.


(** ** Observation normalisation: [max_lt] to [normalize_observation]

    An entry of a tree observation is a float that can be infinite:
    Flatland writes [np.inf] for a distance that was not found, and the
    splitting below pads a missing branch with [-np.inf]. *)

Inductive xreal : Type :=
  | NegInf
  | Finite (x : R)
  | PosInf.

(** The body of the loop of [max_lt].  [val > item >= 0] fails for both
    infinities, so [max_item] stays a number. *)
Definition max_lt_step (val : R) (item : xreal) (max_item : R) : R :=
  match item with
  | Finite x =>
      if Rlt_dec x val then
        if Rle_dec 0 x then
          if Rlt_dec max_item x then x else max_item
        else max_item
      else max_item
  | NegInf | PosInf => max_item
  end.

(** The loop runs from the last index down to the first. *)
Definition max_lt (seq : list xreal) (val : R) : R :=
  foldr (max_lt_step val) 0%R seq.

(** The body of the loop of [min_gt]: [val <= item < min_item] fails for
    [item = -inf] on the left and for [item = inf] on the right. *)
Definition min_gt_step (val : R) (item : xreal) (min_item : xreal) : xreal :=
  match item with
  | Finite x =>
      if Rle_dec val x then
        match min_item with
        | PosInf => item
        | Finite m => if Rlt_dec x m then item else min_item
        | NegInf => min_item
        end
      else min_item
  | NegInf | PosInf => min_item
  end.

Definition min_gt (seq : list xreal) (val : R) : xreal :=
  foldr (min_gt_step val) PosInf seq.

(** [np.clip(x, a_min, a_max)], that is [minimum(maximum(x, a_min), a_max)],
    for numbers [a_min] and [a_max]. *)
Definition np_clip (a_min a_max : R) (x : xreal) : R :=
  match x with
  | NegInf => Rmin a_min a_max
  | Finite x => Rmin (Rmax x a_min) a_max
  | PosInf => a_max
  end.

(** [x - offset] for a number [offset], and [x / divisor] for a positive
    [divisor]: an infinite entry stays what it is. *)
Definition minus (offset : R) (x : xreal) : xreal :=
  match x with
  | NegInf => NegInf
  | Finite x => Finite (x - offset)
  | PosInf => PosInf
  end.

Definition divide (divisor : R) (x : xreal) : xreal :=
  match x with
  | NegInf => NegInf
  | Finite x => Finite (x / divisor)
  | PosInf => PosInf
  end.

(** [max_obs] and [min_obs] as they stand before the comparison
    [max_obs == min_obs]. *)
Definition norm_obs_range (obs : list xreal) (fixed_radius : R)
    (normalize_to_range : bool) : R * xreal :=
  let max_obs :=
    if Rlt_dec 0 fixed_radius then fixed_radius
    else (Rmax 1 (max_lt obs 1000) + 1)%R in
  let min_obs := if normalize_to_range then min_gt obs 0 else Finite 0 in
  let min_obs :=
    match min_obs with
    | PosInf => Finite max_obs
    | Finite m => if Rlt_dec max_obs m then Finite max_obs else min_obs
    | NegInf => min_obs
    end in
  (max_obs, min_obs).

(** Both divisors are positive where they are used: [max_obs] by the
    branch that sets it, [norm] as the absolute value of a difference of
    two numbers that are not equal.  A [min_obs] of [-inf] would make
    [norm] infinite and every entry [inf / inf]. *)
Definition norm_obs_clip (obs : list xreal) (clip_min clip_max fixed_radius : R)
    (normalize_to_range : bool) : list scalar :=
  let '(max_obs, min_obs) :=
    norm_obs_range obs fixed_radius normalize_to_range in
  match min_obs with
  | Finite min_obs =>
      if Req_dec_T max_obs min_obs then
        (λ x, Num (np_clip clip_min clip_max (divide max_obs x))) <$> obs
      else
        let norm := Rabs (max_obs - min_obs) in
        (λ x, Num (np_clip clip_min clip_max (divide norm (minus min_obs x))))
          <$> obs
  | NegInf | PosInf => (λ _, NaN) <$> obs
  end.

(** The four branches of a node, in the order of
    [TreeObsForRailEnv.tree_explored_actions_char]. *)
Inductive direction : Type := dir_L | dir_F | dir_R | dir_B.

Definition tree_explored_actions_char : list direction :=
  [dir_L; dir_F; dir_R; dir_B].

(** The eleven fields of [TreeObsForRailEnv.Node] that are read. *)
Record features : Type := Features {
  dist_own_target_encountered : xreal;
  dist_other_target_encountered : xreal;
  dist_other_agent_encountered : xreal;
  dist_potential_conflict : xreal;
  dist_unusable_switch : xreal;
  dist_to_next_branch : xreal;
  dist_min_to_target : xreal;
  num_agents_same_direction : xreal;
  num_agents_opposite_direction : xreal;
  num_agents_malfunctioning : xreal;
  speed_min_fractional : xreal
}.

(** A tree observation: the float [-np.inf] where a branch is missing, or
    a node with its dictionary [childs] from directions to trees. *)
#[warnings="-register-all"]
Inductive node : Type :=
  | MinusInf
  | Node (fields : features) (childs : direction → option node).

(** The exceptions met outside the learning engine: two that [error]
    does not list, next to those that it does. *)
Inductive lookup_error : Type :=
  | KeyError
  | AttributeError
  | Builtin (e : error).

Inductive outcome (A : Type) : Type :=
  | Returns (a : A)
  | Raises (e : lookup_error).
Arguments Returns {A} a.
Arguments Raises {A} e.

#[global] Instance outcome_ret : MRet outcome := fun A a => Returns a.
#[global] Instance outcome_bind : MBind outcome := fun A B f m =>
  match m with
  | Returns a => f a
  | Raises e => Raises e
  end.

(** [data], [distance] and [agent_data]. *)
Definition groups : Type := (list xreal * list xreal * list xreal)%type.

Definition _split_node_into_feature_groups (node : features) : groups :=
  ([dist_own_target_encountered node;
    dist_other_target_encountered node;
    dist_other_agent_encountered node;
    dist_potential_conflict node;
    dist_unusable_switch node;
    dist_to_next_branch node],
   [dist_min_to_target node],
   [num_agents_same_direction node;
    num_agents_opposite_direction node;
    num_agents_malfunctioning node;
    speed_min_fractional node]).

(** [int((4 ** (remaining_depth + 1) - 1) / (4 - 1))]: a negative exponent
    gives a float between [-1/3] and [0], which [int] truncates to [0]. *)
Definition num_remaining_nodes (remaining_depth : Z) : nat :=
  if decide (0 ≤ remaining_depth + 1)%Z
  then Z.to_nat ((4 ^ (remaining_depth + 1) - 1) / (4 - 1))
  else 0.

(** [node.childs[direction]] *)
Definition child (childs : direction → option node) (d : direction)
    : outcome node :=
  match childs d with
  | Some c => Returns c
  | None => Raises KeyError
  end.

(** [not node.childs]: the dictionary has no key. *)
Definition no_childs (childs : direction → option node) : bool :=
  forallb (λ d, match childs d with None => true | Some _ => false end)
    tree_explored_actions_char.

(** One round of [for direction in tree_explored_actions_char], given the
    groups of the subtree. *)
Definition concatenate (acc sub : groups) : groups :=
  let '(data, distance, agent_data) := acc in
  let '(sub_data, sub_distance, sub_agent_data) := sub in
  (data ++ sub_data, distance ++ sub_distance, agent_data ++ sub_agent_data).

Fixpoint _split_subtree_into_feature_groups (node : node)
    (current_tree_depth max_tree_depth : Z) : outcome groups :=
  match node with
  | MinusInf =>
      let remaining_depth := (max_tree_depth - current_tree_depth)%Z in
      let n := num_remaining_nodes remaining_depth in
      Returns (replicate (n * 6) NegInf, replicate n NegInf,
               replicate (n * 4) NegInf)
  | Node fields childs =>
      let acc := _split_node_into_feature_groups fields in
      if no_childs childs then Returns acc
      else
        foldl (λ acc direction,
                 acc ← acc;
                 sub ← match childs direction with
                       | Some c =>
                           _split_subtree_into_feature_groups c
                             (current_tree_depth + 1)%Z max_tree_depth
                       | None => Raises KeyError
                       end;
                 Returns (concatenate acc sub))
          (Returns acc) tree_explored_actions_char
  end.

(** The root is read as a node at once: a float has no such attribute. *)
Definition split_tree_into_feature_groups (tree : node) (max_tree_depth : Z)
    : outcome groups :=
  match tree with
  | MinusInf => Raises AttributeError
  | Node fields childs =>
      foldl (λ acc direction,
               acc ← acc;
               c ← child childs direction;
               sub ← _split_subtree_into_feature_groups c 1 max_tree_depth;
               Returns (concatenate acc sub))
        (Returns (_split_node_into_feature_groups fields))
        tree_explored_actions_char
  end.

Definition normalize_observation (observation : node) (tree_depth : Z)
    (observation_radius : R) : outcome (list scalar) :=
  '(data, distance, agent_data) ←
    split_tree_into_feature_groups observation tree_depth;
  let data := norm_obs_clip data 0 1 observation_radius false in
  let distance := norm_obs_clip distance 0 1 0 true in
  let agent_data := (λ x, Num (np_clip 0 1 x)) <$> agent_data in
  Returns ((data ++ distance) ++ agent_data).

(** [n_nodes] and [state_size] of [train_multiple_agents]. *)
Definition n_nodes (observation_tree_depth : Z) : Z :=
  foldr Z.add 0%Z
    ((λ i, 4 ^ Z.of_nat i)%Z <$> seq 0 (Z.to_nat (observation_tree_depth + 1))).

Definition state_size_of (n_features_per_node observation_tree_depth : Z)
    (custom_observations : bool) : Z :=
  (n_features_per_node * n_nodes observation_tree_depth
   + (if custom_observations then 1 else 0) * 6 + 1)%Z.

(** A tree as the observation builder returns it for a depth: below the
    root every branch is missing or explored, missing branches are
    [-np.inf], and only the nodes at the maximal depth have no children. *)
Inductive explored (max_tree_depth : Z) : Z → node → Prop :=
  | explored_missing depth :
      (depth ≤ max_tree_depth + 1)%Z →
      explored max_tree_depth depth MinusInf
  | explored_leaf fields childs :
      (∀ d, childs d = None) →
      explored max_tree_depth max_tree_depth (Node fields childs)
  | explored_branch depth fields childs :
      (depth < max_tree_depth)%Z →
      (∀ d, is_Some (childs d)) →
      (∀ d c, childs d = Some c → explored max_tree_depth (depth + 1) c) →
      explored max_tree_depth depth (Node fields childs).

Definition explored_root (max_tree_depth : Z) (tree : node) : Prop :=
  (0 ≤ max_tree_depth)%Z ∧
  ∃ fields childs,
    tree = Node fields childs ∧
    (∀ d, is_Some (childs d)) ∧
    (∀ d c, childs d = Some c → explored max_tree_depth 1 c).

(** The sizes of the three groups of [n] nodes. *)
Definition sized (n : nat) (g : groups) : Prop :=
  length g.1.1 = (6 * n)%nat ∧ length g.1.2 = n ∧ length g.2 = (4 * n)%nat.

(** A tree explored to depth one: the branch ahead ends in a leaf, the
    three others are missing. *)
Definition features_example : features :=
  {| dist_own_target_encountered := PosInf;
     dist_other_target_encountered := PosInf;
     dist_other_agent_encountered := Finite 3;
     dist_potential_conflict := PosInf;
     dist_unusable_switch := Finite 2;
     dist_to_next_branch := Finite 4;
     dist_min_to_target := Finite 7;
     num_agents_same_direction := Finite 0;
     num_agents_opposite_direction := Finite 1;
     num_agents_malfunctioning := Finite 0;
     speed_min_fractional := Finite 0.5 |}%R.

Definition tree_example : node :=
  Node features_example
    (λ d, match d with
          | dir_F => Some (Node features_example (λ _, None))
          | _ => Some MinusInf
          end).

(** ** Reward shaping: [check_invalid_transitions] and
    [check_stop_transition]

    [action_dict] maps agent handles to actions; a mask holds one [0] or
    [1] per action, here [false] or [true]. *)

(** [RailEnvActions.STOP_MOVING] *)
Definition STOP_MOVING : nat := 4.

(** [d[k]] on a dictionary. *)
Definition dict_getitem {A} (d : gmap nat A) (k : nat) : outcome A :=
  match d !! k with
  | Some v => Returns v
  | None => Raises KeyError
  end.

(** [{k: f(k, x) for k, x in items}]: the values are computed in the
    order of the items, and the first exception ends the comprehension. *)
Definition dict_comprehension {A B} (f : nat → A → outcome B)
    (items : list (nat * A)) : outcome (gmap nat B) :=
  foldl (λ acc item, d ← acc; v ← f item.1 item.2; Returns (<[item.1 := v]> d))
    (Returns ∅) items.

(** [enumerate(xs)] *)
Definition enumerate {A} (xs : list A) : list (nat * A) :=
  imap (λ i x, (i, x)) xs.

Definition check_invalid_transitions (action_dict : gmap nat nat)
    (action_mask : list (list bool)) (invalid_action_penalty : R)
    : outcome (gmap nat R) :=
  dict_comprehension
    (λ a (mask : list bool),
       match action_dict !! a with
       | Some action =>
           match (mask !! action : option bool) with
           | Some allowed =>
               Returns (if allowed then 0%R else invalid_action_penalty)
           | None => Raises (Builtin IndexError)
           end
       | None => Returns 0%R
       end)
    (enumerate action_mask).

Definition check_stop_transition (action_dict : gmap nat nat)
    (rewards : gmap nat R) (stop_penalty : R) : outcome (gmap nat R) :=
  dict_comprehension
    (λ a (_ : nat),
       action ← dict_getitem action_dict a;
       if decide (action = STOP_MOVING) then Returns stop_penalty
       else dict_getitem rewards a)
    ((λ a, (a, a)) <$> seq 0 (size action_dict)).

(** ** Deadlock detection: [check_deadlocks]

    What the function reads of the environment is one query, its first
    block: the agent [a2], if any, that stands on the cell that the last
    agent of the chain [a1] is about to enter ([None] when that agent has
    no position, when the cell is free, or when the move is not valid).
    The query is the parameter [blocker].  The two lists are changed in
    place and returned next to the result.  The recursion is counted by
    [fuel]; [check_deadlocks] starts it with one more than the number of
    entries of [deadlocks], which is never used up. *)

Fixpoint check_deadlocks_from (fuel : nat) (blocker : nat → option nat)
    (a1 : list nat) (deadlocks : list bool)
    : option (result (bool * list nat * list bool)) :=
  match fuel with
  | O => None
  | S fuel =>
      match getlast a1 with
      | Raise e => Some (Raise e)
      | Ok agent =>
          match blocker agent with
          | None => Some (Ok (false, a1, deadlocks))
          | Some a2 =>
              match getitem deadlocks a2 with
              | Raise e => Some (Raise e)
              | Ok deadlocked =>
                  if deadlocked || bool_decide (a2 ∈ a1)
                  then Some (Ok (true, a1, deadlocks))
                  else
                    match
                      check_deadlocks_from fuel blocker (a1 ++ [a2]) deadlocks
                    with
                    | None => None
                    | Some (Raise e) => Some (Raise e)
                    | Some (Ok (found, a1, deadlocks)) =>
                        let deadlocks := <[a2 := found]> deadlocks in
                        if found then Some (Ok (true, a1, deadlocks))
                        else Some (Ok (false, but_last a1, deadlocks))
                    end
              end
          end
      end
  end.

Definition check_deadlocks (blocker : nat → option nat) (a1 : list nat)
    (deadlocks : list bool) : option (result (bool * list nat * list bool)) :=
  check_deadlocks_from (S (length deadlocks)) blocker a1 deadlocks.

(** Each agent of [path] stands in the way of the one before it, the first
    in the way of [agent]. *)
Fixpoint follows (blocker : nat → option nat) (agent : nat) (path : list nat)
    : Prop :=
  match path with
  | [] => True
  | a2 :: path => blocker agent = Some a2 ∧ follows blocker a2 path
  end.

(** A way out for [agent]: a chain of distinct agents, none of them marked
    as deadlocked or in [a1], each in the way of the one before, up to one
    that has nobody in its way. *)
Definition way_out (blocker : nat → option nat) (a1 : list nat)
    (deadlocks : list bool) (agent : nat) (path : list nat) : Prop :=
  follows blocker agent path ∧
  blocker (List.last path agent) = None ∧
  NoDup path ∧
  ∀ a, a ∈ path → deadlocks !! a = Some false ∧ a ∉ a1.

(** ** Relations used by the further properties *)

(** Two trainers with the same hyperparameters. *)
Definition same_hyper `{Torch} (self self' : PsPPO.t) : Prop :=
  PsPPO.shared self' = PsPPO.shared self ∧
  PsPPO.learning_rate self' = PsPPO.learning_rate self ∧
  PsPPO.discount_factor self' = PsPPO.discount_factor self ∧
  PsPPO.epochs self' = PsPPO.epochs self ∧
  PsPPO.batch_size self' = PsPPO.batch_size self ∧
  PsPPO.eps_clip self' = PsPPO.eps_clip self ∧
  PsPPO.max_grad_norm self' = PsPPO.max_grad_norm self ∧
  PsPPO.lmbda self' = PsPPO.lmbda self ∧
  PsPPO.value_loss_coefficient self' = PsPPO.value_loss_coefficient self ∧
  PsPPO.entropy_coefficient self' = PsPPO.entropy_coefficient self ∧
  PsPPO.gae self' = PsPPO.gae self.

(** The memory [m'] is [m] with the last transition of agent [a] taken
    off each of the six lists [acts], ..., [dns] that [m] holds for it. *)
Definition popped (m m' : Memory.t) (a : nat)
    (acts : list nat) (sts : list (list R)) (lgs : list R)
    (mks : list (list bool)) (rws : list R) (dns : list bool) : Prop :=
  Memory.num_agents m' = Memory.num_agents m ∧
  Memory.actions m' = <[a := but_last acts]> (Memory.actions m) ∧
  Memory.states m' = <[a := but_last sts]> (Memory.states m) ∧
  Memory.logs_of_action_prob m'
  = <[a := but_last lgs]> (Memory.logs_of_action_prob m) ∧
  Memory.masks m' = <[a := but_last mks]> (Memory.masks m) ∧
  Memory.rewards m' = <[a := but_last rws]> (Memory.rewards m) ∧
  Memory.dones m' = <[a := but_last dns]> (Memory.dones m).

(** * Properties *)

(** ** Lists, slices and exceptions *)

Lemma last_slice_snoc {A} (ys : list A) (x : A) : last_slice (ys ++ [x]) = [x].
Proof.
  unfold last_slice. rewrite length_app. simpl.
  replace (length ys + 1 - 1) with (length ys) by lia.
  by rewrite drop_app_length.
Qed.

Lemma but_last_snoc {A} (ys : list A) (x : A) : but_last (ys ++ [x]) = ys.
Proof.
  unfold but_last. rewrite length_app. simpl.
  replace (length ys + 1 - 1) with (length ys) by lia.
  by rewrite take_app_length.
Qed.

Lemma length_but_last {A} (xs : list A) : length (but_last xs) = length xs - 1.
Proof. unfold but_last. rewrite length_take. lia. Qed.

Lemma nonempty_snoc {A} (xs : list A) :
  1 ≤ length xs → ∃ ys x, xs = ys ++ [x] ∧ last xs = Some x.
Proof.
  intros Hlen. destruct (last xs) as [x|] eqn:Hlast.
  - apply last_Some in Hlast as [ys ->]. by exists ys, x.
  - apply last_None in Hlast. subst. simpl in Hlen. lia.
Qed.

Lemma length_slice {A} (xs : list A) (i j : nat) :
  length (slice xs i j) = (j - i) `min` (length xs - i).
Proof. unfold slice. by rewrite length_take, length_drop. Qed.

Lemma getitem_Some {A} (xs : list A) (i : nat) (x : A) :
  xs !! i = Some x → getitem xs i = Ok x.
Proof. unfold getitem. by intros ->. Qed.

(** ** The experience buffer *)

Lemma keep_last_spec {A} (field : list (list A)) (agent : nat) (xs : list A) :
  field !! agent = Some xs → 1 ≤ length xs →
  ∃ x, last xs = Some x ∧
       Memory.keep_last field agent = Ok (<[agent := [x]]> field).
Proof.
  intros Hfield Hlen.
  destruct (nonempty_snoc xs Hlen) as (ys & x & -> & Hlast).
  exists x. split; [done|].
  unfold Memory.keep_last. rewrite (getitem_Some _ _ _ Hfield). simpl.
  by rewrite last_slice_snoc.
Qed.

Lemma lookup_insert_here {A} (field : list A) (i : nat) (old new : A) :
  field !! i = Some old → <[i := new]> field !! i = Some new.
Proof.
  intros Hi. apply list_lookup_insert_eq. by eapply lookup_lt_Some.
Qed.

(** C4: when the six sequences of an agent each hold at least one element,
    [clear_memory_except_last] returns a memory in which each of the six
    holds exactly one element, the last one it held before. *)
Theorem clear_memory_except_last_keeps_final
    (m : Memory.t) (agent : nat)
    (acts : list nat) (sts : list (list R)) (lgs : list R)
    (mks : list (list bool)) (rws : list R) (dns : list bool) :
  Memory.actions m !! agent = Some acts →
  Memory.states m !! agent = Some sts →
  Memory.logs_of_action_prob m !! agent = Some lgs →
  Memory.masks m !! agent = Some mks →
  Memory.rewards m !! agent = Some rws →
  Memory.dones m !! agent = Some dns →
  1 ≤ length acts → 1 ≤ length sts → 1 ≤ length lgs →
  1 ≤ length mks → 1 ≤ length rws → 1 ≤ length dns →
  ∃ m' act st lg mk rw dn,
    Memory.clear_memory_except_last m agent = Ok m' ∧
    last acts = Some act ∧ Memory.actions m' !! agent = Some [act] ∧
    last sts = Some st ∧ Memory.states m' !! agent = Some [st] ∧
    last lgs = Some lg ∧ Memory.logs_of_action_prob m' !! agent = Some [lg] ∧
    last mks = Some mk ∧ Memory.masks m' !! agent = Some [mk] ∧
    last rws = Some rw ∧ Memory.rewards m' !! agent = Some [rw] ∧
    last dns = Some dn ∧ Memory.dones m' !! agent = Some [dn].
Proof.
  intros Ha Hs Hl Hm Hr Hd La Ls Ll Lm Lr Ld.
  destruct (keep_last_spec _ _ _ Ha La) as (act & Hact & Ka).
  destruct (keep_last_spec _ _ _ Hs Ls) as (st & Hst & Ks).
  destruct (keep_last_spec _ _ _ Hl Ll) as (lg & Hlg & Kl).
  destruct (keep_last_spec _ _ _ Hm Lm) as (mk & Hmk & Km).
  destruct (keep_last_spec _ _ _ Hr Lr) as (rw & Hrw & Kr).
  destruct (keep_last_spec _ _ _ Hd Ld) as (dn & Hdn & Kd).
  eexists _, act, st, lg, mk, rw, dn.
  unfold Memory.clear_memory_except_last.
  rewrite Ka, Ks, Kl, Km, Kr, Kd. simpl.
  split; [reflexivity|].
  repeat split; try done; by eapply lookup_insert_here.
Qed.

Lemma clear_memory_except_last_keeps_final_witness :
  ∃ m' act st lg mk rw dn,
    Memory.clear_memory_except_last memory_two_agents 0 = Ok m' ∧
    last [0; 1; 1] = Some act ∧ Memory.actions m' !! 0 = Some [act] ∧
    last [[0.5; 0]; [0.25; 0]; [1; 0]]%R = Some st ∧
    Memory.states m' !! 0 = Some [st] ∧
    last [-1; -2; -3]%R = Some lg ∧
    Memory.logs_of_action_prob m' !! 0 = Some [lg] ∧
    last [[true; true]; [true; false]; [false; true]] = Some mk ∧
    Memory.masks m' !! 0 = Some [mk] ∧
    last [1; 0; -1]%R = Some rw ∧ Memory.rewards m' !! 0 = Some [rw] ∧
    last [false; false; true] = Some dn ∧ Memory.dones m' !! 0 = Some [dn].
Proof.
  apply (clear_memory_except_last_keeps_final memory_two_agents 0);
    first [reflexivity | simpl; lia].
Defined.

(** ** The advantage estimator *)

Section advantage.
Local Open Scope R_scope.
Context `{Torch}.

Lemma getitem_nth (xs : list R) (i : nat) :
  (i < length xs)%nat → getitem xs i = Ok (nth i xs 0).
Proof.
  intros Hi. apply getitem_Some. rewrite nth_lookup.
  destruct (lookup_lt_is_Some_2 xs i Hi) as [x ->]. done.
Qed.

Lemma nth_insert_eq (xs : list R) (i : nat) (x : R) :
  (i < length xs)%nat → nth i (<[i := x]> xs) 0 = x.
Proof. intros Hi. by rewrite nth_lookup, list_lookup_insert_eq. Qed.

Lemma nth_insert_ne (xs : list R) (i j : nat) (x : R) :
  i ≠ j → nth j (<[i := x]> xs) 0 = nth j xs 0.
Proof. intros Hij. by rewrite !nth_lookup, list_lookup_insert_ne. Qed.

Lemma nth_not_done (dones : list bool) (t : nat) :
  (t < length dones)%nat →
  nth t (PsPPO.not_done <$> dones) 0 = PsPPO.not_done (nth t dones false).
Proof.
  intros Ht. rewrite !nth_lookup, list_lookup_fmap.
  destruct (lookup_lt_is_Some_2 dones t Ht) as [d ->]. done.
Qed.

Lemma gae_loop_spec (gamma lam : R) (rewards not_dones values : list R)
    (T : nat) :
  length rewards = T → length not_dones = T → length values = S T →
  ∀ (k : nat) (gaes : list R) (future_gae : R),
    (k ≤ T)%nat → length gaes = T →
    future_gae = nth k (gaes ++ [0]) 0 →
    (∀ t, (k ≤ t < T)%nat →
          gae_recursion_at gamma lam rewards not_dones values gaes t) →
    ∃ adv,
      PsPPO.gae_loop gamma lam rewards not_dones values k gaes future_gae
      = Ok adv ∧
      length adv = T ∧
      ∀ t, (t < T)%nat →
           gae_recursion_at gamma lam rewards not_dones values adv t.
Proof.
  intros Hr Hn Hv. induction k as [|t IH]; intros gaes fut Hk Hg Hfut Hrec.
  - exists gaes. simpl. split_and!; [done|done|].
    intros t Ht. apply Hrec. lia.
  - simpl.
    rewrite (getitem_nth rewards t), (getitem_nth values (S t)),
      (getitem_nth not_dones t), (getitem_nth values t) by lia.
    simpl. apply IH.
    + lia.
    + by rewrite length_insert.
    + rewrite app_nth1 by (rewrite length_insert; lia).
      rewrite nth_insert_eq by lia. done.
    + intros t' Ht'. unfold gae_recursion_at.
      assert (Hnext : nth (S t') (<[t := (nth t rewards 0
                 + gamma * nth (S t) values 0 * nth t not_dones 0
                 - nth t values 0
                 + gamma * lam * nth t not_dones 0 * fut)]> gaes ++ [0]) 0
               = nth (S t') (gaes ++ [0]) 0).
      { rewrite <- insert_app_l by lia. apply nth_insert_ne. lia. }
      rewrite Hnext.
      destruct (decide (t' = t)) as [->|Hne].
      * rewrite nth_insert_eq by lia. rewrite Hfut. done.
      * rewrite nth_insert_ne by done. apply Hrec. lia.
Qed.

(** The GAE branch on [T] rewards, [T] done-flags and [T + 1] values of
    either shape: a sequence of length [T] that satisfies the recursion. *)
Lemma gae_advantages (self : PsPPO.t) (T : nat)
    (rewards : list R) (dones : list bool) (col : bool) (vs : list R) :
  PsPPO.gae self = true →
  length rewards = T → length dones = T → length vs = S T →
  ∃ adv,
    PsPPO._get_advs self rewards dones (Values col vs) = Ok (Vec adv) ∧
    length adv = T ∧
    ∀ t, (t < T)%nat →
      gae_recursion_at (PsPPO.discount_factor self) (PsPPO.lmbda self)
        rewards (PsPPO.not_done <$> dones) vs adv t.
Proof.
  intros Hgae Hr Hd Hv.
  destruct (gae_loop_spec (PsPPO.discount_factor self) (PsPPO.lmbda self)
              rewards (PsPPO.not_done <$> dones) vs T Hr
              ltac:(by rewrite length_fmap) Hv
              T (replicate T 0) 0) as (adv & Hloop & Hlen & Hrec).
  { done. }
  { by rewrite length_replicate. }
  { rewrite app_nth2 by (rewrite length_replicate; lia).
    rewrite length_replicate, Nat.sub_diag. done. }
  { intros t Ht. lia. }
  exists adv. split_and!; [|done|done].
  unfold PsPPO._get_advs. rewrite Hgae. simpl.
  rewrite decide_True by lia. rewrite Hr, Hloop. done.
Qed.

(** C1: in GAE mode, on [T >= 1] rewards, [T] done-flags and [T + 1] value
    estimates (of either shape), [_get_advs] returns a sequence of length
    [T] whose entries satisfy
    [A_t = delta_t + gamma * lambda * (1 - done_t) * A_{t+1}] with
    [delta_t = r_t + gamma * V_{t+1} * (1 - done_t) - V_t] and [A_T = 0];
    for [T = 1] and [done_0 = 0] the one entry is [r + gamma * V_1 - V_0]. *)
Theorem gae_backward_recursion (self : PsPPO.t) (T : nat)
    (rewards : list R) (dones : list bool) (col : bool) (vs : list R) :
  PsPPO.gae self = true →
  (1 ≤ T)%nat →
  length rewards = T → length dones = T → length vs = S T →
  (∃ adv,
     PsPPO._get_advs self rewards dones (Values col vs) = Ok (Vec adv) ∧
     length adv = T ∧
     ∀ t, (t < T)%nat →
       let not_done_t := 1 - (if nth t dones false then 1 else 0) in
       let delta_t :=
         nth t rewards 0
         + PsPPO.discount_factor self * nth (S t) vs 0 * not_done_t
         - nth t vs 0 in
       nth t adv 0
       = delta_t
         + PsPPO.discount_factor self * PsPPO.lmbda self * not_done_t
           * nth (S t) (adv ++ [0]) 0) ∧
  (T = 1%nat → nth 0 dones false = false →
   PsPPO._get_advs self rewards dones (Values col vs)
   = Ok (Vec [nth 0 rewards 0
              + PsPPO.discount_factor self * nth 1 vs 0 - nth 0 vs 0])).
Proof.
  intros Hgae HT Hr Hd Hv.
  destruct (gae_advantages self T rewards dones col vs Hgae Hr Hd Hv)
    as (adv & Hrun & Hlen & Hrec).
  split.
  - exists adv. split_and!; [done|done|].
    intros t Ht. specialize (Hrec t Ht). unfold gae_recursion_at in Hrec.
    rewrite nth_not_done in Hrec by lia. exact Hrec.
  - intros -> Hd0. rewrite Hrun. do 2 f_equal.
    destruct adv as [|a [|? ?]]; simpl in Hlen; try lia.
    specialize (Hrec 0%nat ltac:(lia)). unfold gae_recursion_at in Hrec.
    rewrite nth_not_done in Hrec by lia. rewrite Hd0 in Hrec.
    simpl in Hrec. unfold PsPPO.not_done in Hrec. f_equal. simpl. lra.
Qed.

Lemma nstep_loop_spec (gamma : R) (rewards not_dones : list R) (seed : R)
    (T : nat) :
  length rewards = T → length not_dones = T →
  ∀ (k : nat) (returns : list R) (future_ret : R),
    (k ≤ T)%nat → length returns = T →
    future_ret = nth k (returns ++ [seed]) 0 →
    (∀ t, (k ≤ t < T)%nat →
          nstep_recursion_at gamma rewards not_dones returns seed t) →
    ∃ G,
      PsPPO.nstep_loop gamma rewards not_dones k returns future_ret = Ok G ∧
      length G = T ∧
      ∀ t, (t < T)%nat → nstep_recursion_at gamma rewards not_dones G seed t.
Proof.
  intros Hr Hn. induction k as [|t IH]; intros returns fut Hk Hg Hfut Hrec.
  - exists returns. simpl. split_and!; [done|done|].
    intros t Ht. apply Hrec. lia.
  - simpl.
    rewrite (getitem_nth rewards t), (getitem_nth not_dones t) by lia.
    simpl. apply IH.
    + lia.
    + by rewrite length_insert.
    + rewrite app_nth1 by (rewrite length_insert; lia).
      rewrite nth_insert_eq by lia. done.
    + intros t' Ht'. unfold nstep_recursion_at.
      assert (Hnext : nth (S t') (<[t := (nth t rewards 0
                 + gamma * fut * nth t not_dones 0)]> returns ++ [seed]) 0
               = nth (S t') (returns ++ [seed]) 0).
      { rewrite <- insert_app_l by lia. apply nth_insert_ne. lia. }
      rewrite Hnext.
      destruct (decide (t' = t)) as [->|Hne].
      * rewrite nth_insert_eq by lia. rewrite Hfut. done.
      * rewrite nth_insert_ne by done. apply Hrec. lia.
Qed.

Lemma getlast_nth (vs : list R) (T : nat) :
  length vs = S T → getlast vs = Ok (nth T vs 0).
Proof.
  intros Hv. unfold getlast. rewrite last_lookup, Hv. simpl.
  rewrite nth_lookup.
  destruct (lookup_lt_is_Some_2 vs T ltac:(lia)) as [x ->]. done.
Qed.

Lemma nth_but_last (vs : list R) (t : nat) :
  (t < length vs - 1)%nat → nth t (but_last vs) 0 = nth t vs 0.
Proof.
  intros Ht. unfold but_last. rewrite !nth_lookup.
  by rewrite lookup_take_lt.
Qed.

(** The n-step loop on its own: the returns it accumulates satisfy
    [G_t = r_t + gamma * (1 - done_t) * G_{t+1}] with [G_T = V_T]. *)
Lemma nstep_returns (self : PsPPO.t) (T : nat)
    (rewards : list R) (dones : list bool) (vs : list R) :
  length rewards = T → length dones = T → length vs = S T →
  ∃ G,
    PsPPO.nstep_loop (PsPPO.discount_factor self) rewards
      (PsPPO.not_done <$> dones) T (replicate T 0) (nth T vs 0) = Ok G ∧
    length G = T ∧
    ∀ t, (t < T)%nat →
      nth t G 0
      = nth t rewards 0
        + PsPPO.discount_factor self
          * (1 - (if nth t dones false then 1 else 0))
          * nth (S t) (G ++ [nth T vs 0]) 0.
Proof.
  intros Hr Hd Hv.
  destruct (nstep_loop_spec (PsPPO.discount_factor self) rewards
              (PsPPO.not_done <$> dones) (nth T vs 0) T Hr
              ltac:(by rewrite length_fmap)
              T (replicate T 0) (nth T vs 0)) as (G & Hloop & Hlen & Hrec).
  { done. }
  { by rewrite length_replicate. }
  { rewrite app_nth2 by (rewrite length_replicate; lia).
    rewrite length_replicate, Nat.sub_diag. done. }
  { intros t Ht. lia. }
  exists G. split_and!; [done|done|].
  intros t Ht. specialize (Hrec t Ht). unfold nstep_recursion_at in Hrec.
  rewrite nth_not_done in Hrec by lia. unfold PsPPO.not_done in Hrec.
  rewrite Hrec. ring.
Qed.

(** On a one-dimensional value tensor the n-step branch returns the
    sequence [G_t - V_t]. *)
Lemma nstep_flat_values (self : PsPPO.t) (T : nat)
    (rewards : list R) (dones : list bool) (vs : list R) :
  PsPPO.gae self = false →
  length rewards = T → length dones = T → length vs = S T →
  ∃ G adv,
    PsPPO._get_advs self rewards dones (Values false vs) = Ok (Vec adv) ∧
    length G = T ∧ length adv = T ∧
    (∀ t, (t < T)%nat →
       nth t G 0
       = nth t rewards 0
         + PsPPO.discount_factor self
           * (1 - (if nth t dones false then 1 else 0))
           * nth (S t) (G ++ [nth T vs 0]) 0) ∧
    (∀ t, (t < T)%nat → nth t adv 0 = nth t G 0 - nth t vs 0).
Proof.
  intros Hgae Hr Hd Hv.
  destruct (nstep_returns self T rewards dones vs Hr Hd Hv)
    as (G & Hloop & Hlen & Hrec).
  exists G, (zip_with Rminus G (but_last vs)).
  assert (Hbl : length (but_last vs) = T) by (rewrite length_but_last; lia).
  split_and!; try done.
  - unfold PsPPO._get_advs. rewrite Hgae. simpl.
    rewrite (getlast_nth vs T Hv). simpl. rewrite Hr, Hloop. simpl.
    unfold PsPPO.sub_values, broadcast. simpl.
    rewrite decide_True by lia. done.
  - rewrite length_zip_with. lia.
  - intros t Ht. rewrite (nth_lookup (zip_with _ _ _)), lookup_zip_with.
    destruct (lookup_lt_is_Some_2 G t ltac:(lia)) as [g Hg].
    destruct (lookup_lt_is_Some_2 (but_last vs) t ltac:(lia)) as [v Hbv].
    rewrite Hg, Hbv. simpl.
    rewrite <- (nth_but_last vs t) by lia.
    rewrite !nth_lookup, Hg, Hbv. done.
Qed.

(** On the critic's column of shape [(T + 1, 1)] the n-step branch
    returns a matrix of shape [(T, T)]: row [i] holds [G_j - V_i] for every
    [j]. *)
Lemma nstep_column_values (self : PsPPO.t) (T : nat)
    (rewards : list R) (dones : list bool) (vs : list R) :
  PsPPO.gae self = false →
  length rewards = T → length dones = T → length vs = S T →
  ∃ G,
    length G = T ∧
    PsPPO._get_advs self rewards dones (Values true vs)
    = Ok (Mat ((λ vi, (λ g, g - vi) <$> G) <$> but_last vs)).
Proof.
  intros Hgae Hr Hd Hv.
  destruct (nstep_returns self T rewards dones vs Hr Hd Hv)
    as (G & Hloop & Hlen & Hrec).
  exists G. split; [done|].
  unfold PsPPO._get_advs. rewrite Hgae. simpl.
  rewrite (getlast_nth vs T Hv). simpl. rewrite Hr, Hloop. done.
Qed.

(** With [lambda = 1] the two branches agree on one-dimensional value
    tensors: the GAE recursion telescopes into [G_t - V_t]. *)
Lemma gae_lambda_one_flat_values (self_gae self_nstep : PsPPO.t) (T : nat)
    (rewards : list R) (dones : list bool) (vs : list R) :
  PsPPO.gae self_gae = true → PsPPO.gae self_nstep = false →
  PsPPO.lmbda self_gae = 1 →
  PsPPO.discount_factor self_gae = PsPPO.discount_factor self_nstep →
  (1 ≤ T)%nat →
  length rewards = T → length dones = T → length vs = S T →
  PsPPO._get_advs self_gae rewards dones (Values false vs)
  = PsPPO._get_advs self_nstep rewards dones (Values false vs).
Proof.
  intros Hg Hn Hlam Hgam HT Hr Hd Hv.
  destruct (gae_advantages self_gae T rewards dones false vs Hg Hr Hd Hv)
    as (adv & Hadv & Hlen & Hrec).
  destruct (nstep_flat_values self_nstep T rewards dones vs Hn Hr Hd Hv)
    as (G & adv' & Hadv' & HlenG & Hlen' & HrecG & Hdiff).
  rewrite Hadv, Hadv'. do 2 f_equal.
  assert (Htel : ∀ d, (d ≤ T)%nat →
            nth (T - d) (adv ++ [0]) 0
            = nth (T - d) (G ++ [nth T vs 0]) 0 - nth (T - d) vs 0).
  { induction d as [|d IH]; intros Hd'.
    - rewrite Nat.sub_0_r.
      rewrite !app_nth2 by lia. rewrite Hlen, HlenG, Nat.sub_diag. simpl.
      ring.
    - specialize (IH ltac:(lia)).
      replace (T - d)%nat with (S (T - S d)) in IH by lia.
      specialize (Hrec (T - S d)%nat ltac:(lia)).
      specialize (HrecG (T - S d)%nat ltac:(lia)).
      unfold gae_recursion_at in Hrec.
      rewrite nth_not_done in Hrec by lia. unfold PsPPO.not_done in Hrec.
      rewrite !app_nth1 by lia.
      rewrite Hrec, HrecG, IH, Hlam, Hgam. ring. }
  apply (nth_ext _ _ 0 0); [lia|].
  intros t Ht. rewrite Hdiff by lia.
  specialize (Htel (T - t)%nat ltac:(lia)).
  replace (T - (T - t))%nat with t in Htel by lia.
  rewrite !app_nth1 in Htel by lia. done.
Qed.

End advantage.

Ltac entries_by_lra := repeat (first [reflexivity | lra | f_equal]).

Ltac run_get_advs :=
  unfold PsPPO._get_advs; simpl; unfold PsPPO.not_done; simpl.

Section advantage_examples.
Local Open Scope R_scope.

Lemma gae_backward_recursion_witness :
  (∃ adv,
     PsPPO._get_advs (toy_trainer true 0.95 1 1) [1; 0] [false; true]
       (Values true [0.5; 0.4; 0]) = Ok (Vec adv) ∧
     length adv = 2%nat ∧
     ∀ t, (t < 2)%nat →
       let not_done_t := 1 - (if nth t [false; true] false then 1 else 0) in
       let delta_t :=
         nth t [1; 0] 0 + 0.99 * nth (S t) [0.5; 0.4; 0] 0 * not_done_t
         - nth t [0.5; 0.4; 0] 0 in
       nth t adv 0
       = delta_t + 0.99 * 0.95 * not_done_t * nth (S t) (adv ++ [0]) 0) ∧
  (2%nat = 1%nat → nth 0 [false; true] false = false →
   PsPPO._get_advs (toy_trainer true 0.95 1 1) [1; 0] [false; true]
     (Values true [0.5; 0.4; 0])
   = Ok (Vec [nth 0 [1; 0] 0 + 0.99 * nth 1 [0.5; 0.4; 0] 0
              - nth 0 [0.5; 0.4; 0] 0])).
Proof.
  apply (gae_backward_recursion (toy_trainer true 0.95 1 1) 2
           [1; 0] [false; true] true [0.5; 0.4; 0]);
    first [reflexivity | lia].
Defined.

(** The two-step scenario: rewards [1, 0], dones [0, 1], values
    [0.5, 0.4, 0], discount 0.99, trace decay 0.95. *)
Example gae_two_steps (col : bool) :
  PsPPO._get_advs (toy_trainer true 0.95 1 1) [1; 0] [false; true]
    (Values col [0.5; 0.4; 0]) = Ok (Vec [0.5198; -0.4]).
Proof. run_get_advs. entries_by_lra. Qed.

Example gae_single_step (r V0 V1 : R) (col : bool) :
  PsPPO._get_advs (toy_trainer true 0.95 1 1) [r] [false]
    (Values col [V0; V1]) = Ok (Vec [r + 0.99 * V1 - V0]).
Proof. run_get_advs. entries_by_lra. Qed.

Example nstep_two_steps_flat :
  PsPPO._get_advs (toy_trainer false 0.95 1 1) [1; 0] [false; true]
    (Values false [0.5; 0.4; 0]) = Ok (Vec [0.5; -0.4]).
Proof. run_get_advs. unfold PsPPO.sub_values, broadcast. simpl.
  entries_by_lra. Qed.

(** C2: on the value tensor that [update] passes, the critic's output of
    shape [(3, 1)], the n-step branch returns a [2 x 2] matrix: the row of
    returns [G = (1, 0)] is broadcast against the column [(V_0, V_1)], so
    entry [(i, j)] is [G_j - V_i].  The sequence [G_t - V_t = (0.5, -0.4)]
    is only its diagonal. *)
Theorem nstep_on_critic_column_is_matrix :
  PsPPO._get_advs (toy_trainer false 0.95 1 1) [1; 0] [false; true]
    (Values true [0.5; 0.4; 0])
  = Ok (Mat [[0.5; -0.5]; [0.6; -0.4]]).
Proof. run_get_advs. unfold PsPPO.sub_values. simpl. entries_by_lra. Qed.

(** C10: with [lambda = 1], on the critic's output of shape [(3, 1)], the
    GAE branch returns the sequence [(0.5, -0.4)] and the n-step branch a
    [2 x 2] matrix; the two outputs differ. *)
Theorem gae_lambda_one_differs_on_critic_column :
  PsPPO._get_advs (toy_trainer true 1 1 1) [1; 0] [false; true]
    (Values true [0.5; 0.4; 0]) = Ok (Vec [0.5; -0.4]) ∧
  PsPPO._get_advs (toy_trainer false 1 1 1) [1; 0] [false; true]
    (Values true [0.5; 0.4; 0]) = Ok (Mat [[0.5; -0.5]; [0.6; -0.4]]) ∧
  PsPPO._get_advs (toy_trainer true 1 1 1) [1; 0] [false; true]
    (Values true [0.5; 0.4; 0])
  ≠ PsPPO._get_advs (toy_trainer false 1 1 1) [1; 0] [false; true]
      (Values true [0.5; 0.4; 0]).
Proof.
  assert (Hg : PsPPO._get_advs (toy_trainer true 1 1 1) [1; 0] [false; true]
                 (Values true [0.5; 0.4; 0]) = Ok (Vec [0.5; -0.4])).
  { run_get_advs. entries_by_lra. }
  assert (Hn : PsPPO._get_advs (toy_trainer false 1 1 1) [1; 0] [false; true]
                 (Values true [0.5; 0.4; 0])
               = Ok (Mat [[0.5; -0.5]; [0.6; -0.4]])).
  { run_get_advs. unfold PsPPO.sub_values. simpl. entries_by_lra. }
  split_and!; [done|done|]. rewrite Hg, Hn. discriminate.
Qed.

End advantage_examples.

(** ** Advantage standardization *)

Section standardization.
Local Open Scope R_scope.

Lemma sum_list_replicate (n : nat) (c : R) :
  sum_list (replicate n c) = INR n * c.
Proof.
  induction n as [|n IH].
  - simpl. ring.
  - rewrite S_INR. change (sum_list (replicate (S n) c))
      with (c + sum_list (replicate n c)). rewrite IH. ring.
Qed.

Lemma mean_replicate (n : nat) (c : R) :
  (1 ≤ n)%nat → sum_list (replicate n c) / INR n = c.
Proof.
  intros Hn. rewrite sum_list_replicate. field.
  apply not_0_INR. lia.
Qed.

Lemma sum_list_zero_deviations (n : nat) (c m : R) :
  c = m → sum_list ((λ x, (x - m) * (x - m)) <$> replicate n c) = 0.
Proof.
  intros ->. rewrite fmap_replicate, sum_list_replicate. ring.
Qed.

Lemma torch_std_replicate (n : nat) (c : R) :
  (2 ≤ n)%nat → PsPPO.torch_std (replicate n c) = Num 0.
Proof.
  intros Hn. unfold PsPPO.torch_std. rewrite length_replicate.
  rewrite decide_False by lia. f_equal.
  rewrite sum_list_zero_deviations by (by rewrite mean_replicate by lia).
  unfold Rdiv. rewrite Rmult_0_l. apply sqrt_0.
Qed.

Lemma torch_mean_replicate (n : nat) (c : R) :
  (1 ≤ n)%nat → PsPPO.torch_mean (replicate n c) = Num c.
Proof.
  intros Hn. unfold PsPPO.torch_mean.
  destruct n as [|n]; [lia|].
  change (replicate (S n) c) with (c :: replicate n c). cbv beta iota.
  change (c :: replicate n c) with (replicate (S n) c).
  rewrite length_replicate. f_equal. by apply mean_replicate.
Qed.

(** An advantage sequence of at least two entries, all equal: the
    standard deviation is zero, the denominator [std + 1e-10] is not zero,
    and [(A - mean(A)) / (std(A) + 1e-10)] is the all-zero sequence. *)
Lemma standardize_constant_sequence (n : nat) (c : R) :
  (2 ≤ n)%nat →
  PsPPO.torch_std (replicate n c) = Num 0 ∧
  0 + 1e-10 ≠ 0 ∧
  PsPPO.standardize (Vec (replicate n c)) = Vec (replicate n (Num 0)).
Proof.
  intros Hn. split_and!.
  - by apply torch_std_replicate.
  - lra.
  - unfold PsPPO.standardize. simpl.
    rewrite torch_std_replicate, torch_mean_replicate by lia.
    rewrite fmap_replicate. simpl. do 3 f_equal.
    unfold Rminus, Rdiv. rewrite Rplus_opp_r. apply Rmult_0_l.
Qed.

Lemma standardize_constant_sequence_witness :
  PsPPO.torch_std (replicate 3 0.25) = Num 0 ∧
  0 + 1e-10 ≠ 0 ∧
  PsPPO.standardize (Vec (replicate 3 0.25)) = Vec (replicate 3 (Num 0)).
Proof. apply (standardize_constant_sequence 3 0.25). lia. Defined.

(** C9: on the non-empty, all-equal advantage sequence that a mini-batch
    of one transition gives, [torch.std] divides by [N - 1 = 0] and is
    not-a-number, and so is the standardized entry: the epsilon in
    [std + 1e-10] comes too late to make it zero. *)
Theorem standardize_single_entry_is_nan :
  (1 ≤ length [5])%nat ∧
  (∀ a, a ∈ [5] → a = 5) ∧
  PsPPO.torch_std [5] = NaN ∧
  PsPPO.standardize (Vec [5]) = Vec [NaN] ∧
  PsPPO.standardize (Vec [5]) ≠ Vec [Num 0].
Proof.
  split_and!.
  - simpl. lia.
  - intros a Ha. by apply list_elem_of_singleton in Ha.
  - reflexivity.
  - reflexivity.
  - discriminate.
Qed.

End standardization.

(** ** Construction of the policy and checkpoint loading *)

Section construction.
Local Open Scope Z_scope.
Context `{Torch}.









(** C8: for a path under which the file system holds nothing, [load]
    returns normally, the policy (its parameters included) is the one it
    was called on, and the only effect is the failure message printed. *)
Theorem load_missing_path (fs : PsPPOPolicy.filesystem)
    (self : PsPPOPolicy.t) (path : string) (stdout : list string) :
  fs !! path = None →
  ∃ self',
    PsPPOPolicy.load fs self path stdout
    = Ok (self', (stdout ++ ["Loading file failed. File not found."%string])%list)
    ∧ self' = self
    ∧ PsPPOPolicy.parameters self' = PsPPOPolicy.parameters self.
Proof.
  intros Hmissing. exists self. unfold PsPPOPolicy.load.
  rewrite Hmissing. done.
Qed.

(** Over the reals every entry of a softmax is strictly positive: a logit
    replaced by [-1e8] lowers the probability of its action without ever
    making it zero. *)
Lemma sum_list_exp_positive (logits : list R) :
  logits ≠ [] → (0 < sum_list (exp <$> logits))%R.
Proof.
  destruct logits as [|l rest]; [done|]. intros _. unfold sum_list.
  assert (Hrest : (0 <= foldr Rplus 0 (exp <$> rest))%R).
  { induction rest as [|x rest IH]; [simpl; lra|].
    rewrite fmap_cons. simpl. pose proof (exp_pos x). lra. }
  rewrite fmap_cons. simpl. pose proof (exp_pos l). lra.
Qed.

Lemma softmax_positive (logits : list R) (p : R) :
  p ∈ PsPPOPolicy.softmax logits → (0 < p)%R.
Proof.
  unfold PsPPOPolicy.softmax. intros Hp.
  apply list_elem_of_fmap in Hp as (l & -> & Hl).
  apply Rdiv_lt_0_compat; [apply exp_pos|].
  apply sum_list_exp_positive. intros ->. by apply elem_of_nil in Hl.
Qed.

End construction.

(** ** The update loop *)

Section update_loop.
Context `{Torch}.

Lemma pop_spec {A} (field : list (list A)) (a : nat) (xs : list A) :
  field !! a = Some xs → 1 ≤ length xs →
  ∃ x, last xs = Some x ∧
       Memory.pop field a = Ok (x, <[a := but_last xs]> field).
Proof.
  intros Hfield Hlen.
  destruct (nonempty_snoc xs Hlen) as (ys & x & Hxs & Hlast).
  exists x. split; [done|].
  unfold Memory.pop, getlast. rewrite (getitem_Some _ _ _ Hfield). simpl.
  rewrite Hlast. done.
Qed.

Lemma stack_nonempty {A} (xs : list A) :
  1 ≤ length xs → PsPPO.stack xs = Ok xs.
Proof. destruct xs; simpl; [lia|done]. Qed.

Lemma getitem_popped {A} (field : list (list A)) (a : nat) (xs ys : list A) :
  field !! a = Some xs → getitem (<[a := ys]> field) a = Ok ys.
Proof. intros Hf. apply getitem_Some. by eapply lookup_insert_here. Qed.

(** On six buffers of length [horizon + 1] the statements before the loop
    succeed, and every frozen reference has length [horizon]. *)
Lemma detach_spec (memory : Memory.t) (a horizon : nat)
    (acts : list nat) (sts : list (list R)) (lgs : list R)
    (mks : list (list bool)) (rws : list R) (dns : list bool) :
  Memory.actions memory !! a = Some acts →
  Memory.states memory !! a = Some sts →
  Memory.logs_of_action_prob memory !! a = Some lgs →
  Memory.masks memory !! a = Some mks →
  Memory.rewards memory !! a = Some rws →
  Memory.dones memory !! a = Some dns →
  length acts = S horizon → length sts = S horizon →
  length lgs = S horizon → length mks = S horizon →
  length rws = S horizon → length dns = S horizon →
  1 ≤ horizon →
  ∃ memory' w,
    PsPPO.detach memory a = Ok (memory', w) ∧
    PsPPO.old_states w = but_last sts ∧
    PsPPO.old_actions w = but_last acts ∧
    PsPPO.old_masks w = but_last mks ∧
    PsPPO.old_logs_of_action_prob w = but_last lgs ∧
    PsPPO.window_rewards w = but_last rws ∧
    PsPPO.window_dones w = but_last dns ∧
    last sts = Some (PsPPO.last_state w) ∧
    last acts = Some (PsPPO.last_action w) ∧
    last mks = Some (PsPPO.last_mask w).
Proof.
  intros Ha Hs Hl Hm Hr Hd La Ls Ll Lm Lr Ld Hh.
  destruct (pop_spec _ _ _ Hr ltac:(lia)) as (r & _ & Pr).
  destruct (pop_spec _ _ _ Hd ltac:(lia)) as (d & _ & Pd).
  destruct (pop_spec _ _ _ Hs ltac:(lia)) as (st & Hst & Ps).
  destruct (pop_spec _ _ _ Ha ltac:(lia)) as (act & Hact & Pa).
  destruct (pop_spec _ _ _ Hm ltac:(lia)) as (mk & Hmk & Pm).
  destruct (pop_spec _ _ _ Hl ltac:(lia)) as (lg & _ & Pl).
  unfold PsPPO.detach. rewrite Pr, Pd, Ps, Pa, Pm, Pl. simpl.
  rewrite (getitem_popped _ _ _ _ Hs), (getitem_popped _ _ _ _ Ha),
    (getitem_popped _ _ _ _ Hm), (getitem_popped _ _ _ _ Hl),
    (getitem_popped _ _ _ _ Hr), (getitem_popped _ _ _ _ Hd).
  simpl.
  rewrite !stack_nonempty by (rewrite length_but_last; lia). simpl.
  eexists _, _. split; [reflexivity|]. simpl. done.
Qed.

Lemma range_step_bound (n : nat) (step : Z) (starts : list nat) (b : nat) :
  range_step n step = Ok starts → b ∈ starts → b < n ∧ (0 < step)%Z.
Proof.
  unfold range_step. intros Hrange Hb.
  destruct (decide (step = 0)%Z); [done|].
  destruct (decide (step < 0)%Z).
  { injection Hrange as <-. by apply elem_of_nil in Hb. }
  injection Hrange as <-.
  apply list_elem_of_fmap in Hb as (i & -> & Hi).
  apply elem_of_seq in Hi. split; [|lia].
  pose proof (Nat.Div0.mul_div_le (n + Z.to_nat step - 1) (Z.to_nat step)).
  nia.
Qed.

Lemma evaluate_values_length (self : PsPPOPolicy.t) (states : list (list R))
    (actions : list nat) (masks : list (list bool))
    (logs : list R) (v : values) (ent : list R) :
  PsPPOPolicy.evaluate self states actions masks = Ok (logs, v, ent) →
  length (entries v) = length states.
Proof.
  unfold PsPPOPolicy.evaluate. intros Hev.
  destruct (broadcast PsPPOPolicy.mask_logits _ _) as [rows|]; [|done].
  simpl in Hev. destruct (collect rows) as [ls|]; [|done]. simpl in Hev.
  destruct (broadcast PsPPOPolicy.log_prob _ _) as [lp|]; [|done].
  simpl in Hev. destruct (collect lp) as [lp'|]; [|done]. simpl in Hev.
  injection Hev as _ <- _. simpl. by rewrite length_fmap.
Qed.

(** The shapes of one mini-batch: the tensors handed to [evaluate] are one
    row longer than the reward and done slices, which are not empty. *)
Lemma minibatch_shapes (w : PsPPO.window) (n size b : nat) :
  length (PsPPO.old_states w) = n →
  length (PsPPO.window_rewards w) = n →
  length (PsPPO.window_dones w) = n →
  1 ≤ size → b < n →
  length (PsPPO.eval_inputs w size b).1.1
  = length (PsPPO.estimator_inputs w size b).1 + 1 ∧
  length (PsPPO.estimator_inputs w size b).2
  = length (PsPPO.estimator_inputs w size b).1 ∧
  1 ≤ length (PsPPO.estimator_inputs w size b).1.
Proof.
  intros Hs Hr Hd Hsize Hb.
  unfold PsPPO.eval_inputs, PsPPO.estimator_inputs. simpl.
  destruct (decide (length (PsPPO.old_states w) ≤ b + size)); simpl;
    rewrite ?length_app, !length_slice; simpl; lia.
Qed.

Lemma for_each_invariant {A S} (P : S → Prop) (body : A → S → result S)
    (xs : list A) (s s' : S) :
  (∀ x s1 s2, body x s1 = Ok s2 → P s1 → P s2) →
  P s → for_each body xs s = Ok s' → P s'.
Proof.
  intros Hbody. revert s. induction xs as [|x rest IH]; intros s Hs Hrun.
  - simpl in Hrun. by injection Hrun as <-.
  - simpl in Hrun. destruct (body x s) as [s1|] eqn:Hstep; [|done].
    simpl in Hrun. eapply IH; [|done]. by eapply Hbody.
Qed.

(** One optimizer step writes the current policy, the optimizer and the
    loss, and nothing else. *)
Lemma minibatch_step_frame (w : PsPPO.window) (b : nat)
    (self self' : PsPPO.t) :
  PsPPO.minibatch_step w b self = Ok self' →
  PsPPO.policy_old self' = PsPPO.policy_old self ∧
  PsPPO.batch_size self' = PsPPO.batch_size self ∧
  PsPPO.epochs self' = PsPPO.epochs self ∧
  PsPPO.gae self' = PsPPO.gae self.
Proof.
  unfold PsPPO.minibatch_step. intros Hstep.
  destruct (PsPPO.eval_inputs _ _ _) as [[states actions] masks].
  destruct (PsPPOPolicy.evaluate _ _ _ _) as [[[logs v] ent]|]; [|done].
  simpl in Hstep. destruct (broadcast _ _ _) as [ratio|]; [|done].
  simpl in Hstep.
  destruct (PsPPO._get_advs _ _ _ _) as [adv|]; [|done]. simpl in Hstep.
  destruct (backward_step _ _ _ _ _ _ _ _ _) as [[[theta opt] l]|]; [|done].
  simpl in Hstep. injection Hstep as <-. done.
Qed.

Lemma logged_step_invariant (self0 : PsPPO.t) (w : PsPPO.window) (b : nat)
    (s s' : PsPPO.logged) :
  PsPPO.logged_step w b s = Ok s' →
  loop_invariant self0 s → loop_invariant self0 s'.
Proof.
  unfold PsPPO.logged_step. intros Hstep (Hold & Hbs & Hall & Hlast).
  destruct (PsPPO.minibatch_step w b s.1) as [self1|] eqn:Hmb; [|done].
  simpl in Hstep. injection Hstep as <-.
  destruct (minibatch_step_frame _ _ _ _ Hmb) as (Hold1 & Hbs1 & _ & _).
  unfold loop_invariant. simpl. split_and!.
  - congruence.
  - congruence.
  - apply Forall_app. split; [done|]. apply Forall_singleton. congruence.
  - rewrite app_comm_cons. apply last_snoc.
Qed.

Lemma epoch_invariant (self0 : PsPPO.t) (w : PsPPO.window) (i : nat)
    (s s' : PsPPO.logged) :
  PsPPO.epoch w i s = Ok s' →
  loop_invariant self0 s → loop_invariant self0 s'.
Proof.
  unfold PsPPO.epoch. intros Hepoch Hinv.
  destruct (range_step _ _) as [starts|]; [|done]. simpl in Hepoch.
  eapply (for_each_invariant (loop_invariant self0)); [|done|done].
  intros b s1 s2 Hstep Hs1. by eapply logged_step_invariant.
Qed.

Lemma logged_steps_length (w : PsPPO.window) (starts : list nat)
    (s s' : PsPPO.logged) :
  for_each (PsPPO.logged_step w) starts s = Ok s' →
  length s'.2 = length s.2 + length starts.
Proof.
  revert s. induction starts as [|b rest IH]; intros s Hrun.
  - simpl in Hrun. injection Hrun as <-. simpl. lia.
  - simpl in Hrun.
    destruct (PsPPO.logged_step w b s) as [s1|] eqn:Hstep; [|done].
    simpl in Hrun. rewrite (IH _ Hrun).
    unfold PsPPO.logged_step in Hstep.
    destruct (PsPPO.minibatch_step w b s.1); [|done].
    simpl in Hstep. injection Hstep as <-. simpl. rewrite length_app.
    simpl. lia.
Qed.

Lemma epochs_length (self0 : PsPPO.t) (w : PsPPO.window)
    (starts : list nat) (es : list nat) (s s' : PsPPO.logged) :
  range_step (length (PsPPO.old_states w)) (PsPPO.batch_size self0)
  = Ok starts →
  loop_invariant self0 s →
  for_each (PsPPO.epoch w) es s = Ok s' →
  length s'.2 = length s.2 + length es * length starts.
Proof.
  intros Hrange. revert s. induction es as [|i rest IH]; intros s Hinv Hrun.
  - simpl in Hrun. injection Hrun as <-. simpl. lia.
  - simpl in Hrun.
    destruct (PsPPO.epoch w i s) as [s1|] eqn:Hepoch; [|done].
    simpl in Hrun.
    rewrite (IH s1 (epoch_invariant _ _ _ _ _ Hepoch Hinv) Hrun).
    unfold PsPPO.epoch in Hepoch.
    destruct Hinv as (_ & Hbs & _ & _). rewrite Hbs, Hrange in Hepoch.
    simpl in Hepoch. rewrite (logged_steps_length _ _ _ _ Hepoch).
    simpl. lia.
Qed.

(** C3: when [update] returns, every trainer of the optimization loop (the
    trainer after each optimizer step of each epoch) still has the old
    policy that the call started with; the old policy that the call leaves
    is that same old policy overwritten, once, with the parameters the
    current policy has after the last step.  The history has one entry per
    mini-batch of every epoch. *)
Theorem old_policy_stationary_during_update (self self' : PsPPO.t)
    (memory memory' : Memory.t) (a : nat) (history : list PsPPO.t) :
  PsPPO.update self memory a = Ok (self', memory', history) →
  Forall (λ during, PsPPO.policy_old during = PsPPO.policy_old self) history ∧
  (∃ final,
     last (self :: history) = Some final ∧
     PsPPO.policy self' = PsPPO.policy final ∧
     PsPPOPolicy.load_state_dict (PsPPO.policy_old self)
       (PsPPOPolicy.parameters (PsPPO.policy final))
     = Ok (PsPPO.policy_old self') ∧
     PsPPOPolicy.parameters (PsPPO.policy_old self')
     = PsPPOPolicy.parameters (PsPPO.policy self')) ∧
  (∀ memory0 w starts,
     PsPPO.detach memory a = Ok (memory0, w) →
     range_step (length (PsPPO.old_states w)) (PsPPO.batch_size self)
     = Ok starts →
     length history = Z.to_nat (PsPPO.epochs self) * length starts).
Proof.
  unfold PsPPO.update. intros Hup.
  destruct (PsPPO.detach memory a) as [[memory1 w]|]; [|done].
  simpl in Hup.
  destruct (for_each (PsPPO.epoch w) _ _) as [[final hist]|] eqn:Hloop; [|done].
  simpl in Hup.
  assert (Hinv : loop_invariant self (final, hist)).
  { eapply (for_each_invariant (loop_invariant self)); [| |exact Hloop].
    - intros i s1 s2 Hepoch Hs1. by eapply epoch_invariant.
    - unfold loop_invariant. simpl. done. }
  destruct Hinv as (Hold & Hbs & Hall & Hlast). simpl in *.
  unfold PsPPO.sync_old in Hup.
  destruct (PsPPOPolicy.load_state_dict _ _) as [old'|] eqn:Hload; [|done].
  simpl in Hup. injection Hup as <- <- <-. simpl.
  split_and!.
  - done.
  - exists final. split; [exact Hlast|]. split; [reflexivity|]. split.
    + rewrite <- Hold. exact Hload.
    + unfold PsPPOPolicy.load_state_dict in Hload.
      destruct (decide _); [|done]. injection Hload as <-. done.
  - intros memory0 w0 starts Hdet Hrange. injection Hdet as _ <-.
    assert (Hinit : loop_invariant self (self, [])).
    { unfold loop_invariant. simpl. done. }
    pose proof (epochs_length self w starts _ _ _ Hrange Hinit Hloop) as Hn.
    simpl in Hn. by rewrite length_seq in Hn.
Qed.

End update_loop.

Section update_examples.

Lemma old_policy_stationary_during_update_witness :
  ∃ self' memory' history,
    PsPPO.update (toy_trainer true 0.95 2 2) memory_two_agents 0
    = Ok (self', memory', history) ∧
    Forall (λ during,
              PsPPO.policy_old during
              = PsPPO.policy_old (toy_trainer true 0.95 2 2)) history ∧
    (∃ final,
       last (toy_trainer true 0.95 2 2 :: history) = Some final ∧
       PsPPO.policy self' = PsPPO.policy final ∧
       PsPPOPolicy.load_state_dict
         (PsPPO.policy_old (toy_trainer true 0.95 2 2))
         (PsPPOPolicy.parameters (PsPPO.policy final))
       = Ok (PsPPO.policy_old self') ∧
       PsPPOPolicy.parameters (PsPPO.policy_old self')
       = PsPPOPolicy.parameters (PsPPO.policy self')) ∧
    (∀ memory0 w starts,
       PsPPO.detach memory_two_agents 0 = Ok (memory0, w) →
       range_step (length (PsPPO.old_states w))
         (PsPPO.batch_size (toy_trainer true 0.95 2 2)) = Ok starts →
       length history
       = Z.to_nat (PsPPO.epochs (toy_trainer true 0.95 2 2)) * length starts).
Proof.
  destruct (PsPPO.update (toy_trainer true 0.95 2 2) memory_two_agents 0)
    as [[[self' memory'] history]|e] eqn:Hupdate.
  - exists self', memory', history. split; [reflexivity|].
    exact (old_policy_stationary_during_update _ _ _ _ _ _ Hupdate).
  - exfalso. vm_compute in Hupdate. discriminate.
Defined.

(** Two epochs over a window of two transitions in mini-batches of two:
    two optimizer steps, each adding one to the only parameter, and an old
    policy that ends up with the parameter of the current one. *)
Example update_toy_run :
  ∃ self' memory' history,
    PsPPO.update (toy_trainer true 0.95 2 2) memory_two_agents 0
    = Ok (self', memory', history) ∧
    length history = 2 ∧
    PsPPO.optimizer self' = 2 ∧
    Memory.rewards memory' = [[1; 0]; [2]]%R ∧
    PsPPOPolicy.parameters (PsPPO.policy_old self') !! "w"%string
    = PsPPOPolicy.parameters (PsPPO.policy self') !! "w"%string.
Proof.
  eexists _, _, _. split; [vm_compute; reflexivity|].
  split_and!; vm_compute; reflexivity.
Qed.

End update_examples.

Section construction_examples.

Lemma load_missing_path_witness :
  ∃ self',
    PsPPOPolicy.load ∅ toy_policy "checkpoint.pt" []
    = Ok (self', ([] ++ ["Loading file failed. File not found."%string])%list)
    ∧ self' = toy_policy
    ∧ PsPPOPolicy.parameters self' = PsPPOPolicy.parameters toy_policy.
Proof.
  apply (load_missing_path ∅ toy_policy "checkpoint.pt" []).
  vm_compute. reflexivity.
Defined.


(** In shared mode the actor depth is never read: a depth of zero there
    does not stop construction, and the actor is the critic without its
    last layer plus an output layer of its own. *)
Example shared_construction_depth_two :
  ∃ policy,
    PsPPOPolicy.__init__ (H:=toy_torch) ∅ 3 2
      (toy_params "Tanh" true 2 0 None) []
    = Ok (policy, []) ∧
    PsPPOPolicy.critic_network policy
    = [("critic_input"%string, Linear 3 8);
       ("critic_input_activation(Tanh)"%string, Tanh);
       ("critic_layer_1"%string, Linear 8 1)] ∧
    PsPPOPolicy.actor_network policy
    = [("critic_input"%string, Linear 3 8);
       ("critic_input_activation(Tanh)"%string, Tanh);
       ("actor_output_layer"%string, Linear 8 2)].
Proof. eexists. split_and!; vm_compute; reflexivity. Qed.

Example separate_construction_depth_three :
  ∃ policy,
    PsPPOPolicy.__init__ (H:=toy_torch) ∅ 3 2
      (toy_params "ReLU" false 1 3 None) []
    = Ok (policy, []) ∧
    PsPPOPolicy.critic_network policy
    = [("critic_input"%string, Linear 3 1)] ∧
    PsPPOPolicy.actor_network policy
    = [("actor_input"%string, Linear 3 8);
       ("actor_input_activation(ReLU)"%string, ReLU);
       ("actor_layer_1"%string, Linear 8 8);
       ("actor_layer_1_activation(ReLU)"%string, ReLU);
       ("actor_layer_2"%string, Linear 8 2)].
Proof. eexists. split_and!; vm_compute; reflexivity. Qed.

Example shared_construction_depth_one_raises :
  PsPPOPolicy.__init__ (H:=toy_torch) ∅ 3 2
    (toy_params "Tanh" true 1 2 None) []
  = Raise (Exception "Shared networks must have depth greater than 1").
Proof. vm_compute. reflexivity. Qed.

(** Construction with a checkpoint path under which there is no file:
    the policy keeps the parameters of its initialisation. *)
Example construction_with_missing_checkpoint :
  ∃ policy,
    PsPPOPolicy.__init__ (H:=toy_torch) ∅ 3 2
      (toy_params "Tanh" false 2 2 (Some "checkpoint.pt"%string)) []
    = Ok (policy, ["Loading file failed. File not found."%string]) ∧
    PsPPOPolicy.parameters policy
    = orthogonal_init (Torch:=toy_torch) (PsPPOPolicy.critic_network policy)
        (PsPPOPolicy.actor_network policy) 0.1%R 0.01%R.
Proof. eexists. split; vm_compute; reflexivity. Qed.

End construction_examples.

(** ** The calls of the advantage estimator inside [update] *)

Section estimator_calls.
Context `{Torch}.

Lemma traced_minibatch_step_result (w : PsPPO.window) (b : nat)
    (self : PsPPO.t) :
  (PsPPO.traced_minibatch_step w b self).2 = PsPPO.minibatch_step w b self.
Proof.
  unfold PsPPO.traced_minibatch_step, PsPPO.minibatch_step.
  destruct (PsPPO.eval_inputs w _ b) as [[states actions] masks].
  destruct (PsPPOPolicy.evaluate _ states actions masks)
    as [[[logs v] ent]|e]; [|done].
  cbn [mbind result_bind].
  destruct (broadcast _ logs _) as [ratio|e]; [|done].
  cbn [mbind result_bind].
  by destruct (PsPPO.estimator_inputs w _ b) as [rewards dones].
Qed.

Lemma traced_minibatch_step_calls (w : PsPPO.window) (b : nat)
    (self : PsPPO.t) (inv : PsPPO.invocation) :
  inv ∈ (PsPPO.traced_minibatch_step w b self).1 →
  let size := Z.to_nat (PsPPO.batch_size self) in
  PsPPO.inv_trainer inv = self ∧
  PsPPO.inv_batch_start inv = b ∧
  PsPPO.inv_states inv = (PsPPO.eval_inputs w size b).1.1 ∧
  PsPPO.inv_rewards inv = (PsPPO.estimator_inputs w size b).1 ∧
  PsPPO.inv_dones inv = (PsPPO.estimator_inputs w size b).2 ∧
  PsPPO.inv_result inv
  = PsPPO._get_advs self (PsPPO.inv_rewards inv) (PsPPO.inv_dones inv)
      (PsPPO.inv_values inv) ∧
  ∃ logs ent,
    PsPPOPolicy.evaluate (PsPPO.policy self)
      (PsPPO.eval_inputs w size b).1.1 (PsPPO.eval_inputs w size b).1.2
      (PsPPO.eval_inputs w size b).2
    = Ok (logs, PsPPO.inv_values inv, ent).
Proof.
  unfold PsPPO.traced_minibatch_step.
  destruct (PsPPO.eval_inputs w _ b) as [[states actions] masks].
  destruct (PsPPOPolicy.evaluate _ states actions masks)
    as [[[logs v] ent]|e] eqn:Hev; [|by intros ?%elem_of_nil].
  destruct (broadcast _ logs _) as [ratio|e]; [|by intros ?%elem_of_nil].
  destruct (PsPPO.estimator_inputs w _ b) as [rewards dones].
  cbn [fst snd]. intros ->%list_elem_of_singleton. cbn.
  split_and!; try done. by exists logs, ent.
Qed.

Lemma traced_minibatch_step_one_call (w : PsPPO.window) (b : nat)
    (self self' : PsPPO.t) :
  (PsPPO.traced_minibatch_step w b self).2 = Ok self' →
  length (PsPPO.traced_minibatch_step w b self).1 = 1.
Proof.
  unfold PsPPO.traced_minibatch_step.
  destruct (PsPPO.eval_inputs w _ b) as [[states actions] masks].
  destruct (PsPPOPolicy.evaluate _ states actions masks)
    as [[[logs v] ent]|e]; [|done].
  destruct (broadcast _ logs _) as [ratio|e]; [|done].
  by destruct (PsPPO.estimator_inputs w _ b) as [rewards dones].
Qed.

Lemma traced_for_each_result {A S}
    (body : A → S → list PsPPO.invocation * result S) (xs : list A) (s : S) :
  (PsPPO.traced_for_each body xs s).2 = for_each (λ x s, (body x s).2) xs s.
Proof.
  revert s. induction xs as [|x rest IH]; intros s; [done|].
  cbn. destruct (body x s) as [calls [s'|e]]; cbn; [apply IH|done].
Qed.

Lemma for_each_ext {A S} (f g : A → S → result S) (xs : list A) (s : S) :
  (∀ x s, f x s = g x s) → for_each f xs s = for_each g xs s.
Proof.
  intros Hfg. revert s. induction xs as [|x rest IH]; intros s; [done|].
  cbn. rewrite Hfg. destruct (g x s); cbn; [apply IH|done].
Qed.

(** What holds of every call of a loop, from what holds of the calls of
    one round on a state that satisfies an invariant of the loop. *)
Lemma traced_for_each_calls {A S} (I : S → Prop)
    (P : PsPPO.invocation → Prop)
    (body : A → S → list PsPPO.invocation * result S)
    (xs : list A) (s : S) :
  (∀ x s, x ∈ xs → I s →
     (∀ inv, inv ∈ (body x s).1 → P inv) ∧
     (∀ s', (body x s).2 = Ok s' → I s')) →
  I s →
  (∀ inv, inv ∈ (PsPPO.traced_for_each body xs s).1 → P inv) ∧
  (∀ s', (PsPPO.traced_for_each body xs s).2 = Ok s' → I s').
Proof.
  revert s. induction xs as [|x rest IH]; intros s Hbody Hs.
  - cbn. split; [by intros inv ?%elem_of_nil|]. by intros s' [= <-].
  - cbn. destruct (Hbody x s (list_elem_of_here _ _) Hs) as [Hcalls Hnext].
    destruct (body x s) as [calls [s1|e]]; cbn in *.
    + destruct (IH s1) as [Hlater Hend].
      { intros y t Hy. apply Hbody. by apply list_elem_of_further. }
      { by apply Hnext. }
      split; [|done]. intros inv Hin.
      apply elem_of_app in Hin as [Hin|Hin]; [by apply Hcalls|].
      by apply Hlater.
    + split; [done|]. intros s' Hs'. discriminate Hs'.
Qed.

(** A loop that returns has made as many calls as its rounds together. *)
Lemma traced_for_each_count {A S} (M : S → nat)
    (body : A → S → list PsPPO.invocation * result S)
    (xs : list A) (s s' : S) :
  (∀ x s s', (body x s).2 = Ok s' → M s' = M s + length (body x s).1) →
  (PsPPO.traced_for_each body xs s).2 = Ok s' →
  M s' = M s + length (PsPPO.traced_for_each body xs s).1.
Proof.
  intros Hbody. revert s. induction xs as [|x rest IH]; intros s.
  - cbn. intros [= <-]. lia.
  - cbn. pose proof (Hbody x s) as Hx.
    destruct (body x s) as [calls [s1|e]]; cbn in *; [|done].
    intros Hrest. rewrite (IH _ Hrest), (Hx s1 eq_refl), length_app. lia.
Qed.

Lemma traced_logged_step_result (w : PsPPO.window) (b : nat)
    (s : PsPPO.logged) :
  (PsPPO.traced_logged_step w b s).2 = PsPPO.logged_step w b s.
Proof.
  unfold PsPPO.traced_logged_step, PsPPO.logged_step. cbn [snd].
  by rewrite traced_minibatch_step_result.
Qed.

Lemma traced_epoch_result (w : PsPPO.window) (i : nat) (s : PsPPO.logged) :
  (PsPPO.traced_epoch w i s).2 = PsPPO.epoch w i s.
Proof.
  unfold PsPPO.traced_epoch, PsPPO.epoch.
  destruct (range_step _ _) as [starts|e]; [|done].
  cbn [mbind result_bind]. rewrite traced_for_each_result.
  apply for_each_ext. intros b t. apply traced_logged_step_result.
Qed.

Lemma detach_in_place_result (memory : Memory.t) (a : nat) :
  PsPPO.detach memory a
  = (w ← (PsPPO.detach_in_place memory a).2;
     Ok ((PsPPO.detach_in_place memory a).1, w)).
Proof.
  unfold PsPPO.detach, PsPPO.detach_in_place. cbv zeta.
  destruct (Memory.pop (Memory.rewards memory) a) as [[? rewards]|]; [|done].
  destruct (Memory.pop (Memory.dones memory) a) as [[? dones]|]; [|done].
  destruct (Memory.pop (Memory.states memory) a) as [[last_state states]|];
    [|done].
  destruct (Memory.pop (Memory.actions memory) a) as [[last_action actions]|];
    [|done].
  destruct (Memory.pop (Memory.masks memory) a) as [[last_mask masks]|];
    [|done].
  destruct (Memory.pop (Memory.logs_of_action_prob memory) a)
    as [[? logs]|]; [|done].
  cbn [mbind result_bind fst snd].
  destruct (getitem states a ≫= PsPPO.stack); [|done].
  cbn [mbind result_bind].
  destruct (getitem actions a ≫= PsPPO.stack); [|done].
  cbn [mbind result_bind].
  destruct (getitem masks a ≫= PsPPO.stack); [|done].
  cbn [mbind result_bind].
  destruct (getitem logs a ≫= PsPPO.stack); [|done].
  cbn [mbind result_bind].
  destruct (getitem rewards a); [|done]. cbn [mbind result_bind].
  by destruct (getitem dones a).
Qed.

(** The traced run is the [update] call. *)
Lemma traced_update_result (self : PsPPO.t) (memory : Memory.t) (a : nat) :
  PsPPO.update self memory a
  = (r ← (PsPPO.traced_update self memory a).2;
     Ok (r.1, (PsPPO.traced_update self memory a).1.1, r.2)).
Proof.
  unfold PsPPO.update, PsPPO.traced_update.
  rewrite detach_in_place_result.
  destruct (PsPPO.detach_in_place memory a) as [memory' [w|e]]; [|done].
  cbn [mbind result_bind fst snd]. rewrite traced_for_each_result.
  rewrite (for_each_ext (λ x s, (PsPPO.traced_epoch w x s).2) (PsPPO.epoch w));
    [|apply traced_epoch_result].
  destruct (for_each (PsPPO.epoch w) _ _) as [[self1 history]|e]; [|done].
  cbn [mbind result_bind]. by destruct (PsPPO.sync_old self1).
Qed.

Lemma evaluate_values (self : PsPPOPolicy.t) (states : list (list R))
    (actions : list nat) (masks : list (list bool))
    (logs : list R) (v : values) (ent : list R) :
  PsPPOPolicy.evaluate self states actions masks = Ok (logs, v, ent) →
  v = Values true
        (value_of (PsPPOPolicy.critic_network self)
           (PsPPOPolicy.parameters self) <$> states).
Proof.
  unfold PsPPOPolicy.evaluate.
  destruct (broadcast PsPPOPolicy.mask_logits _ _) as [rows|]; [|done].
  cbn [mbind result_bind].
  destruct (collect rows) as [logits|]; [|done]. cbn [mbind result_bind].
  destruct (broadcast PsPPOPolicy.log_prob _ _) as [ls|]; [|done].
  cbn [mbind result_bind].
  destruct (collect ls) as [ls'|]; [|done]. cbn [mbind result_bind].
  by intros [= _ <- _].
Qed.

(** The rows of a mini-batch, read off the list the memory held when
    [update] was called: the slice from the batch start to one past the
    batch end.  For the last mini-batch that is the rest of the popped list
    followed by the element that was popped. *)
Lemma eval_rows (w : PsPPO.window) (sts : list (list R))
    (horizon size b : nat) :
  PsPPO.old_states w = but_last sts →
  last sts = Some (PsPPO.last_state w) →
  length sts = S horizon → b < horizon →
  (PsPPO.eval_inputs w size b).1.1 = slice sts b (b + size + 1) ∧
  (horizon ≤ b + size →
   (PsPPO.eval_inputs w size b).1.1
   = slice (but_last sts) b (b + size) ++ [PsPPO.last_state w]).
Proof.
  intros Hold Hlast Hlen Hb.
  destruct (nonempty_snoc sts) as (old & x & -> & _); [lia|].
  rewrite but_last_snoc in *. rewrite last_snoc in Hlast.
  injection Hlast as ->. rewrite length_app in Hlen. cbn in Hlen.
  assert (Hn : length old = horizon) by lia.
  unfold PsPPO.eval_inputs, slice. rewrite Hold, Hn.
  destruct (decide (horizon ≤ b + size)) as [Hle|Hgt]; cbn [fst].
  - split; [|done].
    rewrite drop_app_le by lia.
    rewrite (take_ge (drop b old)) by (rewrite length_drop; lia).
    rewrite take_ge; [done|].
    rewrite length_app, length_drop. cbn. lia.
  - split; [|lia].
    rewrite drop_app_le by lia.
    rewrite take_app_le; [f_equal; lia|].
    rewrite length_drop. lia.
Qed.

End estimator_calls.

Section estimator_calls_in_update.
Context `{Torch}.

(** What holds of one call: where it was made, what it was handed, and
    what it returned. *)
Lemma minibatch_call (self0 : PsPPO.t) (w : PsPPO.window)
    (sts : list (list R)) (rws : list R) (dns : list bool)
    (horizon b : nat) (self : PsPPO.t) (inv : PsPPO.invocation) :
  PsPPO.old_states w = but_last sts →
  PsPPO.window_rewards w = but_last rws →
  PsPPO.window_dones w = but_last dns →
  last sts = Some (PsPPO.last_state w) →
  length sts = S horizon → length rws = S horizon →
  length dns = S horizon →
  b < horizon → (0 < PsPPO.batch_size self0)%Z →
  PsPPO.batch_size self = PsPPO.batch_size self0 →
  PsPPO.gae self = PsPPO.gae self0 →
  inv ∈ (PsPPO.traced_minibatch_step w b self).1 →
  let size := Z.to_nat (PsPPO.batch_size self0) in
  let start := PsPPO.inv_batch_start inv in
  start < horizon ∧ 1 ≤ size ∧
  PsPPO.inv_states inv = slice sts start (start + size + 1) ∧
  (horizon ≤ start + size →
   PsPPO.inv_states inv
   = slice (but_last sts) start (start + size) ++ [PsPPO.last_state w]) ∧
  PsPPO.inv_rewards inv = slice (but_last rws) start (start + size) ∧
  PsPPO.inv_dones inv = slice (but_last dns) start (start + size) ∧
  PsPPO.inv_values inv
  = Values true
      (value_of
         (PsPPOPolicy.critic_network (PsPPO.policy (PsPPO.inv_trainer inv)))
         (PsPPOPolicy.parameters (PsPPO.policy (PsPPO.inv_trainer inv)))
       <$> PsPPO.inv_states inv) ∧
  1 ≤ length (PsPPO.inv_rewards inv) ∧
  length (PsPPO.inv_dones inv) = length (PsPPO.inv_rewards inv) ∧
  length (entries (PsPPO.inv_values inv))
  = length (PsPPO.inv_rewards inv) + 1 ∧
  PsPPO.inv_result inv
  = PsPPO._get_advs (PsPPO.inv_trainer inv) (PsPPO.inv_rewards inv)
      (PsPPO.inv_dones inv) (PsPPO.inv_values inv) ∧
  (PsPPO.gae self0 = true →
   ∃ adv,
     PsPPO.inv_result inv = Ok (Vec adv) ∧
     length adv = length (PsPPO.inv_rewards inv)).
Proof.
  intros Hold Hwr Hwd Hlast Ls Lr Ld Hb Hpos Hsize Hgae Hin size start.
  apply traced_minibatch_step_calls in Hin
    as (Htrainer & Hstart & Hstates & Hrewards & Hdones & Hresult
        & logs & ent & Hev).
  cbv zeta in *. subst start. rewrite Hstart. rewrite Hsize in *.
  fold size in Hstates, Hrewards, Hdones, Hev.
  destruct (eval_rows w sts horizon size b Hold Hlast Ls Hb)
    as [Hrows Hreappend].
  destruct (minibatch_shapes w horizon size b) as (Hshape & Hsame & Hne).
  { rewrite Hold, length_but_last. lia. }
  { rewrite Hwr, length_but_last. lia. }
  { rewrite Hwd, length_but_last. lia. }
  { subst size. lia. }
  { done. }
  pose proof (evaluate_values _ _ _ _ _ _ _ Hev) as Hvalues.
  pose proof (evaluate_values_length _ _ _ _ _ _ _ Hev) as Hlen.
  assert (Hr : PsPPO.inv_rewards inv = slice (but_last rws) b (b + size)).
  { rewrite Hrewards. unfold PsPPO.estimator_inputs. cbn [fst].
    by rewrite Hwr. }
  assert (Hd : PsPPO.inv_dones inv = slice (but_last dns) b (b + size)).
  { rewrite Hdones. unfold PsPPO.estimator_inputs. cbn [snd].
    by rewrite Hwd. }
  rewrite <- Hrewards, <- Hdones in Hsame.
  rewrite <- Hrewards in Hne. rewrite <- Hrewards in Hshape.
  rewrite <- Hstates in Hrows, Hreappend, Hvalues, Hlen, Hshape.
  split_and!; try done.
  - subst size. lia.
  - by rewrite Htrainer.
  - lia.
  - by rewrite Htrainer.
  - intros Hmode. rewrite Hresult.
    destruct (PsPPO.inv_values inv) as [col vs]. cbn [entries] in *.
    destruct (gae_advantages self (length (PsPPO.inv_rewards inv))
                (PsPPO.inv_rewards inv) (PsPPO.inv_dones inv) col vs)
      as (adv & Hadv & Hadv_len & _); [congruence|done|done|lia|].
    by exists adv.
Qed.

(** C7: one [update] call on six buffers of length [horizon + 1], traced.
    The traced run is the [update] call.  Every call of the advantage
    estimator made in it, at a batch start [b] and with the parameters the
    trainer has reached by then, is handed the critic's values of the rows
    [states[b : b + batch_size + 1]] of the memory as it was before the
    pops, the slice that runs one past the batch end; in the last
    mini-batch these are the rest of the popped list followed by the
    bootstrap transition that was popped and is appended again.  The
    rewards and the done-flags are the slices [b : b + batch_size] of the
    popped lists, not empty and of one length, and the values are exactly
    one more, so in GAE mode the length assertion holds and the estimator
    returns.  A call that returns has made one such call for every
    optimizer step. *)
Theorem estimator_gets_lookahead_value (self : PsPPO.t)
    (memory : Memory.t) (a horizon : nat)
    (acts : list nat) (sts : list (list R)) (lgs : list R)
    (mks : list (list bool)) (rws : list R) (dns : list bool)
    (bootstrap : list R) :
  Memory.actions memory !! a = Some acts →
  Memory.states memory !! a = Some sts →
  Memory.logs_of_action_prob memory !! a = Some lgs →
  Memory.masks memory !! a = Some mks →
  Memory.rewards memory !! a = Some rws →
  Memory.dones memory !! a = Some dns →
  length acts = S horizon → length sts = S horizon →
  length lgs = S horizon → length mks = S horizon →
  length rws = S horizon → length dns = S horizon →
  1 ≤ horizon →
  last sts = Some bootstrap →
  let run := PsPPO.traced_update self memory a in
  let size := Z.to_nat (PsPPO.batch_size self) in
  PsPPO.update self memory a
  = (r ← run.2; Ok (r.1, run.1.1, r.2)) ∧
  (∀ inv, inv ∈ run.1.2 →
     let start := PsPPO.inv_batch_start inv in
     start < horizon ∧ 1 ≤ size ∧
     PsPPO.inv_states inv = slice sts start (start + size + 1) ∧
     (horizon ≤ start + size →
      PsPPO.inv_states inv
      = slice (but_last sts) start (start + size) ++ [bootstrap]) ∧
     PsPPO.inv_rewards inv = slice (but_last rws) start (start + size) ∧
     PsPPO.inv_dones inv = slice (but_last dns) start (start + size) ∧
     PsPPO.inv_values inv
     = Values true
         (value_of
            (PsPPOPolicy.critic_network
               (PsPPO.policy (PsPPO.inv_trainer inv)))
            (PsPPOPolicy.parameters (PsPPO.policy (PsPPO.inv_trainer inv)))
          <$> PsPPO.inv_states inv) ∧
     1 ≤ length (PsPPO.inv_rewards inv) ∧
     length (PsPPO.inv_dones inv) = length (PsPPO.inv_rewards inv) ∧
     length (entries (PsPPO.inv_values inv))
     = length (PsPPO.inv_rewards inv) + 1 ∧
     PsPPO.inv_result inv
     = PsPPO._get_advs (PsPPO.inv_trainer inv) (PsPPO.inv_rewards inv)
         (PsPPO.inv_dones inv) (PsPPO.inv_values inv) ∧
     (PsPPO.gae self = true →
      ∃ adv,
        PsPPO.inv_result inv = Ok (Vec adv) ∧
        length adv = length (PsPPO.inv_rewards inv))) ∧
  (∀ self' history,
     run.2 = Ok (self', history) → length run.1.2 = length history).
Proof.
  intros Ha Hs Hl Hm Hr Hd La Ls Ll Lm Lr Ld Hh Hboot run size.
  split; [apply traced_update_result|].
  destruct (detach_spec memory a horizon acts sts lgs mks rws dns)
    as (memory' & w & Hdet & Hos & _ & _ & _ & Hwr & Hwd & Hlast & _);
    try done.
  rewrite Hboot in Hlast. injection Hlast as Hlast.
  assert (Hplace : PsPPO.detach_in_place memory a = (memory', Ok w)).
  { rewrite detach_in_place_result in Hdet.
    destruct (PsPPO.detach_in_place memory a) as [m [w'|e]]; [|done].
    cbn in Hdet. by injection Hdet as -> ->. }
  subst run. unfold PsPPO.traced_update. rewrite Hplace. cbn [fst snd].
  set (I := λ s : PsPPO.logged,
         PsPPO.batch_size s.1 = PsPPO.batch_size self ∧
         PsPPO.gae s.1 = PsPPO.gae self).
  assert (Hold_len : length (PsPPO.old_states w) = horizon).
  { rewrite Hos, length_but_last. lia. }
  split.
  - refine (proj1 (traced_for_each_calls I _ _ _ _ _ _)); [|done].
    intros i s _ Hinv. unfold PsPPO.traced_epoch.
    destruct (range_step _ _) as [starts|e] eqn:Hrange;
      [|split; [by intros inv ?%elem_of_nil|done]].
    apply (traced_for_each_calls I); [|done].
    intros b t Hb [Hsize Hgae]. rewrite Hold_len in Hrange.
    destruct Hinv as [Hsize0 _]. rewrite Hsize0 in Hrange.
    destruct (range_step_bound _ _ _ _ Hrange Hb) as [Hlt Hpos].
    unfold PsPPO.traced_logged_step. cbn [fst snd]. split.
    + intros inv Hin. subst size. rewrite Hlast.
      apply (minibatch_call self w sts rws dns horizon b t.1); try done.
      by rewrite Hboot, Hlast.
    + intros s'. rewrite traced_minibatch_step_result.
      destruct (PsPPO.minibatch_step w b t.1) as [self1|e] eqn:Hstep;
        [|done].
      cbn. intros [= <-]. cbn.
      apply minibatch_step_frame in Hstep as (_ & Hb1 & _ & Hg1).
      unfold I. cbn [fst]. split; congruence.
  - intros self' history Hrun.
    destruct (PsPPO.traced_for_each _ _ _).2 as [[self1 history1]|e] eqn:Hloop;
      [|done].
    cbn [mbind result_bind] in Hrun.
    destruct (PsPPO.sync_old self1) as [self2|e]; [|done].
    cbn in Hrun. injection Hrun as _ <-.
    enough (Hcount : length (self1, history1).2
                     = length (self, @nil PsPPO.t).2
                       + length (PsPPO.traced_for_each (PsPPO.traced_epoch w)
                                   (seq 0 (Z.to_nat (PsPPO.epochs self)))
                                   (self, [])).1)
      by (cbn in Hcount; lia).
    apply (traced_for_each_count (λ s : PsPPO.logged, length s.2));
      [|done].
    intros i s s' Hepoch. unfold PsPPO.traced_epoch in *.
    destruct (range_step _ _) as [starts|e]; [|done].
    apply (traced_for_each_count (λ s : PsPPO.logged, length s.2));
      [|done].
    intros b t t'. unfold PsPPO.traced_logged_step. cbn [fst snd].
    destruct (PsPPO.traced_minibatch_step w b t.1).2 as [self3|e] eqn:Hstep;
      [|done].
    cbn. intros [= <-]. cbn.
    rewrite (traced_minibatch_step_one_call _ _ _ _ Hstep), length_app.
    done.
Qed.

End estimator_calls_in_update.

Section estimator_calls_examples.

Lemma estimator_gets_lookahead_value_witness :
  let run :=
    PsPPO.traced_update (toy_trainer true 0.95 2 2) memory_five_steps 0 in
  PsPPO.update (toy_trainer true 0.95 2 2) memory_five_steps 0
  = (r ← run.2; Ok (r.1, run.1.1, r.2)) ∧
  (∀ inv, inv ∈ run.1.2 →
     let start := PsPPO.inv_batch_start inv in
     start < 4 ∧ 1 ≤ 2 ∧
     PsPPO.inv_states inv
     = slice [[0.5; 0]; [0.25; 0]; [1; 0]; [0; 1]; [0; 0.5]]%R start (start + 2 + 1) ∧
     (4 ≤ start + 2 →
      PsPPO.inv_states inv
      = slice (but_last [[0.5; 0]; [0.25; 0]; [1; 0]; [0; 1]; [0; 0.5]]%R) start (start + 2)
        ++ [[0; 0.5]%R]) ∧
     PsPPO.inv_rewards inv
     = slice (but_last [1; 0; -1; 0.5; 2]%R) start (start + 2) ∧
     PsPPO.inv_dones inv
     = slice (but_last [false; false; false; false; true]) start
         (start + 2) ∧
     PsPPO.inv_values inv
     = Values true
         (value_of (Torch:=toy_torch)
            (PsPPOPolicy.critic_network
               (PsPPO.policy (PsPPO.inv_trainer inv)))
            (PsPPOPolicy.parameters (PsPPO.policy (PsPPO.inv_trainer inv)))
          <$> PsPPO.inv_states inv) ∧
     1 ≤ length (PsPPO.inv_rewards inv) ∧
     length (PsPPO.inv_dones inv) = length (PsPPO.inv_rewards inv) ∧
     length (entries (PsPPO.inv_values inv))
     = length (PsPPO.inv_rewards inv) + 1 ∧
     PsPPO.inv_result inv
     = PsPPO._get_advs (PsPPO.inv_trainer inv) (PsPPO.inv_rewards inv)
         (PsPPO.inv_dones inv) (PsPPO.inv_values inv) ∧
     (PsPPO.gae (toy_trainer true 0.95 2 2) = true →
      ∃ adv,
        PsPPO.inv_result inv = Ok (Vec adv) ∧
        length adv = length (PsPPO.inv_rewards inv))) ∧
  (∀ self' history,
     run.2 = Ok (self', history) → length run.1.2 = length history).
Proof.
  apply (estimator_gets_lookahead_value (toy_trainer true 0.95 2 2)
           memory_five_steps 0 4
           [0; 1; 1; 0; 1] [[0.5; 0]; [0.25; 0]; [1; 0]; [0; 1]; [0; 0.5]]%R
           [-1; -2; -3; -1; -2]%R
           [[true; true]; [true; true]; [false; true]; [true; true];
            [true; true]]
           [1; 0; -1; 0.5; 2]%R [false; false; false; false; true]
           [0; 0.5]%R);
    first [reflexivity | simpl; lia].
Defined.

(** The run of the witness: two epochs of two mini-batches, so four calls
    of the estimator.  The mini-batch at start [0] ends inside the window
    and is evaluated on the rows [0 : 3]; the mini-batch at start [2] is
    the last one and is evaluated on the rows [2 : 4] and on the bootstrap
    row [[0; 0.5]]. *)
Example traced_update_toy_run :
  let run :=
    PsPPO.traced_update (toy_trainer true 0.95 2 2) memory_five_steps 0 in
  (∃ self' history, run.2 = Ok (self', history) ∧ length history = 4) ∧
  PsPPO.inv_batch_start <$> run.1.2 = [0; 2; 0; 2] ∧
  PsPPO.inv_states <$> run.1.2
  = [[[0.5; 0]; [0.25; 0]; [1; 0]]; [[1; 0]; [0; 1]; [0; 0.5]];
     [[0.5; 0]; [0.25; 0]; [1; 0]]; [[1; 0]; [0; 1]; [0; 0.5]]]%R ∧
  PsPPO.inv_rewards <$> run.1.2
  = [[1; 0]; [-1; 0.5]; [1; 0]; [-1; 0.5]]%R ∧
  PsPPO.inv_dones <$> run.1.2
  = [[false; false]; [false; false]; [false; false]; [false; false]] ∧
  (λ inv, length (entries (PsPPO.inv_values inv))) <$> run.1.2
  = [3; 3; 3; 3] ∧
  Memory.states run.1.1 = [[[0.5; 0]; [0.25; 0]; [1; 0]; [0; 1]]]%R.
Proof.
  cbv zeta. split_and!; [eexists _, _; split| | | | | |];
    vm_compute; reflexivity.
Qed.

End estimator_calls_examples.

(** * Further properties *)

(** ** The experience buffer: errors, frame, repetition *)

Section memory_more.

Lemma keep_last_cases {A} (field : list (list A)) (agent : nat) :
  Memory.keep_last field agent
  = match field !! agent with
    | Some xs => Ok (<[agent := last_slice xs]> field)
    | None => Raise IndexError
    end.
Proof. unfold Memory.keep_last, getitem. by destruct (field !! agent). Qed.

Lemma keep_last_in_range {A} (field : list (list A)) (agent : nat) :
  agent < length field →
  ∃ xs, field !! agent = Some xs ∧
        Memory.keep_last field agent = Ok (<[agent := last_slice xs]> field).
Proof.
  intros Hlt. destruct (lookup_lt_is_Some_2 field agent Hlt) as [xs Hxs].
  exists xs. split; [done|]. by rewrite keep_last_cases, Hxs.
Qed.

Lemma keep_last_out_of_range {A} (field : list (list A)) (agent : nat) :
  length field ≤ agent → Memory.keep_last field agent = Raise IndexError.
Proof.
  intros Hge. rewrite keep_last_cases. by rewrite lookup_ge_None_2.
Qed.

(** X1: The only exception of [clear_memory_except_last] is an [IndexError],
    raised exactly when the agent is no index of one of the six fields;
    empty lists are no error. *)
Theorem clear_memory_except_last_raises_iff (m : Memory.t) (agent : nat) :
  (Memory.clear_memory_except_last m agent = Raise IndexError
   ↔ ¬ (agent < length (Memory.actions m) ∧
        agent < length (Memory.states m) ∧
        agent < length (Memory.logs_of_action_prob m) ∧
        agent < length (Memory.masks m) ∧
        agent < length (Memory.rewards m) ∧
        agent < length (Memory.dones m))) ∧
  (∀ e, Memory.clear_memory_except_last m agent = Raise e → e = IndexError).
Proof.
  unfold Memory.clear_memory_except_last.
  destruct (decide (agent < length (Memory.actions m))) as [Ha|Ha];
    [destruct (keep_last_in_range _ _ Ha) as (? & _ & ->)
    |rewrite (keep_last_out_of_range (Memory.actions m)) by lia]; simpl;
    [|split; [split; [intros _; lia|done]|by intros e [= <-]]].
  destruct (decide (agent < length (Memory.states m))) as [Hs|Hs];
    [destruct (keep_last_in_range _ _ Hs) as (? & _ & ->)
    |rewrite (keep_last_out_of_range (Memory.states m)) by lia]; simpl;
    [|split; [split; [intros _; lia|done]|by intros e [= <-]]].
  destruct (decide (agent < length (Memory.logs_of_action_prob m))) as [Hl|Hl];
    [destruct (keep_last_in_range _ _ Hl) as (? & _ & ->)
    |rewrite (keep_last_out_of_range (Memory.logs_of_action_prob m)) by lia];
    simpl;
    [|split; [split; [intros _; lia|done]|by intros e [= <-]]].
  destruct (decide (agent < length (Memory.masks m))) as [Hm|Hm];
    [destruct (keep_last_in_range _ _ Hm) as (? & _ & ->)
    |rewrite (keep_last_out_of_range (Memory.masks m)) by lia]; simpl;
    [|split; [split; [intros _; lia|done]|by intros e [= <-]]].
  destruct (decide (agent < length (Memory.rewards m))) as [Hr|Hr];
    [destruct (keep_last_in_range _ _ Hr) as (? & _ & ->)
    |rewrite (keep_last_out_of_range (Memory.rewards m)) by lia]; simpl;
    [|split; [split; [intros _; lia|done]|by intros e [= <-]]].
  destruct (decide (agent < length (Memory.dones m))) as [Hd|Hd];
    [destruct (keep_last_in_range _ _ Hd) as (? & _ & ->)
    |rewrite (keep_last_out_of_range (Memory.dones m)) by lia]; simpl;
    [|split; [split; [intros _; lia|done]|by intros e [= <-]]].
  split; [split; [done|]|done].
  intros Hn. exfalso. apply Hn. repeat split; assumption.
Qed.

Lemma keep_last_frame {A} (field field' : list (list A)) (agent : nat) :
  Memory.keep_last field agent = Ok field' →
  length field' = length field ∧
  (∀ other, other ≠ agent → field' !! other = field !! other) ∧
  (∀ xs, field !! agent = Some xs → field' !! agent = Some (last_slice xs)).
Proof.
  rewrite keep_last_cases. destruct (field !! agent) as [xs|] eqn:Hxs; [|done].
  intros [= <-]. split_and!.
  - by rewrite length_insert.
  - intros other Hne. by rewrite list_lookup_insert_ne.
  - intros ys [= <-]. by eapply lookup_insert_here.
Qed.

Lemma clear_memory_except_last_fields (m m' : Memory.t) (agent : nat) :
  Memory.clear_memory_except_last m agent = Ok m' →
  Memory.num_agents m' = Memory.num_agents m ∧
  Memory.keep_last (Memory.actions m) agent = Ok (Memory.actions m') ∧
  Memory.keep_last (Memory.states m) agent = Ok (Memory.states m') ∧
  Memory.keep_last (Memory.logs_of_action_prob m) agent
  = Ok (Memory.logs_of_action_prob m') ∧
  Memory.keep_last (Memory.masks m) agent = Ok (Memory.masks m') ∧
  Memory.keep_last (Memory.rewards m) agent = Ok (Memory.rewards m') ∧
  Memory.keep_last (Memory.dones m) agent = Ok (Memory.dones m').
Proof.
  unfold Memory.clear_memory_except_last. intros Hclear.
  destruct (Memory.keep_last (Memory.actions m) agent); [|done].
  destruct (Memory.keep_last (Memory.states m) agent); [|done].
  destruct (Memory.keep_last (Memory.logs_of_action_prob m) agent); [|done].
  destruct (Memory.keep_last (Memory.masks m) agent); [|done].
  destruct (Memory.keep_last (Memory.rewards m) agent); [|done].
  destruct (Memory.keep_last (Memory.dones m) agent); [|done].
  simpl in Hclear. injection Hclear as <-. done.
Qed.

(** X2: [clear_memory_except_last] touches the lists of one agent only: the
    number of agents and of lists stays, and every other agent keeps its
    six lists. *)
Theorem clear_memory_except_last_frame (m m' : Memory.t) (agent other : nat) :
  Memory.clear_memory_except_last m agent = Ok m' →
  other ≠ agent →
  Memory.num_agents m' = Memory.num_agents m ∧
  length (Memory.states m') = length (Memory.states m) ∧
  Memory.actions m' !! other = Memory.actions m !! other ∧
  Memory.states m' !! other = Memory.states m !! other ∧
  Memory.logs_of_action_prob m' !! other
  = Memory.logs_of_action_prob m !! other ∧
  Memory.masks m' !! other = Memory.masks m !! other ∧
  Memory.rewards m' !! other = Memory.rewards m !! other ∧
  Memory.dones m' !! other = Memory.dones m !! other.
Proof.
  intros Hclear Hne.
  destruct (clear_memory_except_last_fields _ _ _ Hclear)
    as (Hn & Ha & Hs & Hl & Hm & Hr & Hd).
  apply keep_last_frame in Ha as (_ & Ha & _).
  apply keep_last_frame in Hs as (Hlen & Hs & _).
  apply keep_last_frame in Hl as (_ & Hl & _).
  apply keep_last_frame in Hm as (_ & Hm & _).
  apply keep_last_frame in Hr as (_ & Hr & _).
  apply keep_last_frame in Hd as (_ & Hd & _).
  split_and!; auto.
Qed.

Lemma last_slice_idem {A} (xs : list A) :
  last_slice (last_slice xs) = last_slice xs.
Proof.
  destruct (decide (1 ≤ length xs)) as [Hlen|Hlen].
  - destruct (nonempty_snoc xs Hlen) as (ys & x & -> & _).
    rewrite last_slice_snoc. done.
  - destruct xs; [done|simpl in Hlen; lia].
Qed.

Lemma keep_last_idem {A} (field field' : list (list A)) (agent : nat) :
  Memory.keep_last field agent = Ok field' →
  Memory.keep_last field' agent = Ok field'.
Proof.
  rewrite !keep_last_cases.
  destruct (field !! agent) as [xs|] eqn:Hxs; [|done]. intros [= <-].
  rewrite (lookup_insert_here _ _ _ _ Hxs).
  by rewrite list_insert_insert_eq, last_slice_idem.
Qed.

(** Clearing twice is clearing once. *)
Theorem clear_memory_except_last_idempotent (m m' : Memory.t) (agent : nat) :
  Memory.clear_memory_except_last m agent = Ok m' →
  Memory.clear_memory_except_last m' agent = Ok m'.
Proof.
  intros Hclear.
  destruct (clear_memory_except_last_fields _ _ _ Hclear)
    as (Hn & Ha & Hs & Hl & Hm & Hr & Hd).
  unfold Memory.clear_memory_except_last.
  rewrite (keep_last_idem _ _ _ Ha), (keep_last_idem _ _ _ Hs),
    (keep_last_idem _ _ _ Hl), (keep_last_idem _ _ _ Hm),
    (keep_last_idem _ _ _ Hr), (keep_last_idem _ _ _ Hd).
  simpl. by destruct m'.
Qed.

(** After [clear_memory] every agent below [num_agents] can be cleared
    except-last without an exception and nothing changes: the empty lists
    stay empty.  An agent from [num_agents] on is an [IndexError]. *)
Theorem clear_memory_then_except_last (m : Memory.t) (agent : nat) :
  (agent < Memory.num_agents m →
   Memory.clear_memory_except_last (Memory.clear_memory m) agent
   = Ok (Memory.clear_memory m)) ∧
  (Memory.num_agents m ≤ agent →
   Memory.clear_memory_except_last (Memory.clear_memory m) agent
   = Raise IndexError).
Proof.
  split; intros Hagent.
  - unfold Memory.clear_memory_except_last, Memory.clear_memory,
      Memory.__init__. simpl.
    rewrite !keep_last_cases, !lookup_replicate_2 by done. simpl.
    unfold last_slice. simpl.
    rewrite !list_insert_id by (by apply lookup_replicate_2). done.
  - unfold Memory.clear_memory_except_last, Memory.clear_memory,
      Memory.__init__. simpl.
    rewrite (keep_last_out_of_range (A:=nat))
      by (rewrite length_replicate; lia).
    reflexivity.
Qed.

End memory_more.

Section memory_more_examples.

Lemma clear_memory_except_last_frame_witness :
  ∃ m',
    Memory.clear_memory_except_last memory_two_agents 0 = Ok m' ∧
    Memory.num_agents m' = Memory.num_agents memory_two_agents ∧
    length (Memory.states m') = length (Memory.states memory_two_agents) ∧
    Memory.actions m' !! 1 = Memory.actions memory_two_agents !! 1 ∧
    Memory.states m' !! 1 = Memory.states memory_two_agents !! 1 ∧
    Memory.logs_of_action_prob m' !! 1
    = Memory.logs_of_action_prob memory_two_agents !! 1 ∧
    Memory.masks m' !! 1 = Memory.masks memory_two_agents !! 1 ∧
    Memory.rewards m' !! 1 = Memory.rewards memory_two_agents !! 1 ∧
    Memory.dones m' !! 1 = Memory.dones memory_two_agents !! 1.
Proof.
  eexists. split; [reflexivity|].
  apply (clear_memory_except_last_frame memory_two_agents _ 0 1);
    [reflexivity|lia].
Defined.

Lemma clear_memory_except_last_idempotent_witness :
  ∃ m',
    Memory.clear_memory_except_last memory_two_agents 0 = Ok m' ∧
    Memory.clear_memory_except_last m' 0 = Ok m'.
Proof.
  eexists. split; [reflexivity|].
  apply (clear_memory_except_last_idempotent memory_two_agents _ 0).
  reflexivity.
Defined.

Lemma clear_memory_then_except_last_witness :
  Memory.clear_memory_except_last (Memory.clear_memory memory_two_agents) 1
  = Ok (Memory.clear_memory memory_two_agents) ∧
  Memory.clear_memory_except_last (Memory.clear_memory memory_two_agents) 2
  = Raise IndexError.
Proof.
  split.
  - apply (clear_memory_then_except_last memory_two_agents 1). simpl. lia.
  - apply (clear_memory_then_except_last memory_two_agents 2). simpl. lia.
Defined.

End memory_more_examples.

(** ** The update call: what it does to the memory, when it raises, how
    many steps it takes *)

Section update_more.
Context `{Torch}.

Lemma pop_cases {A} (field : list (list A)) (a : nat) :
  Memory.pop field a
  = match field !! a with
    | Some xs =>
        match last xs with
        | Some x => Ok (x, <[a := but_last xs]> field)
        | None => Raise IndexError
        end
    | None => Raise IndexError
    end.
Proof.
  unfold Memory.pop, getitem, getlast.
  destruct (field !! a) as [xs|]; [|done]. simpl. by destruct (last xs).
Qed.

Lemma pop_popped {A} (field field' : list (list A)) (a : nat) (xs : list A)
    (x : A) :
  field !! a = Some xs → Memory.pop field a = Ok (x, field') →
  field' = <[a := but_last xs]> field.
Proof.
  intros Hxs. rewrite pop_cases, Hxs. destruct (last xs); [|done].
  by intros [= _ <-].
Qed.

Lemma detach_popped (memory memory' : Memory.t) (w : PsPPO.window) (a : nat)
    (acts : list nat) (sts : list (list R)) (lgs : list R)
    (mks : list (list bool)) (rws : list R) (dns : list bool) :
  PsPPO.detach memory a = Ok (memory', w) →
  Memory.actions memory !! a = Some acts →
  Memory.states memory !! a = Some sts →
  Memory.logs_of_action_prob memory !! a = Some lgs →
  Memory.masks memory !! a = Some mks →
  Memory.rewards memory !! a = Some rws →
  Memory.dones memory !! a = Some dns →
  popped memory memory' a acts sts lgs mks rws dns.
Proof.
  intros Hdet Ha Hs Hl Hm Hr Hd. unfold PsPPO.detach in Hdet.
  destruct (Memory.pop (Memory.rewards memory) a) as [[? rws']|] eqn:Pr;
    [|done]. simpl in Hdet.
  destruct (Memory.pop (Memory.dones memory) a) as [[? dns']|] eqn:Pd;
    [|done]. simpl in Hdet.
  destruct (Memory.pop (Memory.states memory) a) as [[? sts']|] eqn:Ps;
    [|done]. simpl in Hdet.
  destruct (Memory.pop (Memory.actions memory) a) as [[? acts']|] eqn:Pa;
    [|done]. simpl in Hdet.
  destruct (Memory.pop (Memory.masks memory) a) as [[? mks']|] eqn:Pm;
    [|done]. simpl in Hdet.
  destruct (Memory.pop (Memory.logs_of_action_prob memory) a)
    as [[? lgs']|] eqn:Pl; [|done]. simpl in Hdet.
  destruct (getitem sts' a ≫= PsPPO.stack); [|done]. simpl in Hdet.
  destruct (getitem acts' a ≫= PsPPO.stack); [|done]. simpl in Hdet.
  destruct (getitem mks' a ≫= PsPPO.stack); [|done]. simpl in Hdet.
  destruct (getitem lgs' a ≫= PsPPO.stack); [|done]. simpl in Hdet.
  destruct (getitem rws' a); [|done]. simpl in Hdet.
  destruct (getitem dns' a); [|done]. simpl in Hdet.
  injection Hdet as <- _. unfold popped. simpl.
  rewrite (pop_popped _ _ _ _ _ Hr Pr), (pop_popped _ _ _ _ _ Hd Pd),
    (pop_popped _ _ _ _ _ Hs Ps), (pop_popped _ _ _ _ _ Ha Pa),
    (pop_popped _ _ _ _ _ Hm Pm), (pop_popped _ _ _ _ _ Hl Pl).
  done.
Qed.

Lemma update_inv (self self' : PsPPO.t) (memory memory' : Memory.t)
    (a : nat) (history : list PsPPO.t) :
  PsPPO.update self memory a = Ok (self', memory', history) →
  ∃ w final,
    PsPPO.detach memory a = Ok (memory', w) ∧
    for_each (PsPPO.epoch w) (seq 0 (Z.to_nat (PsPPO.epochs self))) (self, [])
    = Ok (final, history) ∧
    PsPPO.sync_old final = Ok self'.
Proof.
  unfold PsPPO.update. intros Hup.
  destruct (PsPPO.detach memory a) as [[memory1 w]|]; [|done].
  cbn [mbind result_bind] in Hup.
  destruct (for_each (PsPPO.epoch w) _ _) as [[final hist]|] eqn:Hloop;
    [|done].
  cbn [mbind result_bind] in Hup.
  destruct (PsPPO.sync_old final) as [s|] eqn:Hsync; [|done].
  cbn [mbind result_bind] in Hup. injection Hup as <- <- <-.
  exists w, final. done.
Qed.

Lemma update_pops_last_transition_aux (self self' : PsPPO.t)
    (memory memory' : Memory.t) (a : nat) (history : list PsPPO.t)
    (acts : list nat) (sts : list (list R)) (lgs : list R)
    (mks : list (list bool)) (rws : list R) (dns : list bool) :
  PsPPO.update self memory a = Ok (self', memory', history) →
  Memory.actions memory !! a = Some acts →
  Memory.states memory !! a = Some sts →
  Memory.logs_of_action_prob memory !! a = Some lgs →
  Memory.masks memory !! a = Some mks →
  Memory.rewards memory !! a = Some rws →
  Memory.dones memory !! a = Some dns →
  popped memory memory' a acts sts lgs mks rws dns.
Proof.
  intros Hup Ha Hs Hl Hm Hr Hd.
  destruct (update_inv _ _ _ _ _ _ Hup) as (w & final & Hdet & _ & _).
  by eapply detach_popped.
Qed.

(** X3: [update] leaves the memory with the last transition of the agent
    removed from each of its six lists, and everything else in place. *)
Theorem update_pops_last_transition (self self' : PsPPO.t)
    (memory memory' : Memory.t) (a : nat) (history : list PsPPO.t)
    (acts : list nat) (sts : list (list R)) (lgs : list R)
    (mks : list (list bool)) (rws : list R) (dns : list bool) :
  PsPPO.update self memory a = Ok (self', memory', history) →
  Memory.actions memory !! a = Some acts →
  Memory.states memory !! a = Some sts →
  Memory.logs_of_action_prob memory !! a = Some lgs →
  Memory.masks memory !! a = Some mks →
  Memory.rewards memory !! a = Some rws →
  Memory.dones memory !! a = Some dns →
  popped memory memory' a acts sts lgs mks rws dns.
Proof.
  intros Hup Ha Hs Hl Hm Hr Hd.
  by eapply update_pops_last_transition_aux.
Qed.

Lemma last_but_last {A} (xs : list A) (n : nat) :
  length xs = S (S n) → last (but_last xs) = xs !! n.
Proof.
  intros Hlen. rewrite last_lookup, length_but_last, Hlen.
  replace (pred (S (S n) - 1)) with n by lia.
  unfold but_last. apply lookup_take_lt. lia.
Qed.

Lemma keep_last_after_pop {A} (field : list (list A)) (a n : nat)
    (xs : list A) :
  field !! a = Some xs → length xs = S (S n) →
  ∃ x, xs !! n = Some x ∧
       Memory.keep_last (<[a := but_last xs]> field) a
       = Ok (<[a := [x]]> field).
Proof.
  intros Hxs Hlen.
  destruct (keep_last_spec (<[a := but_last xs]> field) a (but_last xs))
    as (x & Hx & Hkeep).
  { by eapply lookup_insert_here. }
  { rewrite length_but_last. lia. }
  exists x. split; [by rewrite <- (last_but_last xs n Hlen)|].
  by rewrite Hkeep, list_insert_insert_eq.
Qed.

(** X4: The two calls of the training loop in a row, on six lists of at least
    two transitions: after [update] and [clear_memory_except_last] each
    list of the agent holds one element, the one before the last it held
    when [update] was called.  The last one, the bootstrap transition that
    [update] pops, is not kept. *)
Theorem update_then_clear_keeps_penultimate (self self' : PsPPO.t)
    (memory memory' : Memory.t) (a n : nat) (history : list PsPPO.t)
    (acts : list nat) (sts : list (list R)) (lgs : list R)
    (mks : list (list bool)) (rws : list R) (dns : list bool) :
  PsPPO.update self memory a = Ok (self', memory', history) →
  Memory.actions memory !! a = Some acts →
  Memory.states memory !! a = Some sts →
  Memory.logs_of_action_prob memory !! a = Some lgs →
  Memory.masks memory !! a = Some mks →
  Memory.rewards memory !! a = Some rws →
  Memory.dones memory !! a = Some dns →
  length acts = S (S n) → length sts = S (S n) → length lgs = S (S n) →
  length mks = S (S n) → length rws = S (S n) → length dns = S (S n) →
  ∃ m'' act st lg mk rw dn,
    Memory.clear_memory_except_last memory' a = Ok m'' ∧
    acts !! n = Some act ∧ Memory.actions m'' !! a = Some [act] ∧
    sts !! n = Some st ∧ Memory.states m'' !! a = Some [st] ∧
    lgs !! n = Some lg ∧ Memory.logs_of_action_prob m'' !! a = Some [lg] ∧
    mks !! n = Some mk ∧ Memory.masks m'' !! a = Some [mk] ∧
    rws !! n = Some rw ∧ Memory.rewards m'' !! a = Some [rw] ∧
    dns !! n = Some dn ∧ Memory.dones m'' !! a = Some [dn].
Proof.
  intros Hup Ha Hs Hl Hm Hr Hd La Ls Ll Lm Lr Ld.
  destruct (update_pops_last_transition_aux self self' memory memory' a
              history acts sts lgs mks rws dns Hup Ha Hs Hl Hm Hr Hd)
    as (_ & Pa & Ps & Pl & Pm & Pr & Pd).
  destruct (keep_last_after_pop _ a n _ Ha La) as (act & Hact & Ka).
  destruct (keep_last_after_pop _ a n _ Hs Ls) as (st & Hst & Ks).
  destruct (keep_last_after_pop _ a n _ Hl Ll) as (lg & Hlg & Kl).
  destruct (keep_last_after_pop _ a n _ Hm Lm) as (mk & Hmk & Km).
  destruct (keep_last_after_pop _ a n _ Hr Lr) as (rw & Hrw & Kr).
  destruct (keep_last_after_pop _ a n _ Hd Ld) as (dn & Hdn & Kd).
  eexists _, act, st, lg, mk, rw, dn.
  unfold Memory.clear_memory_except_last.
  rewrite Pa, Ps, Pl, Pm, Pr, Pd, Ka, Ks, Kl, Km, Kr, Kd. simpl.
  split; [reflexivity|].
  repeat split; try done; by eapply lookup_insert_here.
Qed.

End update_more.

Section update_edges.
Context `{Torch}.

(** X5: [update] starts with [memory.rewards[a].pop()]: an agent that is no
    index of the rewards, or one with no reward stored, is an
    [IndexError], whatever else the memory and the trainer hold. *)
Theorem update_index_error (self : PsPPO.t) (memory : Memory.t) (a : nat) :
  length (Memory.rewards memory) ≤ a ∨ Memory.rewards memory !! a = Some [] →
  PsPPO.update self memory a = Raise IndexError.
Proof.
  intros Hcase. unfold PsPPO.update, PsPPO.detach.
  rewrite (pop_cases (Memory.rewards memory)).
  destruct Hcase as [Hge | Hempty].
  - rewrite (lookup_ge_None_2 (Memory.rewards memory) a Hge). reflexivity.
  - rewrite Hempty. reflexivity.
Qed.

Lemma detach_in_place_returns (memory : Memory.t) (a horizon : nat)
    (acts : list nat) (sts : list (list R)) (lgs : list R)
    (mks : list (list bool)) (rws : list R) (dns : list bool) :
  Memory.actions memory !! a = Some acts →
  Memory.states memory !! a = Some sts →
  Memory.logs_of_action_prob memory !! a = Some lgs →
  Memory.masks memory !! a = Some mks →
  Memory.rewards memory !! a = Some rws →
  Memory.dones memory !! a = Some dns →
  length acts = S horizon → length sts = S horizon →
  length lgs = S horizon → length mks = S horizon →
  length rws = S horizon → length dns = S horizon →
  1 ≤ horizon →
  ∃ memory' w,
    PsPPO.detach_in_place memory a = (memory', Ok w) ∧
    popped memory memory' a acts sts lgs mks rws dns.
Proof.
  intros Ha Hs Hl Hm Hr Hd La Ls Ll Lm Lr Ld Hh.
  destruct (detach_spec memory a horizon acts sts lgs mks rws dns)
    as (memory' & w & Hdet & _); try done.
  exists memory', w. split.
  - rewrite detach_in_place_result in Hdet.
    destruct (PsPPO.detach_in_place memory a) as [m [w'|e]]; [|done].
    cbn in Hdet. by injection Hdet as -> ->.
  - by eapply detach_popped.
Qed.

(** X6: On a buffer that holds a single transition the six pops empty the
    six lists of the agent and leave nothing to stack: [update] raises the
    [RuntimeError] of [torch.stack] before any call of the estimator, and
    the memory stays popped. *)
Theorem update_single_transition (self : PsPPO.t) (memory : Memory.t)
    (a : nat) (act : nat) (st : list R) (lg : R) (mk : list bool) (rw : R)
    (dn : bool) :
  Memory.actions memory !! a = Some [act] →
  Memory.states memory !! a = Some [st] →
  Memory.logs_of_action_prob memory !! a = Some [lg] →
  Memory.masks memory !! a = Some [mk] →
  Memory.rewards memory !! a = Some [rw] →
  Memory.dones memory !! a = Some [dn] →
  PsPPO.update self memory a = Raise RuntimeError ∧
  ∃ memory',
    PsPPO.traced_update self memory a = (memory', [], Raise RuntimeError) ∧
    Memory.num_agents memory' = Memory.num_agents memory ∧
    Memory.actions memory' = <[a := []]> (Memory.actions memory) ∧
    Memory.states memory' = <[a := []]> (Memory.states memory) ∧
    Memory.logs_of_action_prob memory'
    = <[a := []]> (Memory.logs_of_action_prob memory) ∧
    Memory.masks memory' = <[a := []]> (Memory.masks memory) ∧
    Memory.rewards memory' = <[a := []]> (Memory.rewards memory) ∧
    Memory.dones memory' = <[a := []]> (Memory.dones memory).
Proof.
  intros Ha Hs Hl Hm Hr Hd.
  assert (Hplace : PsPPO.detach_in_place memory a
    = (Memory.Make (Memory.num_agents memory)
         (<[a := []]> (Memory.actions memory))
         (<[a := []]> (Memory.states memory))
         (<[a := []]> (Memory.logs_of_action_prob memory))
         (<[a := []]> (Memory.masks memory))
         (<[a := []]> (Memory.rewards memory))
         (<[a := []]> (Memory.dones memory)),
       Raise RuntimeError)).
  { unfold PsPPO.detach_in_place. cbv zeta.
    rewrite !pop_cases, Hr, Hd, Hs, Ha, Hm, Hl. cbn.
    by rewrite (getitem_popped _ _ _ _ Hs). }
  split.
  - rewrite traced_update_result. unfold PsPPO.traced_update.
    by rewrite Hplace.
  - eexists. unfold PsPPO.traced_update. rewrite Hplace.
    split; [reflexivity|]. done.
Qed.

Lemma for_each_first_raises {A S} (body : A → S → result S) (x : A)
    (rest : list A) (s : S) (e : error) :
  body x s = Raise e → for_each body (x :: rest) s = Raise e.
Proof. intros Hb. simpl. by rewrite Hb. Qed.

(** X7: With a batch size of zero the first epoch cannot form its range:
    on a buffer of at least two transitions and with at least one epoch,
    [update] raises [ValueError] before any call of the estimator, and
    after the six pops: the memory is left with the last transition of the
    agent popped from each of its six lists. *)
Theorem update_zero_batch_size (self : PsPPO.t) (memory : Memory.t)
    (a horizon : nat)
    (acts : list nat) (sts : list (list R)) (lgs : list R)
    (mks : list (list bool)) (rws : list R) (dns : list bool) :
  Memory.actions memory !! a = Some acts →
  Memory.states memory !! a = Some sts →
  Memory.logs_of_action_prob memory !! a = Some lgs →
  Memory.masks memory !! a = Some mks →
  Memory.rewards memory !! a = Some rws →
  Memory.dones memory !! a = Some dns →
  length acts = S horizon → length sts = S horizon →
  length lgs = S horizon → length mks = S horizon →
  length rws = S horizon → length dns = S horizon →
  1 ≤ horizon →
  PsPPO.batch_size self = 0%Z →
  (0 < PsPPO.epochs self)%Z →
  PsPPO.update self memory a = Raise ValueError ∧
  ∃ memory',
    PsPPO.traced_update self memory a = (memory', [], Raise ValueError) ∧
    popped memory memory' a acts sts lgs mks rws dns.
Proof.
  intros Ha Hs Hl Hm Hr Hd La Ls Ll Lm Lr Ld Hh Hbs Hep.
  destruct (detach_in_place_returns memory a horizon acts sts lgs mks rws dns)
    as (memory' & w & Hplace & Hpopped); try done.
  assert (Hrun : PsPPO.traced_update self memory a
                 = (memory', [], Raise ValueError)).
  { unfold PsPPO.traced_update. rewrite Hplace.
    destruct (Z.to_nat (PsPPO.epochs self)) as [|k] eqn:Hk; [lia|].
    cbn [seq PsPPO.traced_for_each].
    unfold PsPPO.traced_epoch, range_step. cbn [fst]. rewrite Hbs.
    rewrite decide_True by done. reflexivity. }
  split.
  - rewrite traced_update_result. by rewrite Hrun.
  - by exists memory'.
Qed.

Lemma epoch_without_batches (w : PsPPO.window) (i : nat)
    (s : PsPPO.logged) :
  (PsPPO.batch_size s.1 < 0)%Z → PsPPO.epoch w i s = Ok s.
Proof.
  intros Hbs. unfold PsPPO.epoch, range_step.
  destruct (decide (PsPPO.batch_size s.1 = 0)%Z); [lia|].
  destruct (decide (PsPPO.batch_size s.1 < 0)%Z); [|lia].
  reflexivity.
Qed.

Lemma epochs_without_batches (w : PsPPO.window) (es : list nat)
    (s : PsPPO.logged) :
  (PsPPO.batch_size s.1 < 0)%Z → for_each (PsPPO.epoch w) es s = Ok s.
Proof.
  intros Hbs. induction es as [|i rest IH]; [done|].
  cbn [for_each]. rewrite epoch_without_batches by done. exact IH.
Qed.

Lemma sync_old_frame (self self' : PsPPO.t) :
  PsPPO.sync_old self = Ok self' →
  same_hyper self self' ∧
  PsPPO.policy self' = PsPPO.policy self ∧
  PsPPO.optimizer self' = PsPPO.optimizer self ∧
  PsPPO.loss self' = PsPPO.loss self ∧
  PsPPOPolicy.parameters (PsPPO.policy_old self')
  = PsPPOPolicy.parameters (PsPPO.policy self) ∧
  PsPPOPolicy.critic_network (PsPPO.policy_old self')
  = PsPPOPolicy.critic_network (PsPPO.policy_old self) ∧
  PsPPOPolicy.actor_network (PsPPO.policy_old self')
  = PsPPOPolicy.actor_network (PsPPO.policy_old self).
Proof.
  unfold PsPPO.sync_old, PsPPOPolicy.load_state_dict. intros Hsync.
  destruct (decide _); [|done]. simpl in Hsync. injection Hsync as <-.
  unfold same_hyper. simpl. done.
Qed.

(** Without an epoch to run, or with a negative batch size (an empty
    range of batch starts), [update] takes no optimizer step: the history
    is empty, the current policy, the optimizer and the loss are the ones
    it was called with, and the old policy receives the parameters of the
    current one. *)
Theorem update_without_steps (self self' : PsPPO.t)
    (memory memory' : Memory.t) (a : nat) (history : list PsPPO.t) :
  (PsPPO.epochs self ≤ 0)%Z ∨ (PsPPO.batch_size self < 0)%Z →
  PsPPO.update self memory a = Ok (self', memory', history) →
  history = [] ∧
  PsPPO.policy self' = PsPPO.policy self ∧
  PsPPO.optimizer self' = PsPPO.optimizer self ∧
  PsPPO.loss self' = PsPPO.loss self ∧
  PsPPOPolicy.parameters (PsPPO.policy_old self')
  = PsPPOPolicy.parameters (PsPPO.policy self).
Proof.
  intros Hcase Hup.
  destruct (update_inv _ _ _ _ _ _ Hup) as (w & final & _ & Hloop & Hsync).
  assert (Hfinal : (final, history) = (self, [])).
  { destruct Hcase as [Hep | Hbs].
    - replace (Z.to_nat (PsPPO.epochs self)) with 0 in Hloop by lia.
      simpl in Hloop. by injection Hloop as <- <-.
    - rewrite epochs_without_batches in Hloop by done.
      by injection Hloop as <- <-. }
  injection Hfinal as -> ->.
  destruct (sync_old_frame _ _ Hsync) as (_ & Hp & Ho & Hl & Hold & _).
  done.
Qed.

End update_edges.

Section update_count.
Context `{Torch}.

Lemma same_hyper_refl (self : PsPPO.t) : same_hyper self self.
Proof. unfold same_hyper. done. Qed.

Lemma same_hyper_trans (s1 s2 s3 : PsPPO.t) :
  same_hyper s1 s2 → same_hyper s2 s3 → same_hyper s1 s3.
Proof.
  unfold same_hyper.
  intros (?&?&?&?&?&?&?&?&?&?&?) (?&?&?&?&?&?&?&?&?&?&?).
  split_and!; congruence.
Qed.

Lemma minibatch_step_hyper (w : PsPPO.window) (b : nat)
    (self self' : PsPPO.t) :
  PsPPO.minibatch_step w b self = Ok self' → same_hyper self self'.
Proof.
  unfold PsPPO.minibatch_step. intros Hstep.
  destruct (PsPPO.eval_inputs _ _ _) as [[states actions] masks].
  destruct (PsPPOPolicy.evaluate _ _ _ _) as [[[logs v] ent]|]; [|done].
  simpl in Hstep. destruct (broadcast _ _ _) as [ratio|]; [|done].
  simpl in Hstep.
  destruct (PsPPO._get_advs _ _ _ _) as [adv|]; [|done]. simpl in Hstep.
  destruct (backward_step _ _ _ _ _ _ _ _ _) as [[[theta opt] l]|]; [|done].
  simpl in Hstep. injection Hstep as <-. unfold same_hyper. done.
Qed.

Lemma epochs_hyper (self0 : PsPPO.t) (w : PsPPO.window) (es : list nat)
    (s s' : PsPPO.logged) :
  same_hyper self0 s.1 →
  for_each (PsPPO.epoch w) es s = Ok s' → same_hyper self0 s'.1.
Proof.
  intros Hs Hrun.
  eapply (for_each_invariant (λ s, same_hyper self0 s.1)); [|done|done].
  clear. intros i s1 s2 Hepoch Hs1. unfold PsPPO.epoch in Hepoch.
  destruct (range_step _ _) as [starts|]; [|done]. simpl in Hepoch.
  eapply (for_each_invariant (λ s, same_hyper self0 s.1)); [|done|done].
  clear. intros b s1 s2 Hstep Hs1. unfold PsPPO.logged_step in Hstep.
  destruct (PsPPO.minibatch_step w b s1.1) as [self1|] eqn:Hmb; [|done].
  simpl in Hstep. injection Hstep as <-. simpl.
  eapply same_hyper_trans; [done|]. by eapply minibatch_step_hyper.
Qed.

Lemma detach_old_states (memory memory' : Memory.t) (w : PsPPO.window)
    (a : nat) (sts : list (list R)) :
  PsPPO.detach memory a = Ok (memory', w) →
  Memory.states memory !! a = Some sts →
  PsPPO.old_states w = but_last sts.
Proof.
  intros Hdet Hs. unfold PsPPO.detach in Hdet.
  destruct (Memory.pop (Memory.rewards memory) a) as [[? rws']|]; [|done].
  simpl in Hdet.
  destruct (Memory.pop (Memory.dones memory) a) as [[? dns']|]; [|done].
  simpl in Hdet.
  destruct (Memory.pop (Memory.states memory) a) as [[? sts']|] eqn:Ps;
    [|done]. simpl in Hdet.
  destruct (Memory.pop (Memory.actions memory) a) as [[? acts']|]; [|done].
  simpl in Hdet.
  destruct (Memory.pop (Memory.masks memory) a) as [[? mks']|]; [|done].
  simpl in Hdet.
  destruct (Memory.pop (Memory.logs_of_action_prob memory) a)
    as [[? lgs']|]; [|done]. simpl in Hdet.
  rewrite (pop_popped _ _ _ _ _ Hs Ps) in Hdet.
  rewrite (getitem_popped _ _ _ _ Hs) in Hdet. simpl in Hdet.
  destruct (PsPPO.stack (but_last sts)) as [old|] eqn:Hstack; [|done].
  simpl in Hdet.
  destruct (getitem acts' a ≫= PsPPO.stack); [|done]. simpl in Hdet.
  destruct (getitem mks' a ≫= PsPPO.stack); [|done]. simpl in Hdet.
  destruct (getitem lgs' a ≫= PsPPO.stack); [|done]. simpl in Hdet.
  destruct (getitem rws' a); [|done]. simpl in Hdet.
  destruct (getitem dns' a); [|done]. simpl in Hdet.
  injection Hdet as _ <-. simpl.
  unfold PsPPO.stack in Hstack. destruct (but_last sts); [done|].
  by injection Hstack as <-.
Qed.

(** X8: An [update] call that returns, over [horizon + 1] stored
    transitions and with a positive batch size, has taken exactly
    [epochs * ceil(horizon / batch_size)] optimizer steps, and no
    hyperparameter of the trainer has changed. *)
Theorem update_step_count (self self' : PsPPO.t)
    (memory memory' : Memory.t) (a horizon : nat) (history : list PsPPO.t)
    (sts : list (list R)) :
  PsPPO.update self memory a = Ok (self', memory', history) →
  Memory.states memory !! a = Some sts →
  length sts = S horizon →
  (0 < PsPPO.batch_size self)%Z →
  length history
  = Z.to_nat (PsPPO.epochs self)
    * ((horizon + Z.to_nat (PsPPO.batch_size self) - 1)
       / Z.to_nat (PsPPO.batch_size self)) ∧
  same_hyper self self'.
Proof.
  intros Hup Hs Hlen Hbs.
  destruct (update_inv _ _ _ _ _ _ Hup) as (w & final & Hdet & Hloop & Hsync).
  assert (Hn : length (PsPPO.old_states w) = horizon).
  { rewrite (detach_old_states _ _ _ _ _ Hdet Hs), length_but_last. lia. }
  assert (Hinit : loop_invariant self (self, [])).
  { unfold loop_invariant. simpl. done. }
  split.
  - assert (Hrange :
      range_step (length (PsPPO.old_states w)) (PsPPO.batch_size self)
      = Ok ((λ i, i * Z.to_nat (PsPPO.batch_size self))
            <$> seq 0 ((horizon + Z.to_nat (PsPPO.batch_size self) - 1)
                       / Z.to_nat (PsPPO.batch_size self)))).
    { unfold range_step. rewrite !decide_False by lia. by rewrite Hn. }
    pose proof (epochs_length self w _ _ _ _ Hrange Hinit Hloop) as Hcount.
    simpl in Hcount. by rewrite length_seq, length_fmap, length_seq in Hcount.
  - eapply same_hyper_trans.
    + apply (epochs_hyper self w (seq 0 (Z.to_nat (PsPPO.epochs self)))
               (self, []) (final, history));
        [apply same_hyper_refl|done].
    + by apply sync_old_frame.
Qed.

End update_count.

Section update_more_examples.

(** Closes a goal under the hypothesis that a concrete call raised, by
    running the call far enough to see that it returns. *)
Ltac by_running_update Hraise :=
  match type of Hraise with
  | ?call = Raise _ =>
      assert (Hreturns : match call with Ok _ => True | Raise _ => False end)
        by (vm_compute; exact I);
      rewrite Hraise in Hreturns; exact Hreturns
  end.

Lemma update_pops_last_transition_witness :
  ∃ self' memory' history,
    PsPPO.update (toy_trainer true 0.95 2 2) memory_two_agents 0
    = Ok (self', memory', history) ∧
    popped memory_two_agents memory' 0
      [0; 1; 1] [[0.5; 0]; [0.25; 0]; [1; 0]]%R [-1; -2; -3]%R
      [[true; true]; [true; false]; [false; true]]
      [1; 0; -1]%R [false; false; true].
Proof.
  destruct (PsPPO.update (toy_trainer true 0.95 2 2) memory_two_agents 0)
    as [[[self' memory'] history]|e] eqn:Hupdate.
  - exists self', memory', history. split; [reflexivity|].
    apply (update_pops_last_transition _ _ _ _ _ _ _ _ _ _ _ _ Hupdate);
      reflexivity.
  - exfalso. by_running_update Hupdate.
Defined.

Lemma update_then_clear_keeps_penultimate_witness :
  ∃ self' memory' history,
    PsPPO.update (toy_trainer true 0.95 2 2) memory_two_agents 0
    = Ok (self', memory', history) ∧
    ∃ m'' act st lg mk rw dn,
      Memory.clear_memory_except_last memory' 0 = Ok m'' ∧
      [0; 1; 1] !! 1 = Some act ∧ Memory.actions m'' !! 0 = Some [act] ∧
      [[0.5; 0]; [0.25; 0]; [1; 0]]%R !! 1 = Some st ∧
      Memory.states m'' !! 0 = Some [st] ∧
      [-1; -2; -3]%R !! 1 = Some lg ∧
      Memory.logs_of_action_prob m'' !! 0 = Some [lg] ∧
      [[true; true]; [true; false]; [false; true]] !! 1 = Some mk ∧
      Memory.masks m'' !! 0 = Some [mk] ∧
      [1; 0; -1]%R !! 1 = Some rw ∧ Memory.rewards m'' !! 0 = Some [rw] ∧
      [false; false; true] !! 1 = Some dn ∧
      Memory.dones m'' !! 0 = Some [dn].
Proof.
  destruct (PsPPO.update (toy_trainer true 0.95 2 2) memory_two_agents 0)
    as [[[self' memory'] history]|e] eqn:Hupdate.
  - exists self', memory', history. split; [reflexivity|].
    apply (update_then_clear_keeps_penultimate _ _ _ _ 0 1 _ _ _ _ _ _ _
             Hupdate); reflexivity.
  - exfalso. by_running_update Hupdate.
Defined.

Lemma update_index_error_witness :
  PsPPO.update (toy_trainer true 0.95 2 2) memory_two_agents 2
  = Raise IndexError ∧
  PsPPO.update (toy_trainer true 0.95 2 2) (Memory.__init__ 2) 0
  = Raise IndexError.
Proof.
  split.
  - apply update_index_error. left. simpl. lia.
  - apply update_index_error. right. reflexivity.
Defined.

Lemma update_single_transition_witness :
  PsPPO.update (toy_trainer true 0.95 2 2) memory_two_agents 1
  = Raise RuntimeError ∧
  ∃ memory',
    PsPPO.traced_update (toy_trainer true 0.95 2 2) memory_two_agents 1
    = (memory', [], Raise RuntimeError) ∧
    Memory.num_agents memory' = Memory.num_agents memory_two_agents ∧
    Memory.actions memory' = <[1 := []]> (Memory.actions memory_two_agents) ∧
    Memory.states memory' = <[1 := []]> (Memory.states memory_two_agents) ∧
    Memory.logs_of_action_prob memory'
    = <[1 := []]> (Memory.logs_of_action_prob memory_two_agents) ∧
    Memory.masks memory' = <[1 := []]> (Memory.masks memory_two_agents) ∧
    Memory.rewards memory' = <[1 := []]> (Memory.rewards memory_two_agents) ∧
    Memory.dones memory' = <[1 := []]> (Memory.dones memory_two_agents).
Proof.
  apply (update_single_transition _ memory_two_agents 1
           0 [0; 1]%R (-4)%R [true; true] 2%R false); reflexivity.
Defined.

Lemma update_zero_batch_size_witness :
  PsPPO.update (toy_trainer true 0.95 2 0) memory_two_agents 0
  = Raise ValueError ∧
  ∃ memory',
    PsPPO.traced_update (toy_trainer true 0.95 2 0) memory_two_agents 0
    = (memory', [], Raise ValueError) ∧
    popped memory_two_agents memory' 0
      [0; 1; 1] [[0.5; 0]; [0.25; 0]; [1; 0]]%R [-1; -2; -3]%R
      [[true; true]; [true; false]; [false; true]]
      [1; 0; -1]%R [false; false; true].
Proof.
  apply (update_zero_batch_size (toy_trainer true 0.95 2 0)
           memory_two_agents 0 2
           [0; 1; 1] [[0.5; 0]; [0.25; 0]; [1; 0]]%R [-1; -2; -3]%R
           [[true; true]; [true; false]; [false; true]]
           [1; 0; -1]%R [false; false; true]);
    first [reflexivity | simpl; lia].
Defined.

Lemma update_without_steps_witness :
  ∃ self' memory' history,
    PsPPO.update (toy_trainer true 0.95 0 1) memory_two_agents 0
    = Ok (self', memory', history) ∧
    history = [] ∧
    PsPPO.policy self' = PsPPO.policy (toy_trainer true 0.95 0 1) ∧
    PsPPO.optimizer self' = PsPPO.optimizer (toy_trainer true 0.95 0 1) ∧
    PsPPO.loss self' = PsPPO.loss (toy_trainer true 0.95 0 1) ∧
    PsPPOPolicy.parameters (PsPPO.policy_old self')
    = PsPPOPolicy.parameters (PsPPO.policy (toy_trainer true 0.95 0 1)).
Proof.
  destruct (PsPPO.update (toy_trainer true 0.95 0 1) memory_two_agents 0)
    as [[[self' memory'] history]|e] eqn:Hupdate.
  - exists self', memory', history. split; [reflexivity|].
    apply (update_without_steps (toy_trainer true 0.95 0 1) self'
             memory_two_agents memory' 0 history);
      [left; simpl; lia | exact Hupdate].
  - exfalso. by_running_update Hupdate.
Defined.

Lemma update_step_count_witness :
  ∃ self' memory' history,
    PsPPO.update (toy_trainer true 0.95 2 2) memory_two_agents 0
    = Ok (self', memory', history) ∧
    length history = Z.to_nat 2 * ((2 + Z.to_nat 2 - 1) / Z.to_nat 2) ∧
    same_hyper (toy_trainer true 0.95 2 2) self'.
Proof.
  destruct (PsPPO.update (toy_trainer true 0.95 2 2) memory_two_agents 0)
    as [[[self' memory'] history]|e] eqn:Hupdate.
  - exists self', memory', history. split; [reflexivity|].
    apply (update_step_count _ _ _ _ 0 2 _
             [[0.5; 0]; [0.25; 0]; [1; 0]]%R Hupdate);
      first [reflexivity | simpl; lia].
  - exfalso. by_running_update Hupdate.
Defined.

End update_more_examples.

(** ** The advantage estimator: exceptions, terminal steps, lengths that
    are not checked *)

Section advantage_more.
Local Open Scope R_scope.
Context `{Torch}.

Lemma getitem_cases {A} (xs : list A) (i : nat) :
  (∃ x, xs !! i = Some x ∧ getitem xs i = Ok x) ∨
  ((length xs ≤ i)%nat ∧ getitem xs i = Raise IndexError).
Proof.
  unfold getitem. destruct (xs !! i) as [x|] eqn:Hx.
  - left. by exists x.
  - right. split; [by apply lookup_ge_None|done].
Qed.

Lemma getitem_in_range {A} (xs : list A) (i : nat) :
  (i < length xs)%nat → ∃ x, getitem xs i = Ok x.
Proof.
  intros Hi. destruct (getitem_cases xs i) as [(x & _ & ->)|[? _]];
    [by exists x|lia].
Qed.

Lemma getitem_out_of_range {A} (xs : list A) (i : nat) :
  (length xs ≤ i)%nat → getitem xs i = Raise IndexError.
Proof.
  intros Hi. destruct (getitem_cases xs i) as [(x & Hx & _)|[_ ->]]; [|done].
  apply lookup_lt_Some in Hx. lia.
Qed.

Lemma gae_loop_returns (gamma lam : R) (rewards nds values : list R)
    (k : nat) (gaes : list R) (fut : R) :
  (k ≤ length rewards)%nat → (k + 1 ≤ length values)%nat →
  (k ≤ length nds)%nat →
  ∃ adv, PsPPO.gae_loop gamma lam rewards nds values k gaes fut = Ok adv.
Proof.
  revert gaes fut. induction k as [|t IH]; intros gaes fut Hr Hv Hn.
  - by eexists.
  - cbn [PsPPO.gae_loop].
    destruct (getitem_in_range rewards t ltac:(lia)) as [r ->].
    destruct (getitem_in_range values (S t) ltac:(lia)) as [v1 ->].
    destruct (getitem_in_range nds t ltac:(lia)) as [nd ->].
    destruct (getitem_in_range values t ltac:(lia)) as [v0 ->].
    cbn [mbind result_bind]. apply IH; lia.
Qed.

Lemma gae_loop_short_dones (gamma lam : R) (rewards nds values : list R)
    (k : nat) (gaes : list R) (fut : R) :
  (k ≤ length rewards)%nat → (k + 1 ≤ length values)%nat →
  (length nds < k)%nat →
  PsPPO.gae_loop gamma lam rewards nds values k gaes fut = Raise IndexError.
Proof.
  intros Hr Hv Hn. destruct k as [|t]; [lia|]. cbn [PsPPO.gae_loop].
  destruct (getitem_in_range rewards t ltac:(lia)) as [r ->].
  destruct (getitem_in_range values (S t) ltac:(lia)) as [v1 ->].
  rewrite (getitem_out_of_range nds t) by lia. reflexivity.
Qed.

Lemma nstep_loop_returns (gamma : R) (rewards nds : list R)
    (k : nat) (returns : list R) (fut : R) :
  (k ≤ length rewards)%nat → (k ≤ length nds)%nat →
  ∃ G, PsPPO.nstep_loop gamma rewards nds k returns fut = Ok G ∧
       length G = length returns.
Proof.
  revert returns fut. induction k as [|t IH]; intros returns fut Hr Hn.
  - by eexists.
  - cbn [PsPPO.nstep_loop].
    destruct (getitem_in_range rewards t ltac:(lia)) as [r ->].
    destruct (getitem_in_range nds t ltac:(lia)) as [nd ->].
    cbn [mbind result_bind].
    destruct (IH (<[t := r + gamma * fut * nd]> returns)
                 (r + gamma * fut * nd) ltac:(lia) ltac:(lia))
      as (G & -> & HG).
    exists G. split; [done|]. by rewrite HG, length_insert.
Qed.

Lemma nstep_loop_short_dones (gamma : R) (rewards nds : list R)
    (k : nat) (returns : list R) (fut : R) :
  (k ≤ length rewards)%nat → (length nds < k)%nat →
  PsPPO.nstep_loop gamma rewards nds k returns fut = Raise IndexError.
Proof.
  intros Hr Hn. destruct k as [|t]; [lia|]. cbn [PsPPO.nstep_loop].
  destruct (getitem_in_range rewards t ltac:(lia)) as [r ->].
  rewrite (getitem_out_of_range nds t) by lia. reflexivity.
Qed.

(** X9: The exceptions of the GAE branch: an [AssertionError] exactly when
    the values are not one more than the rewards, an [IndexError] exactly
    when the lengths pass the assertion and the done-flags are fewer than
    the rewards, and no other. *)
Theorem gae_branch_exceptions (self : PsPPO.t) (rewards : list R)
    (dones : list bool) (v : values) :
  PsPPO.gae self = true →
  (PsPPO._get_advs self rewards dones v = Raise AssertionError
   ↔ (length rewards + 1)%nat ≠ length (entries v)) ∧
  (PsPPO._get_advs self rewards dones v = Raise IndexError
   ↔ (length rewards + 1)%nat = length (entries v)
     ∧ (length dones < length rewards)%nat) ∧
  (∀ e, PsPPO._get_advs self rewards dones v = Raise e →
        e = AssertionError ∨ e = IndexError).
Proof.
  intros Hgae. unfold PsPPO._get_advs. rewrite Hgae.
  destruct (decide (length rewards + 1 = length (entries v))%nat)
    as [Hlen|Hlen].
  - destruct (decide (length dones < length rewards)%nat) as [Hd|Hd].
    + rewrite gae_loop_short_dones;
        [|lia|lia|by rewrite length_fmap].
      cbn [mbind result_bind]. split_and!.
      * split; [done|intros ?; done].
      * split; [done|done].
      * intros e [= <-]. by right.
    + destruct (gae_loop_returns (PsPPO.discount_factor self)
                  (PsPPO.lmbda self) rewards (PsPPO.not_done <$> dones)
                  (entries v) (length rewards)
                  (replicate (length rewards) 0) 0) as [adv ->];
        [lia|lia|rewrite length_fmap; lia|].
      cbn [mbind result_bind]. split_and!.
      * split; [done|intros ?; done].
      * split; [done|intros [_ ?]; lia].
      * done.
  - split_and!.
    + split; [done|done].
    + split; [done|intros [? _]; done].
    + intros e [= <-]. by left.
Qed.

Lemma broadcast_cases {A B C} (f : A → B → C) (a : list A) (b : list B) :
  (broadcastable (length a) (length b) = true ∧
   ∃ c, broadcast f a b = Ok c) ∨
  (broadcastable (length a) (length b) = false ∧
   broadcast f a b = Raise RuntimeError).
Proof.
  unfold broadcast, broadcastable.
  destruct (decide (length a = length b)) as [Heq|Hne].
  - left. rewrite bool_decide_eq_true_2 by done. split; [done|by eexists].
  - rewrite (bool_decide_eq_false_2 (length a = length b)) by done.
    destruct b as [|y [|y' b']].
    + destruct a as [|x [|x' a']]; simpl in *; [done|left|right]; try done.
      split; [done|by eexists].
    + left. rewrite orb_true_r. split; [done|].
      destruct a as [|x [|x' a']]; by eexists.
    + destruct a as [|x [|x' a']]; simpl in *; [right|left|right]; try done.
      split; [done|by eexists].
Qed.

(** X10: The exceptions of the n-step branch, which asserts nothing about
    lengths: an [IndexError] exactly when there is no value at all or the
    done-flags are fewer than the rewards; a [RuntimeError] exactly when
    the values are one-dimensional and the returns do not broadcast against
    all values but the last; no other.  Against a column of values nothing
    is ever raised for a length. *)
Theorem nstep_branch_exceptions (self : PsPPO.t) (rewards : list R)
    (dones : list bool) (v : values) :
  PsPPO.gae self = false →
  (PsPPO._get_advs self rewards dones v = Raise IndexError
   ↔ entries v = [] ∨ (length dones < length rewards)%nat) ∧
  (PsPPO._get_advs self rewards dones v = Raise RuntimeError
   ↔ entries v ≠ [] ∧ (length rewards ≤ length dones)%nat ∧
     column v = false ∧
     broadcastable (length rewards) (length (entries v) - 1) = false) ∧
  (∀ e, PsPPO._get_advs self rewards dones v = Raise e →
        e = IndexError ∨ e = RuntimeError).
Proof.
  intros Hgae. unfold PsPPO._get_advs. rewrite Hgae.
  destruct (last (entries v)) as [seed|] eqn:Hlast.
  2:{ apply last_None in Hlast. unfold getlast. rewrite Hlast. simpl.
      split_and!.
      - split; [by left|done].
      - split; [done|intros [? _]; done].
      - intros e [= <-]. by left. }
  assert (Hne : entries v ≠ []).
  { intros Hnil. by rewrite Hnil in Hlast. }
  unfold getlast. rewrite Hlast. cbn [mbind result_bind].
  destruct (decide (length dones < length rewards)%nat) as [Hd|Hd].
  { rewrite nstep_loop_short_dones; [|lia|by rewrite length_fmap].
    cbn [mbind result_bind]. split_and!.
    - split; [by right|done].
    - split; [done|intros (_ & ? & _); lia].
    - intros e [= <-]. by left. }
  destruct (nstep_loop_returns (PsPPO.discount_factor self) rewards
              (PsPPO.not_done <$> dones) (length rewards)
              (replicate (length rewards) 0) seed) as (G & -> & HG);
    [lia|rewrite length_fmap; lia|].
  rewrite length_replicate in HG.
  cbn [mbind result_bind]. unfold PsPPO.sub_values.
  destruct (column v) eqn:Hcol.
  { split_and!.
    - split; [done|intros [?|?]; [done|lia]].
    - split; [done|intros (_ & _ & ? & _); done].
    - done. }
  destruct (broadcast_cases Rminus G (but_last (entries v)))
    as [[Hb [d ->]]|[Hb ->]];
    rewrite HG, length_but_last in Hb; cbn [mbind result_bind].
  - split_and!.
    + split; [done|intros [?|?]; [done|lia]].
    + split; [done|]. intros (_ & _ & _ & Hb'). congruence.
    + done.
  - split_and!.
    + split; [done|intros [?|?]; [done|lia]].
    + split; [intros _; split_and!; [done|lia|done|done]|done].
    + intros e [= <-]. by right.
Qed.

End advantage_more.

Section advantage_terminal.
Local Open Scope R_scope.
Context `{Torch}.

(** At a step flagged done the GAE advantage is [r_t - V_t]: neither the
    value of the successor state nor any later advantage enters it. *)
Theorem gae_terminal_step (self : PsPPO.t) (T t : nat)
    (rewards : list R) (dones : list bool) (col : bool) (vs : list R) :
  PsPPO.gae self = true →
  length rewards = T → length dones = T → length vs = S T →
  (t < T)%nat → nth t dones false = true →
  ∃ adv,
    PsPPO._get_advs self rewards dones (Values col vs) = Ok (Vec adv) ∧
    nth t adv 0 = nth t rewards 0 - nth t vs 0.
Proof.
  intros Hgae Hr Hd Hv Ht Hdone.
  destruct (gae_advantages self T rewards dones col vs Hgae Hr Hd Hv)
    as (adv & Hrun & Hlen & Hrec).
  exists adv. split; [done|].
  specialize (Hrec t Ht). unfold gae_recursion_at in Hrec.
  rewrite nth_not_done in Hrec by lia. rewrite Hdone in Hrec.
  unfold PsPPO.not_done in Hrec. rewrite Hrec. ring.
Qed.

(** With [lambda = 0] the GAE advantage is the one-step temporal
    difference [r_t + gamma * V_{t+1} * (1 - done_t) - V_t]. *)
Theorem gae_lambda_zero (self : PsPPO.t) (T t : nat)
    (rewards : list R) (dones : list bool) (col : bool) (vs : list R) :
  PsPPO.gae self = true → PsPPO.lmbda self = 0 →
  length rewards = T → length dones = T → length vs = S T →
  (t < T)%nat →
  ∃ adv,
    PsPPO._get_advs self rewards dones (Values col vs) = Ok (Vec adv) ∧
    nth t adv 0
    = nth t rewards 0
      + PsPPO.discount_factor self * nth (S t) vs 0
        * (1 - (if nth t dones false then 1 else 0))
      - nth t vs 0.
Proof.
  intros Hgae Hlam Hr Hd Hv Ht.
  destruct (gae_advantages self T rewards dones col vs Hgae Hr Hd Hv)
    as (adv & Hrun & Hlen & Hrec).
  exists adv. split; [done|].
  specialize (Hrec t Ht). unfold gae_recursion_at in Hrec.
  rewrite nth_not_done in Hrec by lia. unfold PsPPO.not_done in Hrec.
  rewrite Hrec, Hlam. ring.
Qed.

Lemma nth_take_lt {A} (xs : list A) (n i : nat) (d : A) :
  (i < n)%nat → nth i (take n xs) d = nth i xs d.
Proof. intros Hi. by rewrite !nth_lookup, lookup_take_lt. Qed.

Lemma take_eq_nth {A} (xs ys : list A) (n i : nat) (d : A) :
  take n xs = take n ys → (i < n)%nat → nth i xs d = nth i ys d.
Proof.
  intros Heq Hi.
  rewrite <- (nth_take_lt xs n i d Hi), <- (nth_take_lt ys n i d Hi).
  by rewrite Heq.
Qed.

(** X11: A window can be cut behind a step flagged done: two windows that
    agree on rewards, done-flags and values up to and including such a
    step get the same GAE advantages up to and including it, whatever
    follows in either. *)
Theorem gae_cut_at_terminal (self : PsPPO.t) (T T' t : nat)
    (rewards rewards' : list R) (dones dones' : list bool)
    (col col' : bool) (vs vs' : list R) :
  PsPPO.gae self = true →
  length rewards = T → length dones = T → length vs = S T →
  length rewards' = T' → length dones' = T' → length vs' = S T' →
  (t < T)%nat → (t < T')%nat →
  take (S t) rewards = take (S t) rewards' →
  take (S t) dones = take (S t) dones' →
  take (S t) vs = take (S t) vs' →
  nth t dones false = true →
  ∃ adv adv',
    PsPPO._get_advs self rewards dones (Values col vs) = Ok (Vec adv) ∧
    PsPPO._get_advs self rewards' dones' (Values col' vs') = Ok (Vec adv') ∧
    take (S t) adv = take (S t) adv'.
Proof.
  intros Hgae Hr Hd Hv Hr' Hd' Hv' Ht Ht' Er Ed Ev Hdone.
  destruct (gae_advantages self T rewards dones col vs Hgae Hr Hd Hv)
    as (adv & Hrun & Hlen & Hrec).
  destruct (gae_advantages self T' rewards' dones' col' vs' Hgae Hr' Hd' Hv')
    as (adv' & Hrun' & Hlen' & Hrec').
  exists adv, adv'. split_and!; [done|done|].
  assert (Hsame : ∀ d, (d ≤ t)%nat → nth (t - d) adv 0 = nth (t - d) adv' 0).
  { induction d as [|d IH]; intros Hd0.
    - rewrite Nat.sub_0_r.
      pose proof (Hrec t Ht) as H1. pose proof (Hrec' t Ht') as H2.
      unfold gae_recursion_at in H1, H2.
      rewrite nth_not_done in H1, H2 by lia.
      rewrite <- (take_eq_nth dones dones' (S t) t false Ed) in H2 by lia.
      rewrite Hdone in H1, H2. unfold PsPPO.not_done in H1, H2.
      rewrite H1, H2.
      rewrite (take_eq_nth rewards rewards' (S t) t 0 Er) by lia.
      rewrite (take_eq_nth vs vs' (S t) t 0 Ev) by lia. ring.
    - specialize (IH ltac:(lia)).
      replace (t - d)%nat with (S (t - S d)) in IH by lia.
      pose proof (Hrec (t - S d)%nat ltac:(lia)) as H1.
      pose proof (Hrec' (t - S d)%nat ltac:(lia)) as H2.
      unfold gae_recursion_at in H1, H2.
      rewrite nth_not_done in H1, H2 by lia.
      rewrite !app_nth1 in H1, H2 by lia.
      rewrite H1, H2, IH.
      rewrite (take_eq_nth rewards rewards' (S t) (t - S d) 0 Er) by lia.
      rewrite (take_eq_nth vs vs' (S t) (t - S d) 0 Ev) by lia.
      rewrite (take_eq_nth vs vs' (S t) (S (t - S d)) 0 Ev) by lia.
      rewrite (take_eq_nth dones dones' (S t) (t - S d) false Ed) by lia.
      ring. }
  apply (nth_ext _ _ 0 0).
  - rewrite !length_take. lia.
  - intros s Hs. rewrite length_take in Hs.
    rewrite !nth_take_lt by lia.
    specialize (Hsame (t - s)%nat ltac:(lia)).
    by replace (t - (t - s))%nat with s in Hsame by lia.
Qed.

(** At a step flagged done the n-step return is the reward alone, so on
    one-dimensional values the advantage there is [r_t - V_t]. *)
Theorem nstep_terminal_step (self : PsPPO.t) (T t : nat)
    (rewards : list R) (dones : list bool) (vs : list R) :
  PsPPO.gae self = false →
  length rewards = T → length dones = T → length vs = S T →
  (t < T)%nat → nth t dones false = true →
  ∃ adv,
    PsPPO._get_advs self rewards dones (Values false vs) = Ok (Vec adv) ∧
    nth t adv 0 = nth t rewards 0 - nth t vs 0.
Proof.
  intros Hgae Hr Hd Hv Ht Hdone.
  destruct (nstep_flat_values self T rewards dones vs Hgae Hr Hd Hv)
    as (G & adv & Hrun & HlenG & Hlen & HrecG & Hdiff).
  exists adv. split; [done|].
  rewrite (Hdiff t Ht), (HrecG t Ht), Hdone. ring.
Qed.

(** On a column of [T + 1] values, the shape the critic returns, the
    n-step branch returns a matrix of [T] rows of [T] entries: entry
    [(i, j)] is [G_j - V_i], where [G] is the sequence of returns. *)
Theorem nstep_column_shape (self : PsPPO.t) (T : nat)
    (rewards : list R) (dones : list bool) (vs : list R) :
  PsPPO.gae self = false →
  length rewards = T → length dones = T → length vs = S T →
  ∃ G rows,
    PsPPO._get_advs self rewards dones (Values true vs) = Ok (Mat rows) ∧
    length G = T ∧ length rows = T ∧
    (∀ t, (t < T)%nat →
       nth t G 0
       = nth t rewards 0
         + PsPPO.discount_factor self
           * (1 - (if nth t dones false then 1 else 0))
           * nth (S t) (G ++ [nth T vs 0]) 0) ∧
    (∀ i j, (i < T)%nat → (j < T)%nat →
       length (nth i rows []) = T ∧
       nth j (nth i rows []) 0 = nth j G 0 - nth i vs 0).
Proof.
  intros Hgae Hr Hd Hv.
  destruct (nstep_returns self T rewards dones vs Hr Hd Hv)
    as (G & Hloop & HlenG & Hrec).
  exists G, ((λ vi, (λ g, g - vi) <$> G) <$> but_last vs).
  split_and!; [|done| |done|].
  - unfold PsPPO._get_advs. rewrite Hgae. simpl.
    rewrite (getlast_nth vs T Hv). simpl. rewrite Hr, Hloop. done.
  - rewrite length_fmap, length_but_last. lia.
  - intros i j Hi Hj.
    assert (Hrow : nth i ((λ vi, (λ g, g - vi) <$> G) <$> but_last vs) []
                   = (λ g, g - nth i vs 0) <$> G).
    { rewrite nth_lookup, list_lookup_fmap.
      destruct (lookup_lt_is_Some_2 (but_last vs) i) as [v Hvi].
      { rewrite length_but_last. lia. }
      rewrite Hvi. simpl. rewrite <- (nth_but_last vs i) by lia.
      by rewrite (nth_lookup (but_last vs)), Hvi. }
    rewrite Hrow. split; [by rewrite length_fmap|].
    rewrite nth_lookup, list_lookup_fmap.
    destruct (lookup_lt_is_Some_2 G j ltac:(lia)) as [g Hg].
    rewrite Hg. simpl. by rewrite (nth_lookup G), Hg.
Qed.

(** X12: The n-step branch does not compare lengths: given two one-dimensional
    values [V_0, V_1] and any number [T] of rewards it returns [T]
    advantages [G_t - V_0], the returns being seeded by [V_1], where the
    GAE branch raises [AssertionError] unless [T = 1]. *)
Theorem nstep_two_values_broadcast (self self_gae : PsPPO.t) (T : nat)
    (rewards : list R) (dones : list bool) (V0 V1 : R) :
  PsPPO.gae self = false → PsPPO.gae self_gae = true →
  length rewards = T → length dones = T →
  (∃ G adv,
     PsPPO._get_advs self rewards dones (Values false [V0; V1])
     = Ok (Vec adv) ∧
     length G = T ∧ length adv = T ∧
     (∀ t, (t < T)%nat →
        nstep_recursion_at (PsPPO.discount_factor self) rewards
          (PsPPO.not_done <$> dones) G V1 t) ∧
     (∀ t, (t < T)%nat → nth t adv 0 = nth t G 0 - V0)) ∧
  (T ≠ 1%nat →
   PsPPO._get_advs self_gae rewards dones (Values false [V0; V1])
   = Raise AssertionError).
Proof.
  intros Hgae Hgae' Hr Hd. split.
  - destruct (nstep_loop_spec (PsPPO.discount_factor self) rewards
                (PsPPO.not_done <$> dones) V1 T Hr
                ltac:(by rewrite length_fmap)
                T (replicate T 0) V1) as (G & Hloop & HlenG & Hrec).
    { done. }
    { by rewrite length_replicate. }
    { rewrite app_nth2 by (rewrite length_replicate; lia).
      rewrite length_replicate, Nat.sub_diag. done. }
    { intros t Ht. lia. }
    exists G, ((λ g, g - V0) <$> G).
    split_and!; [|done|by rewrite length_fmap|done|].
    + unfold PsPPO._get_advs. rewrite Hgae. simpl. rewrite Hr, Hloop.
      simpl. unfold PsPPO.sub_values, broadcast, but_last. simpl.
      destruct G as [|g [|g' G']]; simpl; reflexivity.
    + intros t Ht. rewrite nth_lookup, list_lookup_fmap.
      destruct (lookup_lt_is_Some_2 G t ltac:(lia)) as [g Hg].
      rewrite Hg. simpl. by rewrite (nth_lookup G), Hg.
  - intros HT. unfold PsPPO._get_advs. rewrite Hgae'. simpl.
    rewrite decide_False by lia. done.
Qed.

End advantage_terminal.

Section advantage_more_examples.
Local Open Scope R_scope.

Lemma gae_branch_exceptions_witness :
  (PsPPO._get_advs (toy_trainer true 0.95 1 1) [1; 0] [false]
     (Values false [0.5; 0.4; 0]) = Raise AssertionError
   ↔ (length [1; 0] + 1)%nat ≠ length [0.5; 0.4; 0]) ∧
  (PsPPO._get_advs (toy_trainer true 0.95 1 1) [1; 0] [false]
     (Values false [0.5; 0.4; 0]) = Raise IndexError
   ↔ (length [1; 0] + 1)%nat = length [0.5; 0.4; 0]
     ∧ (length [false] < length [1; 0])%nat) ∧
  (∀ e, PsPPO._get_advs (toy_trainer true 0.95 1 1) [1; 0] [false]
          (Values false [0.5; 0.4; 0]) = Raise e →
        e = AssertionError ∨ e = IndexError).
Proof.
  apply (gae_branch_exceptions (toy_trainer true 0.95 1 1) [1; 0] [false]
           (Values false [0.5; 0.4; 0])).
  reflexivity.
Defined.

Lemma nstep_branch_exceptions_witness :
  (PsPPO._get_advs (toy_trainer false 0.95 1 1) [1; 0; 2] [false; true; false]
     (Values false [0.5; 0.4; 0]) = Raise IndexError
   ↔ [0.5; 0.4; 0] = [] ∨ (length [false; true; false] < length [1; 0; 2])%nat)
  ∧
  (PsPPO._get_advs (toy_trainer false 0.95 1 1) [1; 0; 2] [false; true; false]
     (Values false [0.5; 0.4; 0]) = Raise RuntimeError
   ↔ [0.5; 0.4; 0] ≠ [] ∧
     (length [1; 0; 2] ≤ length [false; true; false])%nat ∧
     false = false ∧
     broadcastable (length [1; 0; 2]) (length [0.5; 0.4; 0] - 1) = false) ∧
  (∀ e, PsPPO._get_advs (toy_trainer false 0.95 1 1) [1; 0; 2]
          [false; true; false] (Values false [0.5; 0.4; 0]) = Raise e →
        e = IndexError ∨ e = RuntimeError).
Proof.
  apply (nstep_branch_exceptions (toy_trainer false 0.95 1 1) [1; 0; 2]
           [false; true; false] (Values false [0.5; 0.4; 0])).
  reflexivity.
Defined.

Lemma gae_terminal_step_witness :
  ∃ adv,
    PsPPO._get_advs (toy_trainer true 0.95 1 1) [1; 0] [false; true]
      (Values true [0.5; 0.4; 0]) = Ok (Vec adv) ∧
    nth 1 adv 0 = nth 1 [1; 0] 0 - nth 1 [0.5; 0.4; 0] 0.
Proof.
  apply (gae_terminal_step (toy_trainer true 0.95 1 1) 2 1 [1; 0]
           [false; true] true [0.5; 0.4; 0]); first [reflexivity | lia].
Defined.

Lemma gae_lambda_zero_witness :
  ∃ adv,
    PsPPO._get_advs (toy_trainer true 0 1 1) [1; 0] [false; true]
      (Values true [0.5; 0.4; 0]) = Ok (Vec adv) ∧
    nth 0 adv 0
    = nth 0 [1; 0] 0
      + PsPPO.discount_factor (toy_trainer true 0 1 1)
        * nth 1 [0.5; 0.4; 0] 0
        * (1 - (if nth 0 [false; true] false then 1 else 0))
      - nth 0 [0.5; 0.4; 0] 0.
Proof.
  apply (gae_lambda_zero (toy_trainer true 0 1 1) 2 0 [1; 0]
           [false; true] true [0.5; 0.4; 0]); first [reflexivity | lia].
Defined.

Lemma gae_cut_at_terminal_witness :
  ∃ adv adv',
    PsPPO._get_advs (toy_trainer true 0.95 1 1) [1; 0] [false; true]
      (Values true [0.5; 0.4; 0]) = Ok (Vec adv) ∧
    PsPPO._get_advs (toy_trainer true 0.95 1 1) [1; 0; 5]
      [false; true; false] (Values true [0.5; 0.4; 0.3; 0.2])
    = Ok (Vec adv') ∧
    take 2 adv = take 2 adv'.
Proof.
  apply (gae_cut_at_terminal (toy_trainer true 0.95 1 1) 2 3 1
           [1; 0] [1; 0; 5] [false; true] [false; true; false]
           true true [0.5; 0.4; 0] [0.5; 0.4; 0.3; 0.2]);
    first [reflexivity | lia].
Defined.

Lemma nstep_terminal_step_witness :
  ∃ adv,
    PsPPO._get_advs (toy_trainer false 0.95 1 1) [1; 0] [false; true]
      (Values false [0.5; 0.4; 0]) = Ok (Vec adv) ∧
    nth 1 adv 0 = nth 1 [1; 0] 0 - nth 1 [0.5; 0.4; 0] 0.
Proof.
  apply (nstep_terminal_step (toy_trainer false 0.95 1 1) 2 1 [1; 0]
           [false; true] [0.5; 0.4; 0]); first [reflexivity | lia].
Defined.

Lemma nstep_column_shape_witness :
  ∃ G rows,
    PsPPO._get_advs (toy_trainer false 0.95 1 1) [1; 0] [false; true]
      (Values true [0.5; 0.4; 0]) = Ok (Mat rows) ∧
    length G = 2%nat ∧ length rows = 2%nat ∧
    (∀ t, (t < 2)%nat →
       nth t G 0
       = nth t [1; 0] 0
         + PsPPO.discount_factor (toy_trainer false 0.95 1 1)
           * (1 - (if nth t [false; true] false then 1 else 0))
           * nth (S t) (G ++ [nth 2 [0.5; 0.4; 0] 0]) 0) ∧
    (∀ i j, (i < 2)%nat → (j < 2)%nat →
       length (nth i rows []) = 2%nat ∧
       nth j (nth i rows []) 0 = nth j G 0 - nth i [0.5; 0.4; 0] 0).
Proof.
  apply (nstep_column_shape (toy_trainer false 0.95 1 1) 2 [1; 0]
           [false; true] [0.5; 0.4; 0]); reflexivity.
Defined.

Lemma nstep_two_values_broadcast_witness :
  (∃ G adv,
     PsPPO._get_advs (toy_trainer false 0.95 1 1) [1; 0; 2]
       [false; true; false] (Values false [0.5; 0.4]) = Ok (Vec adv) ∧
     length G = 3%nat ∧ length adv = 3%nat ∧
     (∀ t, (t < 3)%nat →
        nstep_recursion_at
          (PsPPO.discount_factor (toy_trainer false 0.95 1 1)) [1; 0; 2]
          (PsPPO.not_done <$> [false; true; false]) G 0.4 t) ∧
     (∀ t, (t < 3)%nat → nth t adv 0 = nth t G 0 - 0.5)) ∧
  (3%nat ≠ 1%nat →
   PsPPO._get_advs (toy_trainer true 0.95 1 1) [1; 0; 2]
     [false; true; false] (Values false [0.5; 0.4])
   = Raise AssertionError).
Proof.
  apply (nstep_two_values_broadcast (toy_trainer false 0.95 1 1)
           (toy_trainer true 0.95 1 1) 3 [1; 0; 2] [false; true; false]
           0.5 0.4); reflexivity.
Defined.

End advantage_more_examples.

(** ** Construction of the trainer, checkpoints, evaluation *)

Section trainer_construction.
Context `{Torch}.

Lemma load_keeps_architecture (fs : PsPPOPolicy.filesystem)
    (self self' : PsPPOPolicy.t) (path : string) (out out' : list string) :
  PsPPOPolicy.load fs self path out = Ok (self', out') →
  PsPPOPolicy.state_size self' = PsPPOPolicy.state_size self ∧
  PsPPOPolicy.action_size self' = PsPPOPolicy.action_size self ∧
  PsPPOPolicy.activation self' = PsPPOPolicy.activation self ∧
  PsPPOPolicy.critic_network self' = PsPPOPolicy.critic_network self ∧
  PsPPOPolicy.actor_network self' = PsPPOPolicy.actor_network self.
Proof.
  unfold PsPPOPolicy.load, PsPPOPolicy.load_state_dict.
  destruct (fs !! path) as [[sd|]|]; [|done|by intros [= <- _]].
  destruct (decide _); [|done]. simpl. by intros [= <- _].
Qed.




Lemma get_activation_message (a : string) (r : error) :
  PsPPOPolicy._get_activation a = Raise r →
  r = Exception
        "The specified activation function don't exists or is not available".
Proof.
  unfold PsPPOPolicy._get_activation.
  destruct (decide (a = "ReLU"%string)); [done|].
  destruct (decide (a = "Tanh"%string)); [done|]. by intros [= <-].
Qed.

Lemma add_layer_message (a nn_type : string) (d w o : Z) (layer : nat)
    (net : ordered_dict) (r : error) :
  PsPPOPolicy.add_layer a nn_type d w o layer net = Raise r →
  r = Exception
        "The specified activation function don't exists or is not available".
Proof.
  unfold PsPPOPolicy.add_layer.
  destruct (decide (Z.of_nat layer = d - 1)%Z); [done|].
  destruct (PsPPOPolicy._get_activation a) eqn:Ha; [done|].
  cbn [mbind result_bind]. intros [= <-]. by eapply get_activation_message.
Qed.

Lemma add_layers_message (a nn_type : string) (d w o : Z)
    (layers : list nat) (net : ordered_dict) (r : error) :
  for_each (PsPPOPolicy.add_layer a nn_type d w o) layers net = Raise r →
  r = Exception
        "The specified activation function don't exists or is not available".
Proof.
  revert net. induction layers as [|l rest IH]; intros net; [done|].
  cbn [for_each].
  destruct (PsPPOPolicy.add_layer a nn_type d w o l net) eqn:Hl;
    cbn [mbind result_bind]; [apply IH|].
  intros [= <-]. by eapply add_layer_message.
Qed.

Lemma build_network_message (ss acs : Z) (a : string) (is_actor : bool)
    (d w : Z) (r : error) :
  PsPPOPolicy._build_network ss acs a is_actor d w = Raise r →
  r = Exception "Networks' depths must be greater than 0" ∨
  r = Exception
        "The specified activation function don't exists or is not available".
Proof.
  unfold PsPPOPolicy._build_network.
  destruct (decide (d ≤ 0)%Z); [intros [= <-]; by left|].
  destruct (decide (d > 1)%Z); cbn [mbind result_bind].
  - destruct (PsPPOPolicy._get_activation a) eqn:Ha;
      cbn [mbind result_bind].
    + intros Hl. right. by eapply add_layers_message.
    + intros [= <-]. right. by eapply get_activation_message.
  - intros Hl. right. by eapply add_layers_message.
Qed.

Lemma load_exception (fs : PsPPOPolicy.filesystem) (self : PsPPOPolicy.t)
    (path : string) (out : list string) (r : error) :
  PsPPOPolicy.load fs self path out = Raise r → r = RuntimeError.
Proof.
  unfold PsPPOPolicy.load, PsPPOPolicy.load_state_dict.
  destruct (fs !! path) as [[sd|]|]; [|by intros [= <-]|done].
  destruct (decide _); [done|]. by intros [= <-].
Qed.

(** What the constructor of the policy can raise: one of its three
    messages, or the [RuntimeError] of a checkpoint that was found under
    the configured path and did not load. *)
Lemma policy_construction_raises (fs : PsPPOPolicy.filesystem)
    (ss acs : Z) (tp : train_params.t) (out : list string) (r : error) :
  PsPPOPolicy.__init__ fs ss acs tp out = Raise r →
  r = Exception "Networks' depths must be greater than 0" ∨
  r = Exception "Shared networks must have depth greater than 1" ∨
  r = Exception
        "The specified activation function don't exists or is not available"
  ∨ (r = RuntimeError ∧
     ∃ path, train_params.load_model_path tp = Some path
             ∧ is_Some (fs !! path)).
Proof.
  unfold PsPPOPolicy.__init__.
  destruct (PsPPOPolicy._build_network ss acs _ false _ _) as [critic|]
    eqn:Hc; cbn [mbind result_bind].
  2:{ intros [= <-].
      destruct (build_network_message _ _ _ _ _ _ _ Hc) as [->| ->]; auto. }
  assert (Hload : ∀ self,
    match train_params.load_model_path tp with
    | Some path => PsPPOPolicy.load fs self path out
    | None => Ok (self, out)
    end = Raise r →
    r = RuntimeError ∧
    ∃ path, train_params.load_model_path tp = Some path
            ∧ is_Some (fs !! path)).
  { intros self. destruct (train_params.load_model_path tp) as [path|];
      [|done].
    intros Hl. split; [by eapply load_exception|].
    exists path. split; [done|]. unfold PsPPOPolicy.load in Hl.
    destruct (fs !! path); [by eexists|done]. }
  destruct (train_params.shared tp); simpl.
  - destruct (decide _); cbn [mbind result_bind];
      [intros [= <-]; auto|].
    intros Hl. right. right. right. by eapply Hload.
  - destruct (PsPPOPolicy._build_network ss acs _ true _ _) as [actor|]
      eqn:Hb; cbn [mbind result_bind].
    + intros Hl. right. right. right. by eapply Hload.
    + intros [= <-].
      destruct (build_network_message _ _ _ _ _ _ _ Hb) as [->| ->]; auto.
Qed.

(** X14: With positive sizes and widths and no file under the configured
    checkpoint path, whatever the constructor of the policy raises is one
    of its three configuration messages. *)
Theorem policy_construction_exceptions (fs : PsPPOPolicy.filesystem)
    (ss acs : Z) (tp : train_params.t) (out : list string) (r : error) :
  (0 < ss)%Z → (0 < acs)%Z →
  (0 < train_params.critic_mlp_width tp)%Z →
  (0 < train_params.actor_mlp_width tp)%Z →
  (∀ path, train_params.load_model_path tp = Some path →
           fs !! path = None) →
  PsPPOPolicy.__init__ fs ss acs tp out = Raise r →
  r = Exception "Networks' depths must be greater than 0" ∨
  r = Exception "Shared networks must have depth greater than 1" ∨
  r = Exception
        "The specified activation function don't exists or is not available".
Proof.
  intros _ _ _ _ Hfile Hraise.
  destruct (policy_construction_raises _ _ _ _ _ _ Hraise)
    as [->|[->|[->|(_ & path & Hpath & Hfound)]]]; auto.
  rewrite (Hfile path Hpath) in Hfound. by apply is_Some_None in Hfound.
Qed.

Lemma policy_init_not_estimator_message (fs : PsPPOPolicy.filesystem)
    (ss acs : Z) (tp : train_params.t) (out : list string) :
  PsPPOPolicy.__init__ fs ss acs tp out
  ≠ Raise (Exception "Advantage estimator not available").
Proof.
  intros Hinit. unfold PsPPOPolicy.__init__ in Hinit.
  destruct (PsPPOPolicy._build_network ss acs _ false _ _) as [critic|]
    eqn:Hc; cbn [mbind result_bind] in Hinit.
  2:{ injection Hinit as ->.
      by destruct (build_network_message _ _ _ _ _ _ _ Hc). }
  destruct (train_params.shared tp); simpl in Hinit.
  - destruct (decide _); cbn [mbind result_bind] in Hinit; [done|].
    destruct (train_params.load_model_path tp); [|done].
    by apply load_exception in Hinit.
  - destruct (PsPPOPolicy._build_network ss acs _ true _ _) as [actor|]
      eqn:Hb; cbn [mbind result_bind] in Hinit.
    + destruct (train_params.load_model_path tp); [|done].
      by apply load_exception in Hinit.
    + injection Hinit as ->.
      by destruct (build_network_message _ _ _ _ _ _ _ Hb).
Qed.

(** The mode is checked before anything is built: a configuration whose
    estimator is neither ['gae'] nor ['n-steps'] is refused with the
    message for it even when its depths or its activation are wrong too,
    and this message is raised for no other reason. *)
Theorem trainer_unknown_estimator (fs : PsPPOPolicy.filesystem)
    (ss acs : Z) (tp : train_params.t) (out : list string) :
  PsPPO.__init__ fs ss acs tp out
  = Raise (Exception "Advantage estimator not available")
  ↔ train_params.advantage_estimator tp ≠ "gae"%string
    ∧ train_params.advantage_estimator tp ≠ "n-steps"%string.
Proof.
  unfold PsPPO.__init__. split.
  - intros Hinit.
    destruct (decide (train_params.advantage_estimator tp = "gae"%string))
      as [Hg|Hg];
      [|destruct (decide (train_params.advantage_estimator tp
                          = "n-steps"%string)) as [Hn|Hn]; [|done]];
      exfalso; cbn [mbind result_bind] in Hinit.
    all: destruct (PsPPOPolicy.__init__ fs ss acs tp out)
           as [[policy out1]|] eqn:H1;
      cbn [mbind result_bind] in Hinit;
      [|injection Hinit as ->;
        by eapply policy_init_not_estimator_message].
    all: destruct (PsPPOPolicy.__init__ fs ss acs tp out1)
           as [[old out2]|] eqn:H2;
      cbn [mbind result_bind] in Hinit;
      [|injection Hinit as ->;
        by eapply policy_init_not_estimator_message].
    all: unfold PsPPOPolicy.load_state_dict in Hinit;
      destruct (decide _); done.
  - intros [Hg Hn]. rewrite !decide_False by done. reflexivity.
Qed.

End trainer_construction.

(** Closes a goal under the hypothesis that a concrete call raised, by
    running the call far enough to see that it returns. *)
Ltac by_running Hraise :=
  match type of Hraise with
  | ?call = Raise _ =>
      let Hreturns := fresh "Hreturns" in
      assert (Hreturns : match call with Ok _ => True | Raise _ => False end)
        by (vm_compute; exact I);
      rewrite Hraise in Hreturns; exact Hreturns
  end.

Section trainer_construction_examples.


Lemma policy_construction_exceptions_witness :
  Exception
    "The specified activation function don't exists or is not available"
  = Exception "Networks' depths must be greater than 0" ∨
  Exception
    "The specified activation function don't exists or is not available"
  = Exception "Shared networks must have depth greater than 1" ∨
  Exception
    "The specified activation function don't exists or is not available"
  = Exception
      "The specified activation function don't exists or is not available".
Proof.
  apply (policy_construction_exceptions (H:=toy_torch) ∅ 3 2
           (toy_params "Sigmoid" false 2 2 None) []).
  - lia.
  - lia.
  - simpl. lia.
  - simpl. lia.
  - intros path Hpath. discriminate Hpath.
  - vm_compute. reflexivity.
Defined.

End trainer_construction_examples.

(** ** Checkpoints: what [load] changes, and [save] followed by [load] *)

Section checkpoints.



(** [save] to a path that cannot be written raises and leaves no file
    system to go on with; to a path that can, it overwrites what was
    there. *)
Lemma save_overwrites (writable : string → bool)
    (fs fs' : PsPPOPolicy.filesystem) (self : PsPPOPolicy.t) (path : string) :
  PsPPOPolicy.save writable fs self path = Ok fs' →
  fs' !! path
  = Some (PsPPOPolicy.Checkpoint (PsPPOPolicy.parameters self)).
Proof.
  unfold PsPPOPolicy.save, PsPPOPolicy.filesystem in *.
  destruct (writable path); [|done].
  intros [= <-]. by rewrite lookup_insert_eq.
Qed.

End checkpoints.

Section checkpoint_examples.



End checkpoint_examples.

(** ** Evaluation: shapes, and the distribution behind each row *)

Section evaluation.
Local Open Scope R_scope.
Context `{Torch}.

Lemma collect_length {A} (xs : list (result A)) (ys : list A) :
  collect xs = Ok ys → length ys = length xs.
Proof.
  revert ys. induction xs as [|x rest IH]; intros ys.
  - by intros [= <-].
  - cbn [collect]. destruct x as [a|]; [|done]. cbn [mbind result_bind].
    destruct (collect rest) as [as'|]; [|done]. cbn [mbind result_bind].
    intros [= <-]. simpl. by rewrite (IH as' eq_refl).
Qed.

Lemma broadcast_equal_lengths {A B C} (f : A → B → C) (a : list A)
    (b : list B) :
  length a = length b → broadcast f a b = Ok (zip_with f a b).
Proof. intros Hlen. unfold broadcast. by rewrite decide_True. Qed.

(** X17: On as many actions and masks as states, [evaluate] returns one
    log-probability and one entropy for every row but the last, and a
    column with one value for every row. *)
Theorem evaluate_shapes (self : PsPPOPolicy.t) (state : list (list R))
    (action : list nat) (mask : list (list bool))
    (logs : list R) (v : values) (ent : list R) :
  length action = length state → length mask = length state →
  PsPPOPolicy.evaluate self state action mask = Ok (logs, v, ent) →
  length logs = (length state - 1)%nat ∧
  length ent = (length state - 1)%nat ∧
  column v = true ∧
  length (entries v) = length state.
Proof.
  intros Ha Hm. unfold PsPPOPolicy.evaluate.
  rewrite broadcast_equal_lengths
    by (rewrite length_fmap, !length_but_last; lia).
  cbn [mbind result_bind].
  destruct (collect _) as [masked|] eqn:Hmasked; [|done].
  cbn [mbind result_bind].
  apply collect_length in Hmasked.
  rewrite length_zip_with, length_fmap, !length_but_last in Hmasked.
  rewrite broadcast_equal_lengths
    by (rewrite length_fmap, !length_but_last; lia).
  cbn [mbind result_bind].
  destruct (collect _) as [lps|] eqn:Hlps; [|done].
  cbn [mbind result_bind].
  apply collect_length in Hlps.
  rewrite length_zip_with, length_fmap, !length_but_last in Hlps.
  intros [= <- <- <-]. simpl. rewrite !length_fmap. lia.
Qed.

Lemma sum_list_cons (x : R) (xs : list R) :
  sum_list (x :: xs) = x + sum_list xs.
Proof. reflexivity. Qed.

Lemma sum_list_scaled (z : R) (xs : list R) :
  sum_list ((λ x, x / z) <$> xs) = sum_list xs / z.
Proof.
  induction xs as [|x rest IH].
  - unfold sum_list. simpl. unfold Rdiv. ring.
  - rewrite fmap_cons, !sum_list_cons, IH. unfold Rdiv. ring.
Qed.

Lemma sum_list_nonneg (xs : list R) :
  (∀ x, x ∈ xs → 0 <= x) → 0 <= sum_list xs.
Proof.
  induction xs as [|x rest IH]; intros Hpos.
  - unfold sum_list. simpl. lra.
  - rewrite sum_list_cons.
    pose proof (Hpos x ltac:(by left)).
    pose proof (IH (λ y Hy, Hpos y ltac:(by right))). lra.
Qed.

Lemma elem_le_sum_list (xs : list R) (x : R) :
  (∀ y, y ∈ xs → 0 <= y) → x ∈ xs → x <= sum_list xs.
Proof.
  induction xs as [|y rest IH]; intros Hpos Hx.
  - by apply elem_of_nil in Hx.
  - rewrite sum_list_cons. apply elem_of_cons in Hx as [->|Hx].
    + pose proof (sum_list_nonneg rest (λ y Hy, Hpos y ltac:(by right))).
      lra.
    + pose proof (Hpos y ltac:(by left)).
      pose proof (IH (λ y Hy, Hpos y ltac:(by right)) Hx). lra.
Qed.

Lemma exps_nonneg (logits : list R) (y : R) :
  y ∈ exp <$> logits → 0 <= y.
Proof.
  intros Hy. apply list_elem_of_fmap in Hy as (l & -> & _).
  left. apply exp_pos.
Qed.

Lemma sum_exps_positive (logits : list R) :
  logits ≠ [] → 0 < sum_list (exp <$> logits).
Proof.
  destruct logits as [|l rest]; [done|]. intros _.
  rewrite fmap_cons, sum_list_cons.
  pose proof (exp_pos l).
  pose proof (sum_list_nonneg (exp <$> rest) (exps_nonneg rest)). lra.
Qed.

Lemma softmax_sum (logits : list R) :
  logits ≠ [] → sum_list (PsPPOPolicy.softmax logits) = 1.
Proof.
  intros Hne. unfold PsPPOPolicy.softmax.
  assert (Hscaled : ∀ z ls,
    sum_list ((λ l, exp l / z) <$> ls) = sum_list (exp <$> ls) / z).
  { intros z ls. induction ls as [|l rest IH].
    - unfold sum_list. simpl. unfold Rdiv. ring.
    - rewrite !fmap_cons, !sum_list_cons, IH. unfold Rdiv. ring. }
  rewrite Hscaled. field.
  pose proof (sum_exps_positive logits Hne). lra.
Qed.

Lemma categorical_softmax (logits : list R) :
  logits ≠ [] →
  PsPPOPolicy.Categorical (PsPPOPolicy.softmax logits)
  = PsPPOPolicy.softmax logits.
Proof.
  intros Hne. unfold PsPPOPolicy.Categorical. rewrite softmax_sum by done.
  rewrite <- (list_fmap_id (PsPPOPolicy.softmax logits)) at 2.
  apply list_fmap_ext. intros i p _. simpl. field.
Qed.

Lemma softmax_entry_bounds (logits : list R) (p : R) :
  p ∈ PsPPOPolicy.softmax logits → 0 < p <= 1.
Proof.
  unfold PsPPOPolicy.softmax. intros Hp.
  apply list_elem_of_fmap in Hp as (l & -> & Hl).
  assert (Hne : logits ≠ []) by (intros ->; by apply elem_of_nil in Hl).
  pose proof (sum_exps_positive logits Hne) as Hz.
  pose proof (exp_pos l) as He.
  assert (Hle : exp l <= sum_list (exp <$> logits)).
  { apply elem_le_sum_list; [apply exps_nonneg|].
    apply list_elem_of_fmap. by exists l. }
  split.
  - by apply Rdiv_lt_0_compat.
  - apply Rmult_le_reg_r with (sum_list (exp <$> logits)); [done|].
    unfold Rdiv. rewrite Rmult_assoc, Rinv_l by lra. lra.
Qed.

(** X18: The distribution that [evaluate] builds from a non-empty row of
    logits has one probability per logit, each between [0] and [1], and
    they sum to one; every log-probability is at most zero, the entropy is
    at least zero, and an action is refused with [ValueError] exactly when
    it is no index of the row. *)
Theorem row_distribution (logits : list R) :
  logits ≠ [] →
  let d := PsPPOPolicy.Categorical (PsPPOPolicy.softmax logits) in
  length d = length logits ∧
  sum_list d = 1 ∧
  (∀ p, p ∈ d → 0 <= p <= 1) ∧
  (∀ a lp, PsPPOPolicy.log_prob d a = Ok lp → lp <= 0) ∧
  (∀ a, PsPPOPolicy.log_prob d a = Raise ValueError
        ↔ (length logits ≤ a)%nat) ∧
  0 <= PsPPOPolicy.entropy d.
Proof.
  intros Hne d. unfold d. rewrite categorical_softmax by done.
  assert (Hlen : length (PsPPOPolicy.softmax logits) = length logits).
  { unfold PsPPOPolicy.softmax. by rewrite length_fmap. }
  assert (Hln : ∀ p, p ∈ PsPPOPolicy.softmax logits → ln p <= 0).
  { intros p Hp. destruct (softmax_entry_bounds logits p Hp) as [H0 H1].
    rewrite <- ln_1. destruct H1 as [Hlt| ->]; [|lra].
    left. by apply ln_increasing. }
  split_and!; [done|by apply softmax_sum| | | |].
  - intros p Hp. destruct (softmax_entry_bounds logits p Hp). lra.
  - intros a lp. unfold PsPPOPolicy.log_prob.
    destruct (PsPPOPolicy.softmax logits !! a) as [p|] eqn:Hp; [|done].
    intros [= <-]. apply Hln. by eapply list_elem_of_lookup_2.
  - intros a. unfold PsPPOPolicy.log_prob.
    destruct (PsPPOPolicy.softmax logits !! a) as [p|] eqn:Hp.
    + apply lookup_lt_Some in Hp. split; [done|lia].
    + apply lookup_ge_None in Hp. split; [lia|done].
  - unfold PsPPOPolicy.entropy.
    assert (Hneg : sum_list ((λ p, p * ln p) <$> PsPPOPolicy.softmax logits)
                   <= 0).
    { assert (Hall : ∀ ps, (∀ p, p ∈ ps → 0 < p ∧ ln p <= 0) →
                sum_list ((λ p, p * ln p) <$> ps) <= 0).
      { induction ps as [|p ps IH]; intros Hps.
        - unfold sum_list. simpl. lra.
        - rewrite fmap_cons, sum_list_cons.
          destruct (Hps p ltac:(by left)) as [H0 H1].
          pose proof (IH (λ q Hq, Hps q ltac:(by right))). nra. }
      apply Hall. intros p Hp. split; [|by apply Hln].
      by destruct (softmax_entry_bounds logits p Hp). }
    lra.
Qed.

End evaluation.

Section masking.
Local Open Scope R_scope.

Lemma mask_logits_equal_lengths (mask : list bool) (logits : list R) :
  length mask = length logits →
  PsPPOPolicy.mask_logits mask logits
  = Ok (zip_with (λ (m : bool) (l : R), if m then l else -1e8) mask logits).
Proof.
  intros Hlen. unfold PsPPOPolicy.mask_logits.
  by apply broadcast_equal_lengths.
Qed.

(** X19: Masking: with one mask entry per logit, a masked-out action
    keeps its place in the row, its logit becomes [-1e8], and its
    probability is at most [exp (-1e8 - l)] for every logit [l] of an
    action that is not masked out. *)
Theorem masked_action_probability (mask : list bool) (logits masked : list R)
    (i k : nat) (l : R) :
  length mask = length logits →
  PsPPOPolicy.mask_logits mask logits = Ok masked →
  mask !! i = Some false → mask !! k = Some true → logits !! k = Some l →
  length masked = length logits ∧
  masked !! i = Some (-1e8) ∧
  masked !! k = Some l ∧
  ∃ p,
    PsPPOPolicy.Categorical (PsPPOPolicy.softmax masked) !! i = Some p ∧
    0 <= p <= exp (-1e8 - l).
Proof.
  intros Hlen Hmask Hi Hk Hl.
  rewrite mask_logits_equal_lengths in Hmask by done.
  injection Hmask as <-.
  set (masked := zip_with (λ (m : bool) (l : R), if m then l else -1e8)
                   mask logits).
  destruct (lookup_lt_is_Some_2 logits i) as [li Hli].
  { rewrite <- Hlen. by eapply lookup_lt_Some. }
  assert (Hmi : masked !! i = Some (-1e8)).
  { unfold masked. by rewrite lookup_zip_with, Hi, Hli. }
  assert (Hmk : masked !! k = Some l).
  { unfold masked. by rewrite lookup_zip_with, Hk, Hl. }
  assert (Hne : masked ≠ []).
  { intros Hnil. by rewrite Hnil in Hmi. }
  split_and!; [|done|done|].
  { unfold masked. rewrite length_zip_with. lia. }
  rewrite categorical_softmax by done.
  exists (exp (-1e8) / sum_list (exp <$> masked)). split.
  { unfold PsPPOPolicy.softmax. by rewrite list_lookup_fmap, Hmi. }
  pose proof (sum_exps_positive masked Hne) as Hz.
  assert (Hle : exp l <= sum_list (exp <$> masked)).
  { apply elem_le_sum_list; [apply exps_nonneg|].
    apply list_elem_of_fmap. exists l. split; [done|].
    by eapply list_elem_of_lookup_2. }
  pose proof (exp_pos l) as Hel. pose proof (exp_pos (-1e8)) as Hem.
  split.
  - left. by apply Rdiv_lt_0_compat.
  - unfold Rminus. rewrite exp_plus, exp_Ropp.
    unfold Rdiv. apply Rmult_le_compat_l; [lra|].
    apply Rinv_le_contravar; lra.
Qed.

Lemma masked_action_probability_witness :
  ∃ masked,
    PsPPOPolicy.mask_logits [true; false] [0.5; 2] = Ok masked ∧
    length masked = length [0.5; 2] ∧
    masked !! 1%nat = Some (-1e8) ∧
    masked !! 0%nat = Some 0.5 ∧
    ∃ p,
      PsPPOPolicy.Categorical (PsPPOPolicy.softmax masked) !! 1%nat = Some p ∧
      0 <= p <= exp (-1e8 - 0.5).
Proof.
  eexists. split; [reflexivity|].
  apply (masked_action_probability [true; false] [0.5; 2] _ 1 0 0.5);
    reflexivity.
Defined.

Lemma row_distribution_witness :
  let d := PsPPOPolicy.Categorical (PsPPOPolicy.softmax [0.5; 0.25]) in
  length d = length [0.5; 0.25] ∧
  sum_list d = 1 ∧
  (∀ p, p ∈ d → 0 <= p <= 1) ∧
  (∀ a lp, PsPPOPolicy.log_prob d a = Ok lp → lp <= 0) ∧
  (∀ a, PsPPOPolicy.log_prob d a = Raise ValueError
        ↔ (length [0.5; 0.25]%R ≤ a)%nat) ∧
  0 <= PsPPOPolicy.entropy d.
Proof. apply (row_distribution [0.5; 0.25]). discriminate. Defined.

Lemma evaluate_shapes_witness :
  ∃ logs v ent,
    PsPPOPolicy.evaluate (H:=toy_torch) toy_policy
      [[0.5; 0]; [0.25; 0]; [1; 0]] [0; 1; 1]%nat
      [[true; true]; [true; false]; [false; true]] = Ok (logs, v, ent) ∧
    length logs = (length [[0.5; 0]; [0.25; 0]; [1; 0]]%R - 1)%nat ∧
    length ent = (length [[0.5; 0]; [0.25; 0]; [1; 0]]%R - 1)%nat ∧
    column v = true ∧
    length (entries v) = length [[0.5; 0]; [0.25; 0]; [1; 0]].
Proof.
  destruct (PsPPOPolicy.evaluate (H:=toy_torch) toy_policy
              [[0.5; 0]; [0.25; 0]; [1; 0]] [0; 1; 1]%nat
              [[true; true]; [true; false]; [false; true]])
    as [[[logs v] ent]|e] eqn:Hev.
  - exists logs, v, ent. split; [reflexivity|].
    apply (evaluate_shapes (H:=toy_torch) toy_policy
             [[0.5; 0]; [0.25; 0]; [1; 0]] [0; 1; 1]%nat
             [[true; true]; [true; false]; [false; true]] logs v ent);
      [reflexivity|reflexivity|exact Hev].
  - exfalso. by_running Hev.
Defined.

End masking.

(** ** Observation normalisation *)

Section observation.
Local Open Scope R_scope.

Lemma max_lt_cons (item : xreal) (seq : list xreal) (val : R) :
  max_lt (item :: seq) val = max_lt_step val item (max_lt seq val).
Proof. reflexivity. Qed.

Lemma min_gt_cons (item : xreal) (seq : list xreal) (val : R) :
  min_gt (item :: seq) val = min_gt_step val item (min_gt seq val).
Proof. reflexivity. Qed.

(** X20: [max_lt] returns [0] on a sequence without an item in [(0, val)], not
    [None] as its docstring says; otherwise it returns the greatest such
    item.  Infinite items never count. *)
Theorem max_lt_greatest (seq : list xreal) (val : R) :
  0 <= max_lt seq val ∧
  (max_lt seq val = 0
   ∨ Finite (max_lt seq val) ∈ seq ∧ max_lt seq val < val) ∧
  (∀ x, Finite x ∈ seq → 0 <= x → x < val → x <= max_lt seq val).
Proof.
  induction seq as [|item seq (Hpos & Hin & Hmax)].
  - cbn. split; [lra|]. split; [by left|].
    intros x Hx. by apply elem_of_nil in Hx.
  - rewrite max_lt_cons. set (m := max_lt seq val) in *.
    assert (Hrest : ∀ x, Finite x ∈ item :: seq → 0 <= x → x < val →
                         Finite x ≠ item → x <= m).
    { intros x Hx H0 Hv Hne. apply Hmax; [|done..].
      apply elem_of_cons in Hx as [Hx|Hx]; [by destruct Hne|done]. }
    assert (Hkeep : m = 0 ∨ Finite m ∈ item :: seq ∧ m < val).
    { destruct Hin as [Hin|[Hin Hlt]]; [by left|right].
      split; [by apply list_elem_of_further|done]. }
    destruct item as [|x|]; cbn [max_lt_step].
    + split; [done|]. split; [done|]. intros x Hx H0 Hv.
      by apply Hrest.
    + destruct (Rlt_dec x val) as [Hxv|Hxv];
        [destruct (Rle_dec 0 x) as [H0x|H0x];
         [destruct (Rlt_dec m x) as [Hmx|Hmx]|]|].
      * split; [lra|]. split.
        { right. split; [apply list_elem_of_here|done]. }
        intros y Hy H0 Hv. apply elem_of_cons in Hy as [Hy|Hy].
        -- injection Hy as ->. lra.
        -- specialize (Hmax y Hy H0 Hv). lra.
      * split; [done|]. split; [done|]. intros y Hy H0 Hv.
        apply elem_of_cons in Hy as [Hy|Hy].
        -- injection Hy as ->. lra.
        -- by apply Hmax.
      * split; [done|]. split; [done|]. intros y Hy H0 Hv.
        apply elem_of_cons in Hy as [Hy|Hy].
        -- injection Hy as ->. lra.
        -- by apply Hmax.
      * split; [done|]. split; [done|]. intros y Hy H0 Hv.
        apply elem_of_cons in Hy as [Hy|Hy].
        -- injection Hy as ->. lra.
        -- by apply Hmax.
    + split; [done|]. split; [done|]. intros x Hx H0 Hv.
      by apply Hrest.
Qed.

(** X21: [min_gt] returns [inf] exactly when no finite item is at least [val],
    and otherwise the least item that is: an item equal to [val] counts,
    and [-inf] is never returned. *)
Theorem min_gt_least (seq : list xreal) (val : R) :
  min_gt seq val ≠ NegInf ∧
  (min_gt seq val = PosInf ↔ ∀ x, Finite x ∈ seq → x < val) ∧
  (∀ m, min_gt seq val = Finite m →
        Finite m ∈ seq ∧ val <= m ∧
        ∀ x, Finite x ∈ seq → val <= x → m <= x).
Proof.
  induction seq as [|item seq (Hneg & Hinf & Hmin)].
  - cbn. split; [done|]. split.
    + split; [|done]. intros _ x Hx. by apply elem_of_nil in Hx.
    + intros m Hm. discriminate Hm.
  - rewrite min_gt_cons. set (r := min_gt seq val) in *.
    assert (Hskip : (∀ x, item = Finite x → x < val) →
      r ≠ NegInf ∧
      (r = PosInf ↔ ∀ x, Finite x ∈ item :: seq → x < val) ∧
      (∀ m, r = Finite m →
            Finite m ∈ item :: seq ∧ val <= m ∧
            ∀ x, Finite x ∈ item :: seq → val <= x → m <= x)).
    { intros Hitem. split; [done|]. split.
      - rewrite Hinf. split.
        + intros Hall x Hx. apply elem_of_cons in Hx as [Hx|Hx];
            [by apply Hitem|by apply Hall].
        + intros Hall x Hx. apply Hall. by apply list_elem_of_further.
      - intros m Hm. destruct (Hmin m Hm) as (Hin & Hle & Hleast).
        split; [by apply list_elem_of_further|]. split; [done|].
        intros x Hx Hvx. apply elem_of_cons in Hx as [Hx|Hx].
        + specialize (Hitem x (eq_sym Hx)). lra.
        + by apply Hleast. }
    destruct item as [|x|]; cbn [min_gt_step].
    + apply Hskip. intros x Hx. discriminate Hx.
    + destruct (Rle_dec val x) as [Hvx|Hvx].
      * assert (Htake : (∀ m, r = Finite m → x < m) →
          Finite x ≠ NegInf ∧
          (Finite x = PosInf
           ↔ ∀ y, Finite y ∈ Finite x :: seq → y < val) ∧
          (∀ m, Finite x = Finite m →
                Finite m ∈ Finite x :: seq ∧ val <= m ∧
                ∀ y, Finite y ∈ Finite x :: seq → val <= y → m <= y)).
        { intros Hr. split; [done|]. split.
          - split; [done|]. intros Hall.
            specialize (Hall x (list_elem_of_here _ _)). lra.
          - intros m Hm. injection Hm as <-.
            split; [apply list_elem_of_here|]. split; [done|].
            intros y Hy Hvy. apply elem_of_cons in Hy as [Hy|Hy].
            + injection Hy as ->. lra.
            + destruct r as [|m|] eqn:Er; [done| |].
              * destruct (Hmin m eq_refl) as (_ & _ & Hleast).
                specialize (Hleast y Hy Hvy). specialize (Hr m eq_refl).
                lra.
              * destruct Hinf as [Hinf _].
                specialize (Hinf eq_refl y Hy). lra. }
        destruct r as [|m|] eqn:Er; [done| |].
        -- destruct (Rlt_dec x m) as [Hxm|Hxm].
           ++ apply Htake. intros m' Hm'. injection Hm' as <-. done.
           ++ split; [done|]. split.
              ** split; [done|]. intros Hall.
                 specialize (Hall x (list_elem_of_here _ _)). lra.
              ** intros m' Hm'. injection Hm' as <-.
                 destruct (Hmin m eq_refl) as (Hin & Hle & Hleast).
                 split; [by apply list_elem_of_further|]. split; [done|].
                 intros y Hy Hvy. apply elem_of_cons in Hy as [Hy|Hy].
                 --- injection Hy as ->. lra.
                 --- by apply Hleast.
        -- apply Htake. intros m Hm. discriminate Hm.
      * apply Hskip. intros y Hy. injection Hy as <-. lra.
    + apply Hskip. intros x Hx. discriminate Hx.
Qed.

Lemma norm_obs_range_spec (obs : list xreal) (fixed_radius : R)
    (normalize_to_range : bool) :
  ∃ max_obs min_obs,
    norm_obs_range obs fixed_radius normalize_to_range
    = (max_obs, Finite min_obs) ∧
    0 < max_obs ∧ 0 <= min_obs <= max_obs.
Proof.
  unfold norm_obs_range.
  set (max_obs := if Rlt_dec 0 fixed_radius then fixed_radius
                  else Rmax 1 (max_lt obs 1000) + 1).
  assert (Hmax : 0 < max_obs).
  { subst max_obs. destruct (Rlt_dec 0 fixed_radius); [done|].
    pose proof (Rmax_l 1 (max_lt obs 1000)). lra. }
  destruct normalize_to_range.
  - destruct (min_gt_least obs 0) as (Hneg & _ & Hmin).
    destruct (min_gt obs 0) as [|m|] eqn:Em; [done| |].
    + destruct (Hmin m eq_refl) as (_ & H0 & _).
      destruct (Rlt_dec max_obs m).
      * exists max_obs, max_obs. split; [done|]. lra.
      * exists max_obs, m. split; [done|]. lra.
    + exists max_obs, max_obs. split; [done|]. lra.
  - destruct (Rlt_dec max_obs 0); [lra|].
    exists max_obs, 0. split; [done|]. lra.
Qed.

Lemma np_clip_bounds (a_min a_max : R) (x : xreal) :
  a_min <= a_max → a_min <= np_clip a_min a_max x <= a_max.
Proof.
  intros Hle. destruct x as [|x|]; cbn.
  - rewrite Rmin_left; lra.
  - split.
    + apply Rmin_glb; [apply Rmax_r|done].
    + apply Rmin_r.
  - lra.
Qed.

Lemma norm_obs_clip_cases (obs : list xreal)
    (clip_min clip_max fixed_radius : R) (normalize_to_range : bool) :
  ∃ offset divisor,
    0 < divisor ∧
    norm_obs_clip obs clip_min clip_max fixed_radius normalize_to_range
    = (λ x, Num (np_clip clip_min clip_max (divide divisor (minus offset x))))
      <$> obs.
Proof.
  unfold norm_obs_clip.
  destruct (norm_obs_range_spec obs fixed_radius normalize_to_range)
    as (max_obs & min_obs & -> & Hmax & Hmin).
  destruct (Req_dec_T max_obs min_obs) as [Heq|Hne].
  - exists 0, max_obs. split; [done|].
    apply list_fmap_ext. intros i [|x|] _; cbn; [done| |done].
    by rewrite Rminus_0_r.
  - exists min_obs, (Rabs (max_obs - min_obs)). split; [|done].
    apply Rabs_pos_lt. lra.
Qed.

Lemma four_pow_pred (k : Z) :
  (0 ≤ k)%Z → ∃ q, (0 ≤ q)%Z ∧ (4 ^ k = 3 * q + 1)%Z.
Proof.
  intros Hk. pattern k. apply natlike_ind; [ | | done ].
  - exists 0%Z. split; [lia|done].
  - intros x Hx (q & Hq & IH). exists (4 * q + 1)%Z. split; [lia|].
    rewrite Z.pow_succ_r; [lia|done].
Qed.

Lemma num_remaining_nodes_succ (r : Z) :
  (0 ≤ r)%Z →
  num_remaining_nodes r = S (4 * num_remaining_nodes (r - 1)).
Proof.
  intros Hr. unfold num_remaining_nodes.
  rewrite !decide_True; [|lia..].
  replace (r - 1 + 1)%Z with r by lia.
  destruct (four_pow_pred r Hr) as (q & Hq & Hpow).
  replace (4 ^ (r + 1))%Z with (4 * 4 ^ r)%Z
    by (rewrite Z.pow_add_r; lia).
  rewrite Hpow.
  replace (4 * (3 * q + 1) - 1)%Z with ((4 * q + 1) * 3)%Z by lia.
  replace (3 * q + 1 - 1)%Z with (q * 3)%Z by lia.
  change (4 - 1)%Z with 3%Z.
  rewrite !Z.div_mul; lia.
Qed.

Lemma num_remaining_nodes_zero :
  num_remaining_nodes 0 = 1%nat.
Proof. reflexivity. Qed.

Lemma n_nodes_closed (depth : Z) :
  (0 ≤ depth)%Z → n_nodes depth = Z.of_nat (num_remaining_nodes depth).
Proof.
  intros Hd. pattern depth. apply natlike_ind; [ | | done ].
  - reflexivity.
  - intros x Hx IH.
    rewrite num_remaining_nodes_succ; [|lia].
    replace (Z.succ x - 1)%Z with x by lia.
    unfold n_nodes in *.
    replace (Z.to_nat (Z.succ x + 1)) with (S (Z.to_nat (x + 1))) by lia.
    rewrite seq_S, fmap_app, foldr_app. cbn [fmap list_fmap foldr].
    assert (Hshift : ∀ (l : list Z) (a : Z),
              foldr Z.add a l = (foldr Z.add 0 l + a)%Z).
    { induction l as [|y l IHl]; intros a; cbn; [lia|].
      rewrite IHl. lia. }
    rewrite Hshift, IH.
    rewrite Nat.add_0_l, Z2Nat.id; [|lia].
    unfold num_remaining_nodes. rewrite decide_True; [|lia].
    destruct (four_pow_pred (x + 1)) as (q & Hq & Hpow); [lia|].
    rewrite Hpow. replace (3 * q + 1 - 1)%Z with (q * 3)%Z by lia.
    change (4 - 1)%Z with 3%Z. rewrite Z.div_mul; lia.
Qed.


(** X22: [norm_obs_clip] never divides by zero and never returns a
    not-a-number: for [clip_min <= clip_max] it returns one number per
    entry, each within the clipping range; [-inf] is sent to [clip_min],
    [inf] to [clip_max], and every finite entry [x] to the clipped
    [(x - offset) / divisor] for one offset and one positive divisor. *)
Theorem norm_obs_clip_range (obs : list xreal)
    (clip_min clip_max fixed_radius : R) (normalize_to_range : bool) :
  clip_min <= clip_max →
  let normalized :=
    norm_obs_clip obs clip_min clip_max fixed_radius normalize_to_range in
  length normalized = length obs ∧
  (∀ y, y ∈ normalized → ∃ x, y = Num x ∧ clip_min <= x <= clip_max) ∧
  (∀ i, obs !! i = Some NegInf → normalized !! i = Some (Num clip_min)) ∧
  (∀ i, obs !! i = Some PosInf → normalized !! i = Some (Num clip_max)) ∧
  ∃ offset divisor,
    0 < divisor ∧
    ∀ i x, obs !! i = Some (Finite x) →
           normalized !! i
           = Some (Num (Rmin (Rmax ((x - offset) / divisor) clip_min)
                          clip_max)).
Proof.
  intros Hle normalized. subst normalized.
  destruct (norm_obs_clip_cases obs clip_min clip_max fixed_radius
              normalize_to_range) as (offset & divisor & Hdivisor & ->).
  split; [by rewrite length_fmap|]. split; [|split; [|split]].
  - intros y Hy. apply list_elem_of_fmap in Hy as (x & -> & _).
    eexists. split; [done|]. by apply np_clip_bounds.
  - intros i Hi. rewrite list_lookup_fmap, Hi. cbn.
    by rewrite Rmin_left.
  - intros i Hi. by rewrite list_lookup_fmap, Hi.
  - exists offset, divisor. split; [done|]. intros i x Hi.
    by rewrite list_lookup_fmap, Hi.
Qed.

Lemma sized_node (fields : features) :
  sized 1 (_split_node_into_feature_groups fields).
Proof. by repeat split. Qed.

Lemma sized_concatenate (n m : nat) (acc sub : groups) :
  sized n acc → sized m sub → sized (n + m) (concatenate acc sub).
Proof.
  destruct acc as [[data distance] agent_data].
  destruct sub as [[sub_data sub_distance] sub_agent_data].
  unfold sized. cbn. intros (H1 & H2 & H3) (H4 & H5 & H6).
  rewrite !length_app. lia.
Qed.

Lemma no_childs_all (childs : direction → option node) :
  (∀ d, childs d = None) → no_childs childs = true.
Proof. intros Hnone. unfold no_childs. cbn. by rewrite !Hnone. Qed.

Lemma no_childs_some (childs : direction → option node) :
  (∀ d, is_Some (childs d)) → no_childs childs = false.
Proof.
  intros Hsome. unfold no_childs. cbn.
  by destruct (Hsome dir_L) as [c ->].
Qed.

Lemma subtree_sized (max_tree_depth depth : Z) (tree : node) :
  explored max_tree_depth depth tree →
  ∃ g,
    _split_subtree_into_feature_groups tree depth max_tree_depth = Returns g
    ∧ sized (num_remaining_nodes (max_tree_depth - depth)) g.
Proof.
  induction 1 as [depth Hdepth|fields childs Hnone
                 |depth fields childs Hdepth Hsome Hexplored IH].
  - cbn. eexists. split; [done|].
    unfold sized. cbn. rewrite !length_replicate. lia.
  - cbn -[no_childs]. rewrite no_childs_all; [|done]. eexists. split; [done|].
    replace (max_tree_depth - max_tree_depth)%Z with 0%Z by lia.
    apply sized_node.
  - cbn -[no_childs concatenate]. rewrite no_childs_some; [|done].
    destruct (Hsome dir_L) as [cL HL], (Hsome dir_F) as [cF HF],
             (Hsome dir_R) as [cR HR], (Hsome dir_B) as [cB HB].
    destruct (IH _ _ HL) as (gL & EL & SL), (IH _ _ HF) as (gF & EF & SF),
             (IH _ _ HR) as (gR & ER & SR), (IH _ _ HB) as (gB & EB & SB).
    rewrite HL, HF, HR, HB, EL, EF, ER, EB. cbn -[concatenate].
    eexists. split; [done|].
    rewrite num_remaining_nodes_succ; [|lia].
    replace (max_tree_depth - depth - 1)%Z
      with (max_tree_depth - (depth + 1))%Z by lia.
    set (n := num_remaining_nodes (max_tree_depth - (depth + 1))) in *.
    replace (S (4 * n)) with (1 + n + n + n + n)%nat by lia.
    repeat apply sized_concatenate; try done; apply sized_node.
Qed.

Lemma split_tree_sized (max_tree_depth : Z) (tree : node) :
  explored_root max_tree_depth tree →
  ∃ g,
    split_tree_into_feature_groups tree max_tree_depth = Returns g ∧
    sized (num_remaining_nodes max_tree_depth) g.
Proof.
  intros (Hdepth & fields & childs & -> & Hsome & Hexplored).
  destruct (Hsome dir_L) as [cL HL], (Hsome dir_F) as [cF HF],
           (Hsome dir_R) as [cR HR], (Hsome dir_B) as [cB HB].
  destruct (subtree_sized _ _ _ (Hexplored _ _ HL)) as (gL & EL & SL),
           (subtree_sized _ _ _ (Hexplored _ _ HF)) as (gF & EF & SF),
           (subtree_sized _ _ _ (Hexplored _ _ HR)) as (gR & ER & SR),
           (subtree_sized _ _ _ (Hexplored _ _ HB)) as (gB & EB & SB).
  cbn -[concatenate]. unfold child. rewrite HL, HF, HR, HB.
  cbn -[concatenate]. rewrite EL, EF, ER, EB. cbn -[concatenate].
  eexists. split; [done|].
  rewrite num_remaining_nodes_succ; [|done].
  set (n := num_remaining_nodes (max_tree_depth - 1)) in *.
  replace (S (4 * n)) with (1 + n + n + n + n)%nat by lia.
  repeat apply sized_concatenate; try done; apply sized_node.
Qed.

(** X23: The three groups of a tree explored to a depth hold [6], [1] and [4]
    entries for each of the [n_nodes] nodes of the full tree of that depth:
    a missing branch is padded to the size of the subtree it stands for. *)
Theorem split_tree_sizes (max_tree_depth : Z) (tree : node) :
  explored_root max_tree_depth tree →
  ∃ data distance agent_data,
    split_tree_into_feature_groups tree max_tree_depth
    = Returns (data, distance, agent_data) ∧
    Z.of_nat (length data) = (6 * n_nodes max_tree_depth)%Z ∧
    Z.of_nat (length distance) = n_nodes max_tree_depth ∧
    Z.of_nat (length agent_data) = (4 * n_nodes max_tree_depth)%Z.
Proof.
  intros Hroot. pose proof Hroot as (Hdepth & _).
  destruct (split_tree_sized _ _ Hroot)
    as ([[data distance] agent_data] & Hsplit & H1 & H2 & H3).
  exists data, distance, agent_data. split; [done|].
  rewrite n_nodes_closed; [|done]. cbn in H1, H2, H3. lia.
Qed.

(** X24: On a tree explored to [tree_depth] the normalized observation holds
    [11 * n_nodes] numbers between [0] and [1]: with the agent handle that
    is appended before [act], it has the [state_size] that the training
    loop computes for eleven features per node and no custom
    observations. *)
Theorem normalize_observation_state (tree_depth : Z) (observation : node)
    (observation_radius : R) :
  explored_root tree_depth observation →
  ∃ normalized_obs,
    normalize_observation observation tree_depth observation_radius
    = Returns normalized_obs ∧
    (Z.of_nat (length normalized_obs) + 1)%Z
    = state_size_of 11 tree_depth false ∧
    ∀ y, y ∈ normalized_obs → ∃ x, y = Num x ∧ 0 <= x <= 1.
Proof.
  intros Hroot. pose proof Hroot as (Hdepth & _).
  destruct (split_tree_sized _ _ Hroot)
    as ([[data distance] agent_data] & Hsplit & H1 & H2 & H3).
  cbn in H1, H2, H3.
  unfold normalize_observation. rewrite Hsplit. cbn [mbind outcome_bind].
  eexists. split; [done|].
  assert (H01 : 0 <= 1) by lra.
  destruct (norm_obs_clip_cases data 0 1 observation_radius false)
    as (offset1 & divisor1 & _ & ->).
  destruct (norm_obs_clip_cases distance 0 1 0 true)
    as (offset2 & divisor2 & _ & ->).
  split.
  - rewrite !length_app, !length_fmap. unfold state_size_of.
    rewrite n_nodes_closed; [|done]. lia.
  - intros y Hy.
    assert (Hx : ∃ x, y = Num (np_clip 0 1 x)).
    { apply elem_of_app in Hy as [Hy|Hy];
        [apply elem_of_app in Hy as [Hy|Hy]|];
        apply list_elem_of_fmap in Hy as (x & -> & _); by eexists. }
    destruct Hx as (x & ->). eexists. split; [done|].
    by apply np_clip_bounds.
Qed.

Lemma node_induction (P : node → Prop) :
  P MinusInf →
  (∀ fields childs,
     (∀ d c, childs d = Some c → P c) → P (Node fields childs)) →
  ∀ tree, P tree.
Proof.
  intros Hmissing Hnode. fix IH 1. intros [|fields childs]; [done|].
  apply Hnode. intros d c Hc.
  destruct (childs d) as [c'|]; [|discriminate Hc].
  injection Hc as <-. apply IH.
Qed.

Lemma fold_directions_raises (step : direction → outcome groups)
    (acc : outcome groups) (directions : list direction) (e : lookup_error) :
  foldl (λ acc direction,
           acc ← acc; sub ← step direction; Returns (concatenate acc sub))
    acc directions = Raises e →
  acc = Raises e ∨ ∃ d, d ∈ directions ∧ step d = Raises e.
Proof.
  revert acc. induction directions as [|d directions IH]; intros acc.
  - cbn. by left.
  - cbn -[concatenate]. intros Hfold. apply IH in Hfold as [Hhere|Hlater].
    + destruct acc as [g|e']; [|by left].
      cbn -[concatenate] in Hhere. right. exists d.
      split; [apply list_elem_of_here|].
      destruct (step d); [discriminate Hhere|done].
    + right. destruct Hlater as (d' & Hd' & Hstep). exists d'.
      split; [by apply list_elem_of_further|done].
Qed.

Lemma fold_directions_first_raises (step : direction → outcome groups)
    (acc : groups) (directions : list direction) (d : direction) :
  d ∈ directions → step d = Raises KeyError →
  (∀ d' e, step d' = Raises e → e = KeyError) →
  foldl (λ acc direction,
           acc ← acc; sub ← step direction; Returns (concatenate acc sub))
    (Returns acc) directions = Raises KeyError.
Proof.
  intros Hd Hstep Honly.
  assert (Hraised : ∀ directions,
    foldl (λ acc direction,
             acc ← acc; sub ← step direction; Returns (concatenate acc sub))
      (Raises KeyError) directions = Raises KeyError).
  { clear. induction directions as [|d directions IH]; [done|]. apply IH. }
  revert acc. induction directions as [|d' directions IH]; intros acc.
  - by apply elem_of_nil in Hd.
  - cbn -[concatenate].
    destruct (step d') as [g|e] eqn:Estep.
    + cbn -[concatenate]. apply IH.
      apply elem_of_cons in Hd as [->|Hd]; [|done].
      rewrite Hstep in Estep. discriminate Estep.
    + rewrite (Honly _ _ Estep). apply Hraised.
Qed.

Lemma subtree_node_eq (fields : features) (childs : direction → option node)
    (depth max_tree_depth : Z) :
  _split_subtree_into_feature_groups (Node fields childs) depth max_tree_depth
  = if no_childs childs
    then Returns (_split_node_into_feature_groups fields)
    else foldl (λ acc direction,
                  acc ← acc;
                  sub ← match childs direction with
                        | Some c =>
                            _split_subtree_into_feature_groups c
                              (depth + 1)%Z max_tree_depth
                        | None => Raises KeyError
                        end;
                  Returns (concatenate acc sub))
           (Returns (_split_node_into_feature_groups fields))
           tree_explored_actions_char.
Proof. reflexivity. Qed.

Lemma subtree_raises_key_error (tree : node) :
  ∀ depth max_tree_depth e,
    _split_subtree_into_feature_groups tree depth max_tree_depth = Raises e →
    e = KeyError.
Proof.
  induction tree as [|fields childs IH] using node_induction;
    intros depth max_tree_depth e.
  - discriminate.
  - rewrite subtree_node_eq. destruct (no_childs childs); [discriminate|].
    intros Hfold.
    apply (fold_directions_raises
             (λ direction,
                match childs direction with
                | Some c =>
                    _split_subtree_into_feature_groups c (depth + 1)
                      max_tree_depth
                | None => Raises KeyError
                end)) in Hfold as [Hacc|(d & _ & Hstep)];
      [discriminate Hacc|].
    destruct (childs d) as [c|] eqn:Ec.
    + by apply (IH d c Ec) in Hstep.
    + by injection Hstep as <-.
Qed.

(** X25: What [split_tree_into_feature_groups] raises: an [AttributeError]
    exactly when the root is the float [-np.inf], and a [KeyError] on every
    root that lacks one of the four directions, also a root with no
    children at all, which below the root would be a leaf. *)
Theorem split_tree_exceptions (tree : node) (max_tree_depth : Z) :
  (split_tree_into_feature_groups tree max_tree_depth = Raises AttributeError
   ↔ tree = MinusInf) ∧
  (∀ fields childs d,
     tree = Node fields childs → childs d = None →
     split_tree_into_feature_groups tree max_tree_depth = Raises KeyError) ∧
  (∀ fields childs,
     (∀ d, childs d = None) →
     _split_subtree_into_feature_groups (Node fields childs) 1 max_tree_depth
     = Returns (_split_node_into_feature_groups fields)).
Proof.
  assert (Honly : ∀ childs d' e,
    (c ← child childs d';
     _split_subtree_into_feature_groups c 1 max_tree_depth) = Raises e →
    e = KeyError).
  { intros childs d' e. unfold child. destruct (childs d') as [c|].
    - cbn [mbind outcome_bind]. apply subtree_raises_key_error.
    - cbn. by intros [= <-]. }
  assert (Hfold : ∀ fields childs,
    split_tree_into_feature_groups (Node fields childs) max_tree_depth
    = foldl (λ acc direction,
               acc ← acc;
               sub ← (c ← child childs direction;
                      _split_subtree_into_feature_groups c 1 max_tree_depth);
               Returns (concatenate acc sub))
        (Returns (_split_node_into_feature_groups fields))
        tree_explored_actions_char).
  { intros fields childs. cbn -[concatenate].
    by repeat (destruct (child childs _) as [?|?]; cbn -[concatenate];
               [destruct (_split_subtree_into_feature_groups _ _ _);
                cbn -[concatenate]|]). }
  split; [|split].
  - split; [|by intros ->].
    destruct tree as [|fields childs]; [done|]. rewrite Hfold. intros Hraise.
    apply fold_directions_raises in Hraise as [Hacc|(d & _ & Hstep)];
      [discriminate Hacc|].
    apply Honly in Hstep. discriminate Hstep.
  - intros fields childs d -> Hnone. rewrite Hfold.
    apply (fold_directions_first_raises _ _ _ d).
    + destruct d; set_solver.
    + unfold child. by rewrite Hnone.
    + apply Honly.
  - intros fields childs Hnone. rewrite subtree_node_eq.
    by rewrite no_childs_all.
Qed.

Lemma explored_root_example : explored_root 1 tree_example.
Proof.
  split; [lia|]. eexists _, _. split; [reflexivity|]. split.
  - intros []; eexists; reflexivity.
  - intros [] c [= <-].
    + apply explored_missing. lia.
    + by apply explored_leaf.
    + apply explored_missing. lia.
    + apply explored_missing. lia.
Defined.

Lemma norm_obs_clip_range_witness :
  0 <= 1 ∧
  let normalized := norm_obs_clip [Finite 3; PosInf; NegInf] 0 1 0 true in
  length normalized = 3%nat ∧
  (∀ y, y ∈ normalized → ∃ x, y = Num x ∧ 0 <= x <= 1) ∧
  (∀ i, [Finite 3; PosInf; NegInf] !! i = Some NegInf →
        normalized !! i = Some (Num 0)) ∧
  (∀ i, [Finite 3; PosInf; NegInf] !! i = Some PosInf →
        normalized !! i = Some (Num 1)) ∧
  ∃ offset divisor,
    0 < divisor ∧
    ∀ i x, [Finite 3; PosInf; NegInf] !! i = Some (Finite x) →
           normalized !! i
           = Some (Num (Rmin (Rmax ((x - offset) / divisor) 0) 1)).
Proof.
  assert (H01 : 0 <= 1) by lra.
  split; [exact H01|].
  exact (norm_obs_clip_range [Finite 3; PosInf; NegInf] 0 1 0 true H01).
Defined.

Lemma split_tree_sizes_witness :
  ∃ data distance agent_data,
    split_tree_into_feature_groups tree_example 1
    = Returns (data, distance, agent_data) ∧
    Z.of_nat (length data) = (6 * n_nodes 1)%Z ∧
    Z.of_nat (length distance) = n_nodes 1 ∧
    Z.of_nat (length agent_data) = (4 * n_nodes 1)%Z.
Proof. exact (split_tree_sizes 1 tree_example explored_root_example). Defined.

Lemma normalize_observation_state_witness :
  ∃ normalized_obs,
    normalize_observation tree_example 1 0 = Returns normalized_obs ∧
    (Z.of_nat (length normalized_obs) + 1)%Z = state_size_of 11 1 false ∧
    ∀ y, y ∈ normalized_obs → ∃ x, y = Num x ∧ 0 <= x <= 1.
Proof.
  exact (normalize_observation_state 1 tree_example 0 explored_root_example).
Defined.

End observation.

(** ** Acting: what [act] stores, and what a failing call leaves behind *)

Section acting.
Context `{Torch}.

Lemma append_inv {A} (field field' : list (list A)) (agent_id : Z) (x : A) :
  PsPPOPolicy.append field agent_id x = Ok field' →
  ∃ i xs,
    PsPPOPolicy.position field agent_id = Ok i ∧
    field !! i = Some xs ∧
    field' = <[i := xs ++ [x]]> field.
Proof.
  unfold PsPPOPolicy.append.
  destruct (PsPPOPolicy.position field agent_id) as [i|e]; [|discriminate].
  cbn [mbind result_bind]. unfold getitem.
  destruct (field !! i) as [xs|] eqn:Hxs; [|discriminate].
  cbn [mbind result_bind]. intros [= <-]. by exists i, xs.
Qed.

Lemma position_lt {A} (xs : list A) (agent_id : Z) (i : nat) :
  PsPPOPolicy.position xs agent_id = Ok i → i < length xs.
Proof.
  unfold PsPPOPolicy.position.
  repeat case_decide; intros [= <-]; lia.
Qed.

Lemma position_length {A B} (xs : list A) (ys : list B) (agent_id : Z) :
  length xs = length ys →
  PsPPOPolicy.position xs agent_id = PsPPOPolicy.position ys agent_id.
Proof. unfold PsPPOPolicy.position. by intros ->. Qed.

Lemma append_position {A} (field : list (list A)) (agent_id : Z) (x : A)
    (i : nat) :
  PsPPOPolicy.position field agent_id = Ok i →
  ∃ xs, field !! i = Some xs ∧
        PsPPOPolicy.append field agent_id x = Ok (<[i := xs ++ [x]]> field).
Proof.
  intros Hpos. pose proof (position_lt _ _ _ Hpos) as Hlt.
  destruct (lookup_lt_is_Some_2 field i Hlt) as [xs Hxs].
  exists xs. split; [done|].
  unfold PsPPOPolicy.append. rewrite Hpos. cbn [mbind result_bind].
  unfold getitem. by rewrite Hxs.
Qed.

Lemma broadcast_one {A B C} (f : A → B → C) (x : A) (y : B) :
  broadcast f [x] [y] = Ok [f x y].
Proof. reflexivity. Qed.

(** What a call of [act] that returns has done. *)
Lemma act_inv (self : PsPPOPolicy.t) (state : list R) (m : Memory.t)
    (action_mask : list bool) (action : option nat) (sample : nat)
    (memory' : option Memory.t) (a : nat) :
  PsPPOPolicy.act self state (Some m) action_mask action sample
  = (memory', Ok a) →
  a = default sample action ∧
  ∃ m' agent_id logits log,
    memory' = Some m' ∧
    getlast state = Ok agent_id ∧
    PsPPOPolicy.mask_logits action_mask
      (logits_of (PsPPOPolicy.actor_network self)
         (PsPPOPolicy.parameters self) state) = Ok logits ∧
    PsPPOPolicy.log_prob
      (PsPPOPolicy.Categorical (PsPPOPolicy.softmax logits)) a = Ok log ∧
    PsPPOPolicy.append (Memory.states m) (PsPPOPolicy.int agent_id) state
    = Ok (Memory.states m') ∧
    PsPPOPolicy.append (Memory.actions m) (PsPPOPolicy.int agent_id) a
    = Ok (Memory.actions m') ∧
    PsPPOPolicy.append (Memory.logs_of_action_prob m)
      (PsPPOPolicy.int agent_id) log
    = Ok (Memory.logs_of_action_prob m') ∧
    PsPPOPolicy.append (Memory.masks m) (PsPPOPolicy.int agent_id)
      action_mask
    = Ok (Memory.masks m') ∧
    Memory.rewards m' = Memory.rewards m ∧
    Memory.dones m' = Memory.dones m ∧
    Memory.num_agents m' = Memory.num_agents m.
Proof.
  unfold PsPPOPolicy.act.
  destruct (getlast state) as [agent_id|e]; [|discriminate].
  cbn [mbind result_bind].
  destruct (PsPPOPolicy.mask_logits _ _) as [logits|e]; [|discriminate].
  cbn [mbind result_bind].
  destruct (PsPPOPolicy.append (Memory.states m) _ _) as [states|e] eqn:Hs;
    [|discriminate].
  cbn [Memory.actions Memory.states Memory.logs_of_action_prob Memory.masks
       Memory.rewards Memory.dones Memory.num_agents].
  destruct (PsPPOPolicy.append (Memory.actions m) _ _) as [actions|e] eqn:Ha;
    [|discriminate].
  destruct (PsPPOPolicy.position (Memory.logs_of_action_prob m) _)
    as [i|e] eqn:Hp; [|discriminate].
  cbn [mbind result_bind].
  destruct (PsPPOPolicy.log_prob _ _) as [log|e] eqn:Hl; [|discriminate].
  cbn [mbind result_bind].
  destruct (PsPPOPolicy.append (Memory.logs_of_action_prob m) _ _)
    as [logs|e] eqn:Hg; [|discriminate].
  destruct (PsPPOPolicy.append (Memory.masks m) _ _) as [masks|e] eqn:Hm;
    [|discriminate].
  intros [= <- <-]. split; [done|].
  eexists _, agent_id, logits, log. by repeat split.
Qed.

(** X26: The log-probability that [act] stores for a state, a mask and the
    action it returns is the one that [evaluate] computes for them under
    the same parameters: on the transition that [act] recorded, followed by
    any other, [evaluate] returns exactly the stored number. *)
Theorem act_log_prob_is_evaluated (self : PsPPOPolicy.t) (state : list R)
    (m m' : Memory.t) (action_mask : list bool) (action : option nat)
    (sample a : nat) (next_state : list R) (next_action : nat)
    (next_mask : list bool) :
  PsPPOPolicy.act self state (Some m) action_mask action sample
  = (Some m', Ok a) →
  ∃ i logs log v entropy,
    Memory.logs_of_action_prob m !! i = Some logs ∧
    Memory.logs_of_action_prob m' !! i = Some (logs ++ [log]) ∧
    PsPPOPolicy.evaluate self [state; next_state] [a; next_action]
      [action_mask; next_mask]
    = Ok ([log], v, [entropy]).
Proof.
  intros Hact. apply act_inv in Hact
    as (_ & m'' & agent_id & logits & log & [= <-] & _ & Hmask & Hlog & _ & _
        & Hlogs & _).
  apply append_inv in Hlogs as (i & logs & Hpos & Hi & Hlogs).
  exists i, logs, log. eexists _, _. split; [done|]. split.
  - rewrite Hlogs. apply list_lookup_insert_eq.
    by apply position_lt in Hpos.
  - unfold PsPPOPolicy.evaluate.
    change (but_last [state; next_state]) with [state].
    change (but_last [action_mask; next_mask]) with [action_mask].
    change (but_last [a; next_action]) with [a].
    cbn [fmap list_fmap]. rewrite broadcast_one.
    cbn [mbind result_bind collect]. rewrite Hmask.
    cbn [mbind result_bind fmap list_fmap]. rewrite broadcast_one.
    cbn [mbind result_bind collect]. rewrite Hlog.
    cbn [mbind result_bind]. reflexivity.
Qed.

(** X27: An action handed to [act] is not checked against the number of
    actions before the memory is touched.  With an action that is no index
    of the distribution, [act] without a memory returns it all the same;
    with a memory it raises [ValueError] after the state and the action
    were appended and before the log-probability and the mask are, so the
    four lists of the agent no longer have one length. *)
Theorem act_action_out_of_range (self : PsPPOPolicy.t) (state : list R)
    (m : Memory.t) (action_mask : list bool) (a sample : nat)
    (agent_id : R) (logits : list R) (i : nat) :
  getlast state = Ok agent_id →
  PsPPOPolicy.mask_logits action_mask
    (logits_of (PsPPOPolicy.actor_network self)
       (PsPPOPolicy.parameters self) state) = Ok logits →
  length logits ≤ a →
  PsPPOPolicy.position (Memory.states m) (PsPPOPolicy.int agent_id) = Ok i →
  length (Memory.actions m) = length (Memory.states m) →
  length (Memory.logs_of_action_prob m) = length (Memory.states m) →
  PsPPOPolicy.act self state None action_mask (Some a) sample
  = (None, Ok a) ∧
  ∃ m' states actions,
    PsPPOPolicy.act self state (Some m) action_mask (Some a) sample
    = (Some m', Raise ValueError) ∧
    Memory.states m !! i = Some states ∧
    Memory.states m' !! i = Some (states ++ [state]) ∧
    Memory.actions m !! i = Some actions ∧
    Memory.actions m' !! i = Some (actions ++ [a]) ∧
    Memory.logs_of_action_prob m' = Memory.logs_of_action_prob m ∧
    Memory.masks m' = Memory.masks m ∧
    Memory.rewards m' = Memory.rewards m ∧
    Memory.dones m' = Memory.dones m.
Proof.
  intros Hlast Hmask Hrange Hpos Hactions Hlogs.
  unfold PsPPOPolicy.act. rewrite Hlast. cbn [mbind result_bind].
  rewrite Hmask. cbn [mbind result_bind].
  change (default sample (Some a)) with a. cbv zeta. split; [done|].
  destruct (append_position _ _ state _ Hpos) as (states & Hstates & ->).
  cbn [Memory.actions Memory.states Memory.logs_of_action_prob Memory.masks
       Memory.rewards Memory.dones Memory.num_agents].
  assert (Hposa : PsPPOPolicy.position (Memory.actions m)
                    (PsPPOPolicy.int agent_id) = Ok i).
  { by rewrite (position_length _ (Memory.states m)). }
  destruct (append_position _ _ a _ Hposa) as (actions & Hacts & ->).
  assert (Hposl : PsPPOPolicy.position (Memory.logs_of_action_prob m)
                    (PsPPOPolicy.int agent_id) = Ok i).
  { by rewrite (position_length _ (Memory.states m)). }
  rewrite Hposl. cbn [mbind result_bind].
  assert (Hlog : PsPPOPolicy.log_prob
            (PsPPOPolicy.Categorical (PsPPOPolicy.softmax logits)) a
          = Raise ValueError).
  { unfold PsPPOPolicy.log_prob.
    rewrite lookup_ge_None_2; [done|].
    unfold PsPPOPolicy.Categorical, PsPPOPolicy.softmax.
    by rewrite !length_fmap. }
  rewrite Hlog. cbn [mbind result_bind].
  eexists _, states, actions. split; [done|].
  cbn [Memory.actions Memory.states Memory.logs_of_action_prob Memory.masks
       Memory.rewards Memory.dones].
  split; [done|]. split.
  { apply list_lookup_insert_eq. by apply position_lt in Hpos. }
  split; [done|]. split.
  { apply list_lookup_insert_eq. by apply position_lt in Hposa. }
  done.
Qed.

End acting.

Section acting_examples.

Lemma int_IZR (z : Z) : PsPPOPolicy.int (IZR z) = z.
Proof.
  assert (Hpart : ∀ k, Int_part (IZR k) = k).
  { intros k. unfold Int_part.
    rewrite <- (tech_up (IZR k) (k + 1)); [lia| |].
    - rewrite plus_IZR. lra.
    - rewrite plus_IZR. lra. }
  unfold PsPPOPolicy.int. destruct (Rle_dec 0 (IZR z)); [apply Hpart|].
  rewrite <- opp_IZR, Hpart. lia.
Qed.

Lemma act_example :
  ∃ m',
    PsPPOPolicy.act (H:=toy_torch) toy_policy [0.5; 1]%R
      (Some memory_two_agents) [true; false] None 0
    = (Some m', Ok 0).
Proof.
  eexists. unfold PsPPOPolicy.act. cbn [getlast last mbind result_bind].
  rewrite (int_IZR 1). vm_compute. reflexivity.
Defined.

Lemma act_log_prob_is_evaluated_witness :
  ∃ m',
    PsPPOPolicy.act (H:=toy_torch) toy_policy [0.5; 1]%R
      (Some memory_two_agents) [true; false] None 0
    = (Some m', Ok 0) ∧
    ∃ i logs log v entropy,
      Memory.logs_of_action_prob memory_two_agents !! i = Some logs ∧
      Memory.logs_of_action_prob m' !! i = Some (logs ++ [log]) ∧
      PsPPOPolicy.evaluate (H:=toy_torch) toy_policy [[0.5; 1]; [0.25; 1]]%R
        [0; 1] [[true; false]; [true; true]]
      = Ok ([log], v, [entropy]).
Proof.
  destruct act_example as [m' Hact]. exists m'. split; [exact Hact|].
  exact (act_log_prob_is_evaluated (H:=toy_torch) toy_policy [0.5; 1]%R
           memory_two_agents m' [true; false] None 0 0 [0.25; 1]%R 1
           [true; true] Hact).
Defined.

Lemma act_action_out_of_range_witness :
  PsPPOPolicy.act (H:=toy_torch) toy_policy [0.5; 1]%R None [true; false]
    (Some 5) 0
  = (None, Ok 5) ∧
  ∃ m' states actions,
    PsPPOPolicy.act (H:=toy_torch) toy_policy [0.5; 1]%R
      (Some memory_two_agents) [true; false] (Some 5) 0
    = (Some m', Raise ValueError) ∧
    Memory.states memory_two_agents !! 1 = Some states ∧
    Memory.states m' !! 1 = Some (states ++ [[0.5; 1]%R]) ∧
    Memory.actions memory_two_agents !! 1 = Some actions ∧
    Memory.actions m' !! 1 = Some (actions ++ [5]) ∧
    Memory.logs_of_action_prob m'
    = Memory.logs_of_action_prob memory_two_agents ∧
    Memory.masks m' = Memory.masks memory_two_agents ∧
    Memory.rewards m' = Memory.rewards memory_two_agents ∧
    Memory.dones m' = Memory.dones memory_two_agents.
Proof.
  apply (act_action_out_of_range (H:=toy_torch) toy_policy [0.5; 1]%R
           memory_two_agents [true; false] 5 0 1%R [0; -1e8]%R 1).
  - reflexivity.
  - vm_compute. reflexivity.
  - cbn. lia.
  - rewrite (int_IZR 1). reflexivity.
  - reflexivity.
  - reflexivity.
Defined.

End acting_examples.

(** ** Shared networks: the actor built on the critic's trunk *)

Section shared_networks.
Context `{Torch}.
Local Open Scope string_scope.

Lemma setitem_fresh (key : string) (value : layer) (network : ordered_dict) :
  (∀ l, (key, l) ∉ network) →
  PsPPOPolicy.setitem key value network = (network ++ [(key, value)])%list.
Proof.
  induction network as [|[k v] rest IH]; intros Hfresh; [done|].
  cbn. destruct (decide (k = key)) as [->|Hne].
  - destruct (Hfresh v). apply list_elem_of_here.
  - rewrite IH; [done|]. intros l Hl. apply (Hfresh l).
    by apply list_elem_of_further.
Qed.

Lemma setitem_keys (key : string) (value : layer) (network : ordered_dict)
    (k : string) (l : layer) :
  (k, l) ∈ PsPPOPolicy.setitem key value network →
  k = key ∨ ∃ l', (k, l') ∈ network.
Proof.
  induction network as [|[k' v'] rest IH]; cbn.
  - intros Hin. apply list_elem_of_singleton in Hin as [= -> _]. by left.
  - destruct (decide (k' = key)) as [->|Hne]; intros Hin;
      apply elem_of_cons in Hin as [[= -> _]|Hin].
    + by left.
    + right. exists l. by apply list_elem_of_further.
    + right. exists v'. apply list_elem_of_here.
    + destruct (IH Hin) as [->|[l' Hl']]; [by left|].
      right. exists l'. by apply list_elem_of_further.
Qed.

Lemma critic_keys (ss acs : Z) (activation : string) (depth width : Z)
    (network : ordered_dict) :
  PsPPOPolicy._build_network ss acs activation false depth width
  = Ok network →
  ∀ k l, (k, l) ∈ network → ∃ rest, k = ("c" +:+ rest).
Proof.
  unfold PsPPOPolicy._build_network.
  destruct (decide (depth ≤ 0)%Z); [done|].
  set (P := λ network : ordered_dict,
         ∀ k l, (k, l) ∈ network → ∃ rest, k = ("c" +:+ rest)).
  assert (Hset : ∀ key value network,
            (∃ rest, key = ("c" +:+ rest)) → P network →
            P (PsPPOPolicy.setitem key value network)).
  { intros key value net Hkey Hnet k l Hin.
    apply setitem_keys in Hin as [->|[l' Hl']]; [done|].
    by apply (Hnet k l'). }
  match goal with
  | |- (?first ≫= _) = Ok network → _ =>
      assert (Hfirst : ∀ net, first = Ok net → P net)
  end.
  { assert (Hlist : ∀ net : ordered_dict,
              Forall (λ kl, ∃ rest, kl.1 = "c" +:+ rest) net → P net).
    { intros net Hall k l Hin.
      by apply (proj1 (Forall_forall _ _) Hall (k, l)). }
    intros net. destruct (decide (depth > 1)%Z).
    - destruct (PsPPOPolicy._get_activation activation) as [act|]; [|done].
      cbn [mbind result_bind]. intros [= <-].
      apply Hlist. repeat constructor; by eexists.
    - intros [= <-]. apply Hlist. repeat constructor; by eexists. }
  match goal with
  | |- (?first ≫= _) = Ok network → _ =>
      destruct first as [net|]; [|done]
  end.
  cbn [mbind result_bind]. intros Hloop.
  apply (for_each_invariant P _ _ _ _) in Hloop; [done| |by apply Hfirst].
  intros layer s1 s2 Hstep Hs1. unfold PsPPOPolicy.add_layer in Hstep.
  destruct (decide _) in Hstep.
  - injection Hstep as <-. apply Hset; [by eexists|done].
  - destruct (PsPPOPolicy._get_activation activation) as [act|]; [|done].
    cbn [mbind result_bind] in Hstep. injection Hstep as <-.
    apply Hset; [by eexists|]. apply Hset; [by eexists|done].
Qed.

(** X28: With [shared] set, the actor is the critic without its last layer,
    followed by one linear layer from the critic's width to the number of
    actions: the two networks have the same number of layers, every layer
    of the actor but the last is a layer of the critic under the same
    name, and neither [actor_mlp_depth] nor [actor_mlp_width] is read. *)
Theorem shared_actor_on_critic_trunk (fs : PsPPOPolicy.filesystem)
    (ss acs : Z) (tp : train_params.t) (out out' : list string)
    (self : PsPPOPolicy.t) :
  train_params.shared tp = true →
  PsPPOPolicy.__init__ fs ss acs tp out = Ok (self, out') →
  (1 < train_params.critic_mlp_depth tp)%Z ∧
  PsPPOPolicy.actor_network self
  = (but_last (PsPPOPolicy.critic_network self)
     ++ [("actor_output_layer",
          Linear (train_params.critic_mlp_width tp) acs)])%list ∧
  PsPPOPolicy._build_network ss acs (train_params.activation tp) false
    (train_params.critic_mlp_depth tp) (train_params.critic_mlp_width tp)
  = Ok (PsPPOPolicy.critic_network self).
Proof.
  intros Hshared. unfold PsPPOPolicy.__init__. rewrite Hshared.
  destruct (PsPPOPolicy._build_network ss acs _ false _ _)
    as [critic|] eqn:Hcritic; [|done].
  cbn [mbind result_bind negb].
  destruct (decide (train_params.critic_mlp_depth tp ≤ 1)%Z); [done|].
  cbn [mbind result_bind].
  assert (Hfresh : PsPPOPolicy.setitem "actor_output_layer"
                     (Linear (train_params.critic_mlp_width tp) acs)
                     (PsPPOPolicy.popitem critic)
                   = (but_last critic
                      ++ [("actor_output_layer",
                           Linear (train_params.critic_mlp_width tp) acs)])
                     %list).
  { apply setitem_fresh. intros l Hl.
    unfold PsPPOPolicy.popitem, but_last in Hl.
    apply list_elem_of_lookup in Hl as [i Hi].
    apply lookup_take_Some in Hi as [Hi _].
    apply list_elem_of_lookup_2 in Hi.
    by destruct (critic_keys _ _ _ _ _ _ Hcritic _ _ Hi) as [rest [=]]. }
  rewrite Hfresh.
  destruct (train_params.load_model_path tp) as [path|].
  - intros Hload.
    apply load_keeps_architecture in Hload as (_ & _ & _ & -> & ->).
    cbn. split; [lia|done].
  - intros [= <- _]. cbn. split; [lia|done].
Qed.

End shared_networks.

Section shared_networks_examples.

Lemma shared_actor_on_critic_trunk_witness :
  ∃ self out,
    PsPPOPolicy.__init__ (H:=toy_torch) ∅ 4 5
      (toy_params "Tanh" true 2 7 None) [] = Ok (self, out) ∧
    (1 < 2)%Z ∧
    PsPPOPolicy.actor_network self
    = (but_last (PsPPOPolicy.critic_network self)
       ++ [("actor_output_layer"%string, Linear 8 5)])%list ∧
    PsPPOPolicy._build_network 4 5 "Tanh" false 2 8
    = Ok (PsPPOPolicy.critic_network self).
Proof.
  destruct (PsPPOPolicy.__init__ (H:=toy_torch) ∅ 4 5
              (toy_params "Tanh" true 2 7 None) [])
    as [[self out]|e] eqn:Hinit.
  - exists self, out. split; [reflexivity|].
    exact (shared_actor_on_critic_trunk (H:=toy_torch) ∅ 4 5
             (toy_params "Tanh" true 2 7 None) [] out self eq_refl Hinit).
  - exfalso. by_running Hinit.
Defined.

End shared_networks_examples.

(** ** Reward shaping *)

Section shaping.
Local Open Scope R_scope.

Lemma dict_comprehension_snoc {A B} (f : nat → A → outcome B)
    (items : list (nat * A)) (k : nat) (x : A) :
  dict_comprehension f (items ++ [(k, x)])
  = d ← dict_comprehension f items; v ← f k x; Returns (<[k := v]> d).
Proof. unfold dict_comprehension. by rewrite foldl_app. Qed.

Lemma dict_comprehension_returns {A B} (f : nat → A → outcome B)
    (g : nat → A → B) (items : list (nat * A)) :
  (∀ k x, (k, x) ∈ items → f k x = Returns (g k x)) →
  NoDup items.*1 →
  ∃ d,
    dict_comprehension f items = Returns d ∧
    ∀ k, d !! k = (λ x, g k x) <$> (list_to_map items : gmap nat A) !! k.
Proof.
  induction items as [|[k x] items IH] using rev_ind; intros Hf Hdup.
  - exists ∅. split; [done|]. intros k. by rewrite !lookup_empty.
  - rewrite fmap_app in Hdup. apply NoDup_app in Hdup as (Hdup & Hfresh & _).
    destruct IH as (d & Hd & Hlookup); [|done|].
    { intros k' x' Hin. apply Hf. apply elem_of_app. by left. }
    exists (<[k := g k x]> d). split.
    + rewrite dict_comprehension_snoc, Hd. cbn [mbind outcome_bind].
      rewrite Hf; [done|]. apply elem_of_app. right. apply list_elem_of_here.
    + intros k'. rewrite list_to_map_app.
      assert (Hk : (list_to_map items : gmap nat A) !! k = None).
      { apply not_elem_of_list_to_map_1. intros Hin.
        apply (Hfresh k Hin). cbn. apply list_elem_of_here. }
      destruct (decide (k' = k)) as [->|Hne].
      * rewrite lookup_insert_eq, lookup_union_r; [|done].
        cbn. by rewrite lookup_insert_eq.
      * rewrite lookup_insert_ne; [|done]. rewrite Hlookup.
        destruct ((list_to_map items : gmap nat A) !! k') as [x'|] eqn:Hx'.
        -- by rewrite (lookup_union_Some_l _ _ _ _ Hx').
        -- rewrite lookup_union_r; [|done]. cbn.
           rewrite lookup_insert_ne; [|done]. by rewrite lookup_empty.
Qed.

Lemma enumerate_keys {A} (xs : list A) :
  (enumerate xs).*1 = seq 0 (length xs).
Proof.
  unfold enumerate. rewrite fmap_imap.
  apply list_eq. intros i. rewrite list_lookup_imap.
  destruct (xs !! i) as [x|] eqn:Hx; cbn.
  - symmetry. apply lookup_seq. split; [done|].
    by apply lookup_lt_Some in Hx.
  - symmetry. apply lookup_seq_ge. by apply lookup_ge_None in Hx.
Qed.

Lemma enumerate_lookup {A} (xs : list A) (a : nat) :
  (list_to_map (enumerate xs) : gmap nat A) !! a = xs !! a.
Proof.
  destruct (xs !! a) as [x|] eqn:Hx.
  - apply elem_of_list_to_map_1.
    + rewrite enumerate_keys. apply NoDup_seq.
    + apply list_elem_of_lookup. exists a. unfold enumerate.
      by rewrite list_lookup_imap, Hx.
  - apply not_elem_of_list_to_map_1. rewrite enumerate_keys.
    rewrite elem_of_seq. apply lookup_ge_None in Hx. lia.
Qed.

Lemma range_keys (n : nat) : ((λ a, (a, a)) <$> seq 0 n).*1 = seq 0 n.
Proof. rewrite <- list_fmap_compose. apply list_fmap_id. Qed.

Lemma range_lookup (n a : nat) :
  (list_to_map ((λ a, (a, a)) <$> seq 0 n) : gmap nat nat) !! a
  = if decide (a < n)%nat then Some a else None.
Proof.
  pose proof (range_keys n) as Hkeys.
  destruct (decide (a < n)%nat) as [Hlt|Hge].
  - apply elem_of_list_to_map_1.
    + rewrite Hkeys. apply NoDup_seq.
    + apply list_elem_of_fmap. exists a. split; [done|].
      apply elem_of_seq. lia.
  - apply not_elem_of_list_to_map_1. rewrite Hkeys, elem_of_seq. lia.
Qed.

Lemma size_keys_range {A} (d : gmap nat A) (n : nat) :
  (∀ a, is_Some (d !! a) ↔ (a < n)%nat) → size d = n.
Proof.
  intros Hkeys. rewrite <- size_dom.
  assert (Hdom : dom d = set_seq (C:=gset nat) 0 n).
  { apply set_eq. intros a. rewrite elem_of_dom, elem_of_set_seq, Hkeys.
    lia. }
  rewrite Hdom. apply size_set_seq.
Qed.

(** X29: The two shaping steps that [step_shaping] runs before the
    environment step, on an action for every agent that has a mask and an
    action within every mask: the result has an entry for every agent, the
    stop penalty for an agent that stops, and otherwise the invalid-action
    penalty if its action is masked out and [0] if not.  The stop penalty
    replaces the invalid-action penalty, the two are never added. *)
Theorem stop_penalty_replaces_invalid_penalty (action_dict : gmap nat nat)
    (action_mask : list (list bool))
    (invalid_action_penalty stop_penalty : R) :
  (∀ a, is_Some (action_dict !! a) ↔ (a < length action_mask)%nat) →
  (∀ a action mask,
     action_dict !! a = Some action → action_mask !! a = Some mask →
     (action < length mask)%nat) →
  ∃ invalid_rewards_shaped stop_rewards_shaped,
    check_invalid_transitions action_dict action_mask invalid_action_penalty
    = Returns invalid_rewards_shaped ∧
    check_stop_transition action_dict invalid_rewards_shaped stop_penalty
    = Returns stop_rewards_shaped ∧
    (∀ a action mask (allowed : bool),
       action_dict !! a = Some action → action_mask !! a = Some mask →
       mask !! action = Some allowed →
       stop_rewards_shaped !! a
       = Some (if decide (action = STOP_MOVING) then stop_penalty
               else if allowed then 0 else invalid_action_penalty)) ∧
    (∀ a, (length action_mask ≤ a)%nat → stop_rewards_shaped !! a = None).
Proof.
  intros Hkeys Hmask.
  set (value := λ (a : nat) (mask : list bool),
         match action_dict !! a with
         | Some action =>
             match (mask !! action : option bool) with
             | Some allowed => if allowed then 0 else invalid_action_penalty
             | None => 0
             end
         | None => 0
         end).
  destruct (dict_comprehension_returns
              (λ a (mask : list bool),
                 match action_dict !! a with
                 | Some action =>
                     match (mask !! action : option bool) with
                     | Some allowed =>
                         Returns (if allowed then 0
                                  else invalid_action_penalty)
                     | None => Raises (Builtin IndexError)
                     end
                 | None => Returns 0
                 end) value (enumerate action_mask))
    as (invalid & Hinvalid & Hlookup).
  { intros a mask Hin. unfold value.
    destruct (action_dict !! a) as [action|] eqn:Ha; [|done].
    assert (Hm : action_mask !! a = Some mask).
    { apply list_elem_of_lookup in Hin as [i Hi]. unfold enumerate in Hi.
      rewrite list_lookup_imap in Hi.
      destruct (action_mask !! i) as [mask'|] eqn:Hi'; [|done].
      by injection Hi as <- <-. }
    destruct (lookup_lt_is_Some_2 mask action (Hmask _ _ _ Ha Hm))
      as [allowed ->].
    done. }
  { rewrite enumerate_keys. apply NoDup_seq. }
  assert (Hinvalid_at : ∀ a mask,
            action_mask !! a = Some mask → invalid !! a = Some (value a mask)).
  { intros a mask Hm. by rewrite Hlookup, enumerate_lookup, Hm. }
  set (stop := λ (a _ : nat),
         match action_dict !! a with
         | Some action =>
             if decide (action = STOP_MOVING) then stop_penalty
             else default 0 (invalid !! a)
         | None => 0
         end).
  destruct (dict_comprehension_returns
              (λ a (_ : nat),
                 action ← dict_getitem action_dict a;
                 if decide (action = STOP_MOVING) then Returns stop_penalty
                 else dict_getitem invalid a) stop
              ((λ a, (a, a)) <$> seq 0 (size action_dict)))
    as (stopped & Hstopped & Hlookup').
  { intros a a' Hin. apply list_elem_of_fmap in Hin as (b & Heq & Hb).
    injection Heq as -> ->. apply elem_of_seq in Hb.
    rewrite (size_keys_range _ _ Hkeys) in Hb.
    destruct (proj2 (Hkeys b)) as [action Ha]; [lia|].
    destruct (lookup_lt_is_Some_2 action_mask b) as [mask Hm]; [lia|].
    unfold stop, dict_getitem. rewrite Ha. cbn [mbind outcome_bind].
    destruct (decide (action = STOP_MOVING)); [done|].
    by rewrite (Hinvalid_at _ _ Hm). }
  { rewrite range_keys. apply NoDup_seq. }
  exists invalid, stopped. split; [exact Hinvalid|].
  split; [exact Hstopped|]. split.
  - intros a action mask allowed Ha Hm Hallowed.
    rewrite Hlookup', range_lookup, (size_keys_range _ _ Hkeys).
    apply lookup_lt_Some in Hm as Hlt.
    rewrite decide_True; [|done]. cbn. f_equal. unfold stop. rewrite Ha.
    destruct (decide (action = STOP_MOVING)); [done|].
    rewrite (Hinvalid_at _ _ Hm). cbn. unfold value.
    by rewrite Ha, Hallowed.
  - intros a Hge.
    rewrite Hlookup', range_lookup, (size_keys_range _ _ Hkeys).
    by rewrite decide_False; [|lia].
Qed.

Lemma stop_penalty_replaces_invalid_penalty_witness :
  ∃ invalid_rewards_shaped stop_rewards_shaped,
    check_invalid_transitions {[ 0%nat := 4%nat; 1%nat := 2%nat ]}
      [[true; true; true; true; false]; [true; true; false; true; true]]
      (-2)
    = Returns invalid_rewards_shaped ∧
    check_stop_transition {[ 0%nat := 4%nat; 1%nat := 2%nat ]}
      invalid_rewards_shaped (-1)
    = Returns stop_rewards_shaped ∧
    (∀ a action mask (allowed : bool),
       ({[ 0%nat := 4%nat; 1%nat := 2%nat ]} : gmap nat nat) !! a
       = Some action →
       [[true; true; true; true; false]; [true; true; false; true; true]]
         !! a = Some mask →
       mask !! action = Some allowed →
       stop_rewards_shaped !! a
       = Some (if decide (action = STOP_MOVING) then -1
               else if allowed then 0 else -2)) ∧
    (∀ a, (length [[true; true; true; true; false];
                   [true; true; false; true; true]] ≤ a)%nat →
          stop_rewards_shaped !! a = None).
Proof.
  apply (stop_penalty_replaces_invalid_penalty
           {[ 0%nat := 4%nat; 1%nat := 2%nat ]}
           [[true; true; true; true; false]; [true; true; false; true; true]]
           (-2) (-1)).
  - intros [|[|a]].
    + split; [cbn; lia|]. intros _. exists 4%nat. vm_compute. reflexivity.
    + split; [cbn; lia|]. intros _. exists 2%nat. vm_compute. reflexivity.
    + rewrite lookup_insert_ne, lookup_singleton_ne by lia.
      split; [intros Hs; by apply is_Some_None in Hs|cbn; lia].
  - intros [|[|a]] action mask.
    + rewrite lookup_insert_eq. intros [= <-] [= <-]. cbn. lia.
    + rewrite lookup_insert_ne, lookup_singleton_eq by lia.
      intros [= <-] [= <-]. cbn. lia.
    + rewrite lookup_insert_ne, lookup_singleton_ne by lia.
      intros Hs. discriminate Hs.
Defined.

End shaping.

(** ** Deadlock detection *)

Section deadlocks.

Lemma check_deadlocks_from_S (fuel : nat) (blocker : nat → option nat)
    (a1 : list nat) (deadlocks : list bool) :
  check_deadlocks_from (S fuel) blocker a1 deadlocks
  = match getlast a1 with
    | Raise e => Some (Raise e)
    | Ok agent =>
        match blocker agent with
        | None => Some (Ok (false, a1, deadlocks))
        | Some a2 =>
            match getitem deadlocks a2 with
            | Raise e => Some (Raise e)
            | Ok deadlocked =>
                if deadlocked || bool_decide (a2 ∈ a1)
                then Some (Ok (true, a1, deadlocks))
                else
                  match
                    check_deadlocks_from fuel blocker (a1 ++ [a2]) deadlocks
                  with
                  | None => None
                  | Some (Raise e) => Some (Raise e)
                  | Some (Ok (found, a1, deadlocks)) =>
                      let deadlocks := <[a2 := found]> deadlocks in
                      if found then Some (Ok (true, a1, deadlocks))
                      else Some (Ok (false, but_last a1, deadlocks))
                  end
            end
        end
    end.
Proof. reflexivity. Qed.

(** The agents below [n] that are not in the chain: what the recursion
    uses up. *)
Lemma unseen_decreases (n a2 : nat) (a1 : list nat) :
  a2 < n → a2 ∉ a1 →
  size (set_seq (C:=gset nat) 0 n ∖ list_to_set (a1 ++ [a2]))
  < size (set_seq (C:=gset nat) 0 n ∖ list_to_set a1).
Proof.
  intros Hlt Hnew. apply subset_size. split.
  - intros a. rewrite !elem_of_difference, !elem_of_list_to_set.
    intros [Hseq Hout]. split; [done|]. intros Hin. apply Hout.
    apply elem_of_app. by left.
  - intros Hsub. specialize (Hsub a2).
    rewrite !elem_of_difference, !elem_of_list_to_set, elem_of_set_seq
      in Hsub.
    destruct Hsub as [_ Hout]; [split; [lia|done]|].
    apply Hout. apply elem_of_app. right. apply list_elem_of_here.
Qed.

Lemma last_cons_default (a b : nat) (path : list nat) (d : nat) :
  List.last (a :: b :: path) d = List.last (b :: path) a.
Proof.
  revert a b d. induction path as [|c path IH]; intros a b d; [done|].
  change (List.last (a :: b :: c :: path) d)
    with (List.last (b :: c :: path) d).
  by rewrite !(IH b c).
Qed.

Lemma check_deadlocks_from_spec (blocker : nat → option nat)
    (n fuel : nat) :
  (∀ a a2, blocker a = Some a2 → a2 < n) →
  ∀ (a1 : list nat) (deadlocks : list bool) (agent : nat),
    length deadlocks = n →
    last a1 = Some agent →
    size (set_seq (C:=gset nat) 0 n ∖ list_to_set a1) < fuel →
    ∃ found a1' deadlocks',
      check_deadlocks_from fuel blocker a1 deadlocks
      = Some (Ok (found, a1', deadlocks')) ∧
      length deadlocks' = n ∧
      (found = false ↔ ∃ path, way_out blocker a1 deadlocks agent path) ∧
      (found = false → a1' = a1 ∧ deadlocks' = deadlocks) ∧
      (found = true →
       ∃ chain,
         a1' = a1 ++ chain ∧
         (∀ a, a ∈ chain → deadlocks' !! a = Some true) ∧
         (∀ a, a ∉ chain → deadlocks' !! a = deadlocks !! a)).
Proof.
  intros Hrange. induction fuel as [|fuel IH];
    intros a1 deadlocks agent Hlen Hlast Hfuel; [lia|].
  rewrite check_deadlocks_from_S. unfold getlast. rewrite Hlast.
  destruct (blocker agent) as [a2|] eqn:Hblocker.
  - pose proof (Hrange _ _ Hblocker) as Ha2.
    destruct (lookup_lt_is_Some_2 deadlocks a2) as [deadlocked Hd]; [lia|].
    unfold getitem. rewrite Hd.
    assert (Hno : (deadlocked = true ∨ a2 ∈ a1) →
                  ¬ ∃ path, way_out blocker a1 deadlocks agent path).
    { intros Hstop (path & Hfollows & Hend & _ & Hfree).
      destruct path as [|b path].
      - cbn in Hend. congruence.
      - destruct Hfollows as [Hb _]. rewrite Hblocker in Hb.
        injection Hb as <-.
        destruct (Hfree a2) as [Hfalse Hout]; [apply list_elem_of_here|].
        destruct Hstop as [->|Hin]; [congruence|done]. }
    destruct (deadlocked || bool_decide (a2 ∈ a1)) eqn:Hstop.
    + exists true, a1, deadlocks. split; [done|]. split; [done|].
      split; [|split; [done|]].
      * split; [done|]. intros Hway. destruct Hno; [|done].
        apply orb_prop in Hstop as [->|Hin]; [by left|].
        right. by apply bool_decide_eq_true in Hin.
      * intros _. exists []. rewrite app_nil_r. split; [done|].
        split; [|done]. intros a Ha. by apply elem_of_nil in Ha.
    + apply orb_false_elim in Hstop as [-> Hnew].
      apply bool_decide_eq_false in Hnew.
      destruct (IH (a1 ++ [a2]) deadlocks a2 Hlen)
        as (found & a1' & deadlocks' & -> & Hlen' & Hiff & Hfalse & Htrue).
      { by rewrite last_snoc. }
      { pose proof (unseen_decreases n a2 a1 Ha2 Hnew). lia. }
      assert (Hways : (∃ path, way_out blocker (a1 ++ [a2]) deadlocks a2 path)
                      ↔ ∃ path, way_out blocker a1 deadlocks agent path).
      { split.
        - intros (path & Hfollows & Hend & Hdup & Hfree).
          exists (a2 :: path). split; [done|]. split; [|split].
          + destruct path as [|b path]; [done|].
            by rewrite last_cons_default.
          + apply NoDup_cons. split; [|done]. intros Hin.
            destruct (Hfree a2 Hin) as [_ Hout]. apply Hout.
            apply elem_of_app. right. apply list_elem_of_here.
          + intros a Ha. apply elem_of_cons in Ha as [->|Ha]; [done|].
            destruct (Hfree a Ha) as [Hf Hout]. split; [done|].
            intros Hin. apply Hout. apply elem_of_app. by left.
        - intros (path & Hfollows & Hend & Hdup & Hfree).
          destruct path as [|b path].
          + cbn in Hend. congruence.
          + destruct Hfollows as [Hb Hfollows]. rewrite Hblocker in Hb.
            injection Hb as <-. apply NoDup_cons in Hdup as [Hfresh Hdup].
            exists path. split; [done|]. split; [|split; [done|]].
            * destruct path as [|b path]; [done|].
              by rewrite last_cons_default in Hend.
            * intros a Ha.
              destruct (Hfree a) as [Hf Hout];
                [by apply list_elem_of_further|].
              split; [done|]. intros Hin.
              apply elem_of_app in Hin as [Hin|Hin]; [done|].
              apply list_elem_of_singleton in Hin as ->. done. }
      destruct found.
      * exists true, a1', (<[a2 := true]> deadlocks').
        split; [done|]. split; [by rewrite length_insert|].
        split; [|split; [done|]].
        -- split; [done|]. intros Hway. apply Hways in Hway.
           by apply Hiff in Hway.
        -- intros _. destruct (Htrue eq_refl) as (chain & -> & Hmarked & Hkept).
           exists (a2 :: chain). split; [by rewrite <- app_assoc|]. split.
           ++ intros a Ha. destruct (decide (a = a2)) as [->|Hne].
              ** apply list_lookup_insert_eq. lia.
              ** rewrite list_lookup_insert_ne; [|done]. apply Hmarked.
                 apply elem_of_cons in Ha as [Ha|Ha]; [done|done].
           ++ intros a Ha. apply not_elem_of_cons in Ha as [Hne Ha].
              rewrite list_lookup_insert_ne; [|done]. by apply Hkept.
      * destruct (Hfalse eq_refl) as [-> ->].
        exists false, a1, deadlocks. split.
        { cbn. unfold but_last. rewrite length_app. cbn.
          replace (length a1 + 1 - 1) with (length a1) by lia.
          rewrite take_app_length. by rewrite list_insert_id. }
        split; [done|]. split; [|split; [done|done]].
        split; [|done]. intros _. apply Hways. by apply Hiff.
  - exists false, a1, deadlocks. split; [done|]. split; [done|].
    split; [|split; [done|done]].
    split; [|done]. intros _. exists []. split; [done|]. split; [done|].
    split; [apply NoDup_nil_2|]. intros a Ha. by apply elem_of_nil in Ha.
Qed.

(** X30: [check_deadlocks] on a non-empty chain, with one flag for every agent
    that can stand in the way of another, returns, whatever the blocking
    relation is.  It returns [False] exactly when the last agent of the
    chain has a way out: a chain of agents, each in the way of the one
    before and none marked as deadlocked or in [a1], up to an agent that has
    nobody in its way; the two lists are then as they were.  When it
    returns [True] the agents it went through are appended to [a1] and
    marked as deadlocked, and no other flag changes. *)
Theorem check_deadlocks_way_out (blocker : nat → option nat)
    (a1 : list nat) (deadlocks : list bool) (agent : nat) :
  (∀ a a2, blocker a = Some a2 → a2 < length deadlocks) →
  last a1 = Some agent →
  ∃ found a1' deadlocks',
    check_deadlocks blocker a1 deadlocks
    = Some (Ok (found, a1', deadlocks')) ∧
    (found = false ↔ ∃ path, way_out blocker a1 deadlocks agent path) ∧
    (found = false → a1' = a1 ∧ deadlocks' = deadlocks) ∧
    (found = true →
     ∃ chain,
       a1' = a1 ++ chain ∧
       (∀ a, a ∈ chain → deadlocks' !! a = Some true) ∧
       (∀ a, a ∉ chain → deadlocks' !! a = deadlocks !! a)).
Proof.
  intros Hrange Hlast. unfold check_deadlocks.
  destruct (check_deadlocks_from_spec blocker (length deadlocks)
              (S (length deadlocks)) Hrange a1 deadlocks agent eq_refl Hlast)
    as (found & a1' & deadlocks' & Hrun & _ & Hrest).
  - assert (Hle : size (set_seq (C:=gset nat) 0 (length deadlocks)
                        ∖ list_to_set a1)
                  ≤ size (set_seq (C:=gset nat) 0 (length deadlocks))).
    { apply subseteq_size. intros a Ha.
      by apply elem_of_difference in Ha as [Ha _]. }
    rewrite size_set_seq in Hle. lia.
  - by exists found, a1', deadlocks'.
Qed.

Lemma check_deadlocks_way_out_witness :
  ∃ found a1' deadlocks',
    check_deadlocks
      (λ a, match a with 0 => Some 1 | 1 => Some 2 | 2 => Some 0 | _ => None end)
      [0] [false; false; false; false]
    = Some (Ok (found, a1', deadlocks')) ∧
    (found = false
     ↔ ∃ path,
         way_out
           (λ a, match a with
                 | 0 => Some 1 | 1 => Some 2 | 2 => Some 0 | _ => None
                 end)
           [0] [false; false; false; false] 0 path) ∧
    (found = false →
     a1' = [0] ∧ deadlocks' = [false; false; false; false]) ∧
    (found = true →
     ∃ chain,
       a1' = [0] ++ chain ∧
       (∀ a, a ∈ chain → deadlocks' !! a = Some true) ∧
       (∀ a, a ∉ chain →
             deadlocks' !! a = [false; false; false; false] !! a)).
Proof.
  apply (check_deadlocks_way_out
           (λ a, match a with
                 | 0 => Some 1 | 1 => Some 2 | 2 => Some 0 | _ => None
                 end)
           [0] [false; false; false; false] 0).
  - intros [|[|[|a]]] a2 [= <-]; cbn; lia.
  - reflexivity.
Defined.

End deadlocks.
